(** * CureZa research assistant: store, relevance and text-extraction core

  A shallow embedding of the TypeScript sources
  - [src/lib/researchDataStore.ts]  (class [ResearchDataStore]),
  - [src/lib/ragService.ts]         (class [RAGService]),
  - the [download_pdf] branch of the Google-Drive edge function,
  together with the properties the specification states about them.

  Conventions.
  - A JavaScript [number] is an IEEE-754 binary64 value: Rocq's primitive
    [float], whose operations are the same correctly rounded ones.
  - A JavaScript string is modelled as a [string] of 8-bit code units
    (Latin-1).  The edge function decodes the buffer with one code unit per
    byte, so lengths agree; none of the code units 128-255 is a letter, a
    digit, an underscore or a punctuation sign tested by the code, and only
    160 (no-break space) is white space.
  - [Map<string, V>] is a [gmap string V]; arrays are lists.
  - Methods of the singleton store run in a state-and-exception monad: a
    [throw] keeps every mutation made before it. *)

From Stdlib Require Import Floats Uint63 Ascii String ZArith Lia.
From Stdlib Require Import SpecFloat FloatAxioms FloatOps.
From Stdlib Require Strings.Byte.
From Stdlib Require DecimalString.

#[local] Set Warnings "-inexact-float".
From stdpp Require Import gmap strings list fin_maps.

Local Open Scope string_scope.

(** ** JavaScript numbers *)

Module JsNumber.

(** The number that is an array or string length (lengths are below 2^53). *)
Definition of_nat (n : nat) : float := PrimFloat.of_uint63 (Uint63.of_Z (Z.of_nat n)).
#[global] Arguments of_nat : simpl never.

(** [Math.min(x, y)]: NaN if either argument is NaN, and -0 below +0. *)
Definition Math_min (x y : float) : float :=
  if PrimFloat.is_nan x || PrimFloat.is_nan y then PrimFloat.nan
  else if PrimFloat.ltb x y then x
  else if PrimFloat.ltb y x then y
  else if PrimFloat.Leibniz.eqb x PrimFloat.neg_zero then x else y.

(** [x > y] *)
Definition gt (x y : float) : bool := PrimFloat.ltb y x.

(** Values whose sign bit is clear: +0, the positive numbers, +Infinity (and NaN). *)
Definition sign_clear_sf (x : spec_float) : Prop :=
  match x with
  | S754_zero s | S754_infinity s | S754_finite s _ _ => s = false
  | S754_nan => True
  end.
Definition sign_clear (x : float) : Prop := sign_clear_sf (Prim2SF x).

End JsNumber.

(** ** JavaScript strings *)

Module JsString.

Definition code (c : ascii) : nat := nat_of_ascii c.

Definition in_range (lo hi : nat) (c : ascii) : bool :=
  (lo <=? code c)%nat && (code c <=? hi)%nat.

(** The class [\s] on Latin-1 code units: TAB, LF, VT, FF, CR, space, NBSP. *)
Definition is_space (c : ascii) : bool :=
  in_range 9 13 c || (code c =? 32)%nat || (code c =? 160)%nat.
Definition is_digit (c : ascii) : bool := in_range 48 57 c.
Definition is_upper (c : ascii) : bool := in_range 65 90 c.
Definition is_lower (c : ascii) : bool := in_range 97 122 c.
Definition is_alpha (c : ascii) : bool := is_upper c || is_lower c.
(** The class [\w]. *)
Definition is_word (c : ascii) : bool := is_alpha c || is_digit c || (code c =? 95)%nat.
(** The code units [.] does not match. *)
Definition is_line_terminator (c : ascii) : bool := (code c =? 10)%nat || (code c =? 13)%nat.
(** The class [[\x20-\x7E]]. *)
Definition is_printable (c : ascii) : bool := in_range 32 126 c.

Definition one_of (set : string) (c : ascii) : bool :=
  existsb (Ascii.eqb c) (list_ascii_of_string set).

Definition toLowerCase_char (c : ascii) : ascii :=
  if is_upper c || (in_range 192 222 c && negb (code c =? 215)%nat)
  then ascii_of_nat (code c + 32) else c.

Fixpoint toLowerCase (s : string) : string :=
  match s with
  | EmptyString => EmptyString
  | String c t => String (toLowerCase_char c) (toLowerCase t)
  end.

(** [s.includes(needle)] *)
Fixpoint includes (s needle : string) : bool :=
  String.prefix needle s ||
  match s with
  | EmptyString => false
  | String _ t => includes t needle
  end.

Fixpoint trimStart (s : string) : string :=
  match s with
  | EmptyString => EmptyString
  | String c t => if is_space c then trimStart t else s
  end.

Fixpoint trimEnd (s : string) : string :=
  match s with
  | EmptyString => EmptyString
  | String c t =>
      match trimEnd t with
      | EmptyString => if is_space c then EmptyString else String c EmptyString
      | t' => String c t'
      end
  end.

Definition trim (s : string) : string := trimEnd (trimStart s).

(** Does the string hold a code unit that is not white space? *)
Fixpoint has_nonspace (s : string) : bool :=
  match s with
  | EmptyString => false
  | String c t => negb (is_space c) || has_nonspace t
  end.

(** [s.length] *)
Definition strlen (s : string) : Z := Z.of_nat (String.length s).

(** [s.substring(0, n)] *)
Definition substring0 (n : Z) (s : string) : string := String.substring 0 (Z.to_nat n) s.

Definition of_rev (l : list ascii) : string := string_of_list_ascii (rev l).

(** [array.join(sep)] *)
Definition join (sep : string) (l : list string) : string := String.concat sep l.

(** Decimal rendering of a small index, as in [`${index + 1}`]. *)
Definition digit_string (n : nat) : string := String (ascii_of_nat (48 + n)) EmptyString.
Definition of_index (n : nat) : string :=
  if (n <? 10)%nat then digit_string n
  else digit_string (n / 10) +:+ digit_string (n mod 10).

(** Does every code unit of the string satisfy [p]? *)
Fixpoint every (p : ascii -> bool) (s : string) : bool :=
  match s with
  | EmptyString => true
  | String c t => p c && every p t
  end.

End JsString.

(** ** Regular expressions

    A backtracking matcher with the priorities of ECMAScript: alternatives
    left to right, greedy quantifiers longest first, lazy ones shortest
    first, and an iteration of a quantifier past its minimum must consume
    input. *)

Module Regex.
Import JsString.

Inductive regex :=
| Eps
| Chr (p : ascii -> bool)
| Seq (r1 r2 : regex)
| Alt (r1 r2 : regex)
| Rep (greedy : bool) (lo : nat) (hi : option nat) (r : regex)
| Grp (n : nat) (r : regex)
| Bol
| Eol
| WordB.

Record cursor := {
  taken : list ascii;        (* code units matched so far, last first *)
  previous : option ascii;   (* the code unit before the current position *)
  remaining : string;
  captures : list (nat * string) }.

Definition advance (c : ascii) (t : string) (x : cursor) : cursor :=
  {| taken := c :: taken x; previous := Some c; remaining := t; captures := captures x |}.

Definition capture (n : nat) (x y : cursor) : cursor :=
  {| taken := taken y; previous := previous y; remaining := remaining y;
     captures := (n, of_rev (firstn (length (taken y) - length (taken x)) (taken y)))
                 :: captures y |}.

Definition at_word_boundary (x : cursor) : bool :=
  let before := match previous x with Some c => is_word c | None => false end in
  let after := match remaining x with String c _ => is_word c | EmptyString => false end in
  xorb before after.

Definition or_else {A} (a b : option A) : option A :=
  match a with Some _ => a | None => b end.

(** A quantifier [body{lo,hi}] followed by [k]; [fuel] bounds the number of
    iterations, each of which past the minimum consumes input. *)
Fixpoint iterate (body : cursor -> (cursor -> option cursor) -> option cursor)
         (greedy : bool) (k : cursor -> option cursor)
         (fuel lo : nat) (hi : option nat) (x : cursor) {struct fuel} : option cursor :=
  match fuel with
  | O => None
  | S fuel' =>
      match hi with
      | Some O => k x
      | _ =>
          let once :=
            body x (fun y =>
              if (lo =? 0)%nat && (length (taken y) =? length (taken x))%nat then None
              else iterate body greedy k fuel' (pred lo) (option_map pred hi) y) in
          if (0 <? lo)%nat then once
          else if greedy then or_else once (k x)
          else or_else (k x) once
      end
  end.

Fixpoint run (r : regex) : cursor -> (cursor -> option cursor) -> option cursor :=
  match r with
  | Eps => fun x k => k x
  | Chr p => fun x k =>
      match remaining x with
      | String c t => if p c then k (advance c t x) else None
      | EmptyString => None
      end
  | Seq r1 r2 => fun x k => run r1 x (fun y => run r2 y k)
  | Alt r1 r2 => fun x k => or_else (run r1 x k) (run r2 x k)
  | Grp n r1 => fun x k => run r1 x (fun y => k (capture n x y))
  | Rep greedy lo hi r1 => fun x k =>
      iterate (run r1) greedy k (S (lo + String.length (remaining x))) lo hi x
  | Bol => fun x k => match previous x with None => k x | Some _ => None end
  | Eol => fun x k => match remaining x with EmptyString => k x | String _ _ => None end
  | WordB => fun x k => if at_word_boundary x then k x else None
  end.

(** [y] is [x] after some more of the input has been consumed. *)
Definition reaches (x y : cursor) : Prop :=
  (String.length (remaining y) <= String.length (remaining x))%nat /\
  (length (taken y) + String.length (remaining y)
   = length (taken x) + String.length (remaining x))%nat.

(** A match starting exactly at the current position. *)
Definition exec (r : regex) (prev : option ascii) (s : string) : option cursor :=
  run r {| taken := []; previous := prev; remaining := s; captures := [] |} Some.

Definition matched (y : cursor) : string := of_rev (taken y).

(** The replacement strings [' '] and ['']. *)
Definition blank (_ : cursor) : string := " ".
Definition nothing (_ : cursor) : string := "".

Fixpoint group (n : nat) (caps : list (nat * string)) : string :=
  match caps with
  | [] => EmptyString
  | (i, text) :: caps' => if (i =? n)%nat then text else group n caps'
  end.

(** Builders. *)
Definition chr (c : ascii) : regex := Chr (Ascii.eqb c).
Fixpoint lit (s : string) : regex :=
  match s with
  | EmptyString => Eps
  | String c EmptyString => chr c
  | String c t => Seq (chr c) (lit t)
  end.
(** A literal under the [i] flag. *)
Fixpoint ilit (s : string) : regex :=
  match s with
  | EmptyString => Eps
  | String c t =>
      Seq (Chr (fun d => Ascii.eqb (toLowerCase_char d) (toLowerCase_char c))) (ilit t)
  end.
Definition star (r : regex) : regex := Rep true 0 None r.
Definition plus (r : regex) : regex := Rep true 1 None r.
Definition opt (r : regex) : regex := Rep true 0 (Some 1) r.
Definition lazy_star (r : regex) : regex := Rep false 0 None r.
Definition any : regex := Chr (fun _ => true).                      (* [\s\S] *)
Definition dot : regex := Chr (fun c => negb (is_line_terminator c)). (* . *)
Definition space : regex := Chr is_space.                           (* \s *)
Definition none_of (set : string) : regex := Chr (fun c => negb (one_of set c)).
Fixpoint seq (rs : list regex) : regex :=
  match rs with
  | [] => Eps
  | [r] => r
  | r :: rs' => Seq r (seq rs')
  end.
Fixpoint alt (rs : list regex) : regex :=
  match rs with
  | [] => Chr (fun _ => false)
  | [r] => r
  | r :: rs' => Alt r (alt rs')
  end.

(** The leftmost match at or after the current position; [gap] holds the
    code units skipped so far, last first. *)
Fixpoint search (r : regex) (prev : option ascii) (s : string) (gap : list ascii)
  : option (string * cursor) :=
  match exec r prev s with
  | Some y => Some (of_rev gap, y)
  | None =>
      match s with
      | EmptyString => None
      | String c t => search r (Some c) t (c :: gap)
      end
  end.

(** [re.test(s)] *)
Definition test (r : regex) (s : string) : bool :=
  match search r None s [] with Some _ => true | None => false end.

(** [s.replace(re, ...)] without the [g] flag. *)
Definition replaceFirst (r : regex) (by_ : cursor -> string) (s : string) : string :=
  match search r None s [] with
  | Some (before, y) => before +:+ by_ y +:+ remaining y
  | None => s
  end.

(** The successive matches of a [g] regex and the text between them. *)
Inductive piece :=
| Gap (text : string)
| Hit (y : cursor).

Fixpoint pieces (fuel : nat) (r : regex) (prev : option ascii) (s : string) (gap : list ascii)
  : list piece :=
  match fuel with
  | O => []
  | S fuel' =>
      match exec r prev s with
      | Some y =>
          match taken y with
          | [] =>
              (* empty match: lastIndex advances by one *)
              Gap (of_rev gap) :: Hit y ::
              match s with
              | EmptyString => []
              | String c t => pieces fuel' r (Some c) t [c]
              end
          | _ :: _ => Gap (of_rev gap) :: Hit y :: pieces fuel' r (previous y) (remaining y) []
          end
      | None =>
          match s with
          | EmptyString => [Gap (of_rev gap)]
          | String c t => pieces fuel' r (Some c) t (c :: gap)
          end
      end
  end.

Definition scan (r : regex) (s : string) : list piece :=
  pieces (S (String.length s)) r None s [].

(** [s.match(re)] with the [g] flag; [null] is the empty list. *)
Definition matchAll (r : regex) (s : string) : list string :=
  flat_map (fun p => match p with Hit y => [matched y] | Gap _ => [] end) (scan r s).

(** [s.replace(re, ...)] with the [g] flag. *)
Definition replaceAll (r : regex) (by_ : cursor -> string) (s : string) : string :=
  String.concat "" (map (fun p => match p with Hit y => by_ y | Gap text => text end) (scan r s)).

Fixpoint groups (r : regex) : list nat :=
  match r with
  | Seq r1 r2 | Alt r1 r2 => groups r1 ++ groups r2
  | Rep _ _ _ r1 => groups r1
  | Grp n r1 => n :: groups r1
  | _ => []
  end.

(** [s.split(re)]: the separator is tried at each position [q] of a non-empty
    string; a match ending where the previous piece ended is skipped; the
    captures of a separator are spliced into the result. *)
Fixpoint splitting (fuel : nat) (r : regex) (prev : option ascii) (s : string) (gap : list ascii)
  : list string :=
  match fuel with
  | O => []
  | S fuel' =>
      match s with
      | EmptyString => [of_rev gap]
      | String c t =>
          match exec r prev s with
          | Some y =>
              match taken y, gap with
              | [], [] => splitting fuel' r (Some c) t (c :: gap)
              | _, _ =>
                  of_rev gap :: map (fun n => group n (captures y)) (groups r)
                  ++ splitting fuel' r (previous y) (remaining y) []
              end
          | None => splitting fuel' r (Some c) t (c :: gap)
          end
      end
  end.

Definition split (r : regex) (s : string) : list string :=
  match s with
  | EmptyString => match exec r None s with Some _ => [] | None => [s] end
  | _ => splitting (2 * String.length s + 2) r None s []
  end.

(** [y] is [x] further in the same text: what has been taken and what
    remains make up what they made up at [x]. *)
Definition continues (x y : cursor) : Prop :=
  of_rev (taken y) +:+ remaining y = of_rev (taken x) +:+ remaining x.

End Regex.

(** ** The research data store ([researchDataStore.ts]) *)

Module Store.

Record SourcePaper := {
  sp_id : string;
  sp_title : string;
  sp_authors : list string;
  sp_url : string;
  sp_extractedText : string;
  sp_relevantSections : list string;
  sp_citationStyle : string }.

Inductive HypothesisStatus := draft | testing | validated | rejected.

Record ExtractedEvidence := {
  ee_paperId : string;
  ee_evidenceText : string;
  ee_pageNumber : option float;
  ee_section : string }.

Record HypothesisWithSources := {
  h_id : string;
  h_title : string;
  h_description : string;
  h_status : HypothesisStatus;
  h_confidence : float;
  h_sourcePapers : list SourcePaper;
  h_extractedEvidence : list ExtractedEvidence;
  h_tags : list string;
  h_createdAt : string;
  h_updatedAt : string;
  h_knowledgeGraphNodeId : option string }.

Inductive NodeType := nt_paper | nt_hypothesis | nt_concept | nt_evidence | nt_author.
Inductive SourceType := pdf_extracted | user_generated | paper_metadata.

(** The optional metadata fields the store writes; the other optional fields
    of the interface are never set by it. *)
Record NodeMetadata := {
  md_sourcePapers : option (list string);
  md_confidence : option float;
  md_description : option string }.

Record KnowledgeGraphNode := {
  n_id : string;
  n_label : string;
  n_type : NodeType;
  n_sourceType : SourceType;
  n_importance : float;
  n_metadata : NodeMetadata;
  n_connections : list string }.

Inductive ConnectionType := supports | contradicts | relates_to | derived_from | cites.

Record ConnectionEvidence := {
  ce_paperId : string;
  ce_evidenceText : string;
  ce_confidence : float }.

Record GraphConnection := {
  c_sourceId : string;
  c_targetId : string;
  c_type : ConnectionType;
  c_weight : float;
  c_evidence : list ConnectionEvidence }.

(** The four private maps of [ResearchDataStore]. *)
Record ResearchDataStore := {
  hypotheses : gmap string HypothesisWithSources;
  papers : gmap string SourcePaper;
  knowledgeGraph : gmap string KnowledgeGraphNode;
  connections : gmap string GraphConnection }.

Definition emptyStore : ResearchDataStore :=
  {| hypotheses := ∅; papers := ∅; knowledgeGraph := ∅; connections := ∅ |}.

(** *** State and exceptions *)

Inductive outcome (A : Type) :=
| Returned (a : A)
| Thrown (message : string).
Arguments Returned {A} a.
Arguments Thrown {A} message.

Definition Js (A : Type) : Type := ResearchDataStore -> ResearchDataStore * outcome A.

Definition ret {A} (a : A) : Js A := fun st => (st, Returned a).
Definition throw {A} (message : string) : Js A := fun st => (st, Thrown message).
Definition bind {A B} (k : A -> Js B) (m : Js A) : Js B :=
  fun st => match m st with
            | (st', Returned a) => k a st'
            | (st', Thrown e) => (st', Thrown e)
            end.
#[export] Instance Js_ret : MRet Js := @ret.
#[export] Instance Js_bind : MBind Js := @bind.
Definition gets {A} (f : ResearchDataStore -> A) : Js A := fun st => (st, Returned (f st)).
Definition modify (f : ResearchDataStore -> ResearchDataStore) : Js unit :=
  fun st => (f st, Returned tt).

(** [array.forEach(body)] with an effectful body. *)
Fixpoint forEach {A} (l : list A) (body : A -> Js unit) : Js unit :=
  match l with
  | [] => ret tt
  | x :: l' => body x;; forEach l' body
  end.

(** Field updates. *)
Definition set_hypotheses f st :=
  {| hypotheses := f (hypotheses st); papers := papers st;
     knowledgeGraph := knowledgeGraph st; connections := connections st |}.
Definition set_papers f st :=
  {| hypotheses := hypotheses st; papers := f (papers st);
     knowledgeGraph := knowledgeGraph st; connections := connections st |}.
Definition set_knowledgeGraph f st :=
  {| hypotheses := hypotheses st; papers := papers st;
     knowledgeGraph := f (knowledgeGraph st); connections := connections st |}.
Definition set_connections f st :=
  {| hypotheses := hypotheses st; papers := papers st;
     knowledgeGraph := knowledgeGraph st; connections := f (connections st) |}.

(** [node.connections.push(x)] on the node object held by the map. *)
Definition push_connection (x : string) (node : KnowledgeGraphNode) : KnowledgeGraphNode :=
  {| n_id := n_id node; n_label := n_label node; n_type := n_type node;
     n_sourceType := n_sourceType node; n_importance := n_importance node;
     n_metadata := n_metadata node; n_connections := n_connections node ++ [x] |}.

Definition paperNodeId (paperId : string) : string := "paper_" +:+ paperId.
Definition hypothesisNodeId (hypothesisId : string) : string := "hypothesis_" +:+ hypothesisId.

(** *** [addPaper] *)
Definition addPaper (paper : SourcePaper) : Js unit :=
  modify (set_papers (insert (sp_id paper) paper));;
  let paperNode :=
    {| n_id := paperNodeId (sp_id paper);
       n_label := sp_title paper;
       n_type := nt_paper;
       n_sourceType := paper_metadata;
       n_importance := 0.8%float;
       n_metadata := {| md_description := Some ("Research paper: " +:+ sp_title paper);
                        md_sourcePapers := Some [sp_id paper];
                        md_confidence := None |};
       n_connections := [] |} in
  modify (set_knowledgeGraph (insert (n_id paperNode) paperNode)).

Definition getPaper (id : string) : Js (option SourcePaper) := gets (fun st => papers st !! id).

(** *** [addHypothesis] *)

(** [`${a}, ${b}, ...`]: [Array.prototype.join(', ')]. *)
Definition join (sep : string) (l : list string) : string := String.concat sep l.

Definition has_paper (st : ResearchDataStore) (id : string) : bool :=
  match papers st !! id with Some _ => true | None => false end.

Definition missingPapers (st : ResearchDataStore) (h : HypothesisWithSources) : list SourcePaper :=
  List.filter (fun paper => negb (has_paper st (sp_id paper))) (h_sourcePapers h).

Definition missingSourceMessage (missing : list SourcePaper) : string :=
  "Missing source papers: " +:+ join ", " (map sp_id missing).

Definition connectionFor (h : HypothesisWithSources) (nodeId : string) (paper : SourcePaper)
  : GraphConnection :=
  {| c_sourceId := nodeId;
     c_targetId := paperNodeId (sp_id paper);
     c_type := derived_from;
     c_weight := 0.8%float;
     c_evidence :=
       map (fun ev => {| ce_paperId := sp_id paper;
                         ce_evidenceText := ee_evidenceText ev;
                         ce_confidence := (h_confidence h / 100)%float |})
           (List.filter (fun ev => String.eqb (ee_paperId ev) (sp_id paper))
                        (h_extractedEvidence h)) |}.

Definition addHypothesis (hypothesis : HypothesisWithSources) : Js HypothesisWithSources :=
  missing ← gets (fun st => missingPapers st hypothesis);
  if (0 <? length missing)%nat then throw (missingSourceMessage missing)
  else
    let nodeId := hypothesisNodeId (h_id hypothesis) in
    let hypothesisNode :=
      {| n_id := nodeId;
         n_label := h_title hypothesis;
         n_type := nt_hypothesis;
         n_sourceType := pdf_extracted;
         n_importance := (h_confidence hypothesis / 100)%float;
         n_metadata := {| md_sourcePapers := Some (map sp_id (h_sourcePapers hypothesis));
                          md_confidence := Some (h_confidence hypothesis);
                          md_description := Some (h_description hypothesis) |};
         n_connections := [] |} in
    let fullHypothesis :=
      {| h_id := h_id hypothesis; h_title := h_title hypothesis;
         h_description := h_description hypothesis; h_status := h_status hypothesis;
         h_confidence := h_confidence hypothesis;
         h_sourcePapers := h_sourcePapers hypothesis;
         h_extractedEvidence := h_extractedEvidence hypothesis;
         h_tags := h_tags hypothesis; h_createdAt := h_createdAt hypothesis;
         h_updatedAt := h_updatedAt hypothesis;
         h_knowledgeGraphNodeId := Some nodeId |} in
    modify (set_hypotheses (insert (h_id hypothesis) fullHypothesis));;
    modify (set_knowledgeGraph (insert nodeId hypothesisNode));;
    forEach (h_sourcePapers hypothesis) (fun paper =>
      let paperNode := paperNodeId (sp_id paper) in
      let connectionId := nodeId +:+ "_to_" +:+ paperNode in
      modify (set_connections (insert connectionId (connectionFor hypothesis nodeId paper)));;
      (* hypothesisNode is the object stored under nodeId *)
      modify (set_knowledgeGraph (alter (push_connection paperNode) nodeId));;
      (* if (paperNode) paperNode.connections.push(nodeId) *)
      modify (set_knowledgeGraph (alter (push_connection nodeId) paperNode)));;
    ret fullHypothesis.

(** *** [validateHypothesisAgainstSources] *)

Record SupportingEvidence := {
  se_paperId : string;
  se_evidenceText : string;
  se_relevance : float }.

Record Validation := {
  isValid : bool;
  confidence : float;
  supportingEvidence : list SupportingEvidence;
  warnings : list string }.

(** [/\s+/] *)
Definition whitespace : Regex.regex := Regex.plus Regex.space.

(** [hypothesisText.toLowerCase().split(/\s+/)] *)
Definition hypothesisWords (hypothesisText : string) : list string :=
  Regex.split whitespace (JsString.toLowerCase hypothesisText).

Definition foundConcepts (words : list string) (paper : SourcePaper) : list string :=
  let paperText := JsString.toLowerCase (sp_extractedText paper) in
  List.filter (fun word => (3 <? JsString.strlen word)%Z && JsString.includes paperText word) words.

Definition noEvidenceWarning (paper : SourcePaper) : string :=
  "No supporting evidence found in paper: " +:+ sp_title paper.

(** The three accumulators of the loop over the source papers. *)
Record Tally := {
  t_supportingEvidence : list SupportingEvidence;
  t_warnings : list string;
  t_totalRelevance : float }.

Definition examine (words : list string) (acc : Tally) (paper : SourcePaper) : Tally :=
  let found := foundConcepts words paper in
  if (0 <? length found)%nat then
    let relevance := (JsNumber.of_nat (length found) / JsNumber.of_nat (length words))%float in
    {| t_totalRelevance := (t_totalRelevance acc + relevance)%float;
       t_supportingEvidence :=
         t_supportingEvidence acc ++
         map (fun section => {| se_paperId := sp_id paper; se_evidenceText := section;
                                se_relevance := relevance |})
             (List.filter (fun section =>
                             JsString.includes (JsString.toLowerCase section) (hd "" found))
                          (sp_relevantSections paper));
       t_warnings := t_warnings acc |}
  else
    {| t_totalRelevance := t_totalRelevance acc;
       t_supportingEvidence := t_supportingEvidence acc;
       t_warnings := t_warnings acc ++ [noEvidenceWarning paper] |}.

Definition validateHypothesisAgainstSources (hypothesisText : string)
           (sourcePapers : list SourcePaper) : Validation :=
  let words := hypothesisWords hypothesisText in
  let acc := fold_left (examine words) sourcePapers
               {| t_supportingEvidence := []; t_warnings := []; t_totalRelevance := 0%float |} in
  let avgRelevance := (t_totalRelevance acc / JsNumber.of_nat (length sourcePapers))%float in
  let confidence := JsNumber.Math_min (avgRelevance * 100)%float 95%float in
  {| isValid := JsNumber.gt avgRelevance 0.3%float;
     confidence := confidence;
     supportingEvidence := t_supportingEvidence acc;
     warnings := t_warnings acc |}.

(** The relevance of one paper and the average over the papers, in terms of
    the matched words of the loop. *)
Definition paperRelevance (words : list string) (paper : SourcePaper) : float :=
  (JsNumber.of_nat (length (foundConcepts words paper)) / JsNumber.of_nat (length words))%float.

Definition avgRelevance (hypothesisText : string) (sourcePapers : list SourcePaper) : float :=
  let words := hypothesisWords hypothesisText in
  (fold_left (fun total paper => total + paperRelevance words paper)%float sourcePapers 0%float
   / JsNumber.of_nat (length sourcePapers))%float.

(** *** The validation as the specification words it *)

(** [word] occurs as a substring of [text]: at some offset the next code units
    of [text] are those of [word]. *)
Definition isSubstringOf (word text : string) : bool :=
  existsb (fun offset =>
             String.eqb (String.substring offset (String.length word) text) word)
          (seq 0 (S (String.length text))).

(** The words of the hypothesis; [fold] is the case folding applied to the
    hypothesis and to the text of the papers before they are compared: none in
    the words of the specification, [toLowerCase] in the code. *)
Definition specifiedWords (fold : string -> string) (hypothesisText : string) : list string :=
  Regex.split whitespace (fold hypothesisText).

(** The number of hypothesis words longer than 3 characters that occur as
    substrings of the extracted text of the paper. *)
Definition matchedWordCount (fold : string -> string) (hypothesisText : string)
           (paper : SourcePaper) : nat :=
  length (List.filter (fun word => (3 <? JsString.strlen word)%Z
                                   && isSubstringOf word (fold (sp_extractedText paper)))
                      (specifiedWords fold hypothesisText)).





(** *** [updateHypothesisStatus]; [now] is [new Date().toISOString()]. *)
Definition set_node_confidence (c : float) (node : KnowledgeGraphNode) : KnowledgeGraphNode :=
  {| n_id := n_id node; n_label := n_label node; n_type := n_type node;
     n_sourceType := n_sourceType node; n_importance := n_importance node;
     n_metadata := {| md_sourcePapers := md_sourcePapers (n_metadata node);
                      md_confidence := Some c;
                      md_description := md_description (n_metadata node) |};
     n_connections := n_connections node |}.

Definition updateHypothesisStatus (hypothesisId : string) (newStatus : HypothesisStatus)
           (now : string) : Js unit :=
  found ← gets (fun st => hypotheses st !! hypothesisId);
  match found with
  | None => ret tt
  | Some hypothesis =>
      let hypothesis' :=
        {| h_id := h_id hypothesis; h_title := h_title hypothesis;
           h_description := h_description hypothesis; h_status := newStatus;
           h_confidence := h_confidence hypothesis;
           h_sourcePapers := h_sourcePapers hypothesis;
           h_extractedEvidence := h_extractedEvidence hypothesis;
           h_tags := h_tags hypothesis; h_createdAt := h_createdAt hypothesis;
           h_updatedAt := now;
           h_knowledgeGraphNodeId := h_knowledgeGraphNodeId hypothesis |} in
      (* the stored object is mutated in place *)
      modify (set_hypotheses (insert hypothesisId hypothesis'));;
      match h_knowledgeGraphNodeId hypothesis' with
      | Some nodeId =>
          modify (set_knowledgeGraph (alter (set_node_confidence (h_confidence hypothesis')) nodeId))
      | None => ret tt
      end;;
      modify (set_hypotheses (insert hypothesisId hypothesis'))
  end.

(** *** Sequences of store operations *)
Inductive operation :=
| AddPaper (paper : SourcePaper)
| AddHypothesis (hypothesis : HypothesisWithSources)
| UpdateHypothesisStatus (hypothesisId : string) (newStatus : HypothesisStatus) (now : string).

(** The store after one call; an exception leaves the store as the call left it. *)
Definition perform (st : ResearchDataStore) (op : operation) : ResearchDataStore :=
  match op with
  | AddPaper paper => fst (addPaper paper st)
  | AddHypothesis hypothesis => fst (addHypothesis hypothesis st)
  | UpdateHypothesisStatus i s now => fst (updateHypothesisStatus i s now st)
  end.

Definition performAll (st : ResearchDataStore) (ops : list operation) : ResearchDataStore :=
  fold_left perform ops st.

(** The graph node an operation stores afresh (with [Map.set]), if any. *)
Definition storesNode (op : operation) : option string :=
  match op with
  | AddPaper paper => Some (paperNodeId (sp_id paper))
  | AddHypothesis hypothesis => Some (hypothesisNodeId (h_id hypothesis))
  | UpdateHypothesisStatus _ _ _ => None
  end.

(** "Once a node exists it is never deleted and its connections only grow",
    over the stores reached from the empty one. *)
Definition connections_only_grow : Prop :=
  forall (ops further : list operation) (i : string) (node : KnowledgeGraphNode) (c : string),
    knowledgeGraph (performAll emptyStore ops) !! i = Some node ->
    c ∈ n_connections node ->
    exists node',
      knowledgeGraph (performAll (performAll emptyStore ops) further) !! i = Some node' /\
      c ∈ n_connections node'.

(** The net effect on the store of one round of the wiring loop of
    [addHypothesis]. *)
Definition wire (h : HypothesisWithSources) (paper : SourcePaper) (st : ResearchDataStore)
  : ResearchDataStore :=
  let nodeId := hypothesisNodeId (h_id h) in
  set_knowledgeGraph (alter (push_connection nodeId) (paperNodeId (sp_id paper)))
    (set_knowledgeGraph (alter (push_connection (paperNodeId (sp_id paper))) nodeId)
       (set_connections
          (insert (nodeId +:+ "_to_" +:+ paperNodeId (sp_id paper))
                  (connectionFor h nodeId paper)) st)).

(** Node [i] survives from [st] to [st'], with at least the connections it had. *)
Definition grows (i : string) (st st' : ResearchDataStore) : Prop :=
  forall node, knowledgeGraph st !! i = Some node ->
    exists node', knowledgeGraph st' !! i = Some node' /\
                  forall c, c ∈ n_connections node -> c ∈ n_connections node'.

(** Node [i] survives from [st] to [st']. *)
Definition persists (i : string) (st st' : ResearchDataStore) : Prop :=
  is_Some (knowledgeGraph st !! i) -> is_Some (knowledgeGraph st' !! i).

(** *** Lookups, search and reset *)

Definition getHypothesis (id : string) : Js (option HypothesisWithSources) :=
  gets (fun st => hypotheses st !! id).

Definition clearAll : Js unit :=
  modify (set_papers (fun _ => ∅));;
  modify (set_hypotheses (fun _ => ∅));;
  modify (set_knowledgeGraph (fun _ => ∅));;
  modify (set_connections (fun _ => ∅)).

(** [Array.from(map.values())]; the order of the values is not modelled. *)
Definition values {V} (m : gmap string V) : list V := (map_to_list m).*2.

Record SearchResult := {
  found_papers : list SourcePaper;
  found_hypotheses : list HypothesisWithSources;
  found_knowledgeNodes : list KnowledgeGraphNode }.

Definition paperMatches (lowerTerm : string) (paper : SourcePaper) : bool :=
  JsString.includes (JsString.toLowerCase (sp_title paper)) lowerTerm
  || JsString.includes (JsString.toLowerCase (sp_extractedText paper)) lowerTerm
  || existsb (fun author => JsString.includes (JsString.toLowerCase author) lowerTerm)
             (sp_authors paper).

Definition hypothesisMatches (lowerTerm : string) (hyp : HypothesisWithSources) : bool :=
  JsString.includes (JsString.toLowerCase (h_title hyp)) lowerTerm
  || JsString.includes (JsString.toLowerCase (h_description hyp)) lowerTerm.

Definition nodeMatches (lowerTerm : string) (node : KnowledgeGraphNode) : bool :=
  JsString.includes (JsString.toLowerCase (n_label node)) lowerTerm
  || match md_description (n_metadata node) with
     | Some description => JsString.includes (JsString.toLowerCase description) lowerTerm
     | None => false
     end.

Definition searchByTerm (term : string) : Js SearchResult :=
  let lowerTerm := JsString.toLowerCase term in
  gets (fun st =>
    {| found_papers := List.filter (paperMatches lowerTerm) (values (papers st));
       found_hypotheses := List.filter (hypothesisMatches lowerTerm) (values (hypotheses st));
       found_knowledgeNodes := List.filter (nodeMatches lowerTerm) (values (knowledgeGraph st)) |}).

(** *** The stores the methods can produce *)

Inductive reachable : ResearchDataStore -> Prop :=
| reachable_new : reachable emptyStore
| reachable_addPaper st paper :
    reachable st -> reachable (fst (addPaper paper st))
| reachable_addHypothesis st hypothesis :
    reachable st -> reachable (fst (addHypothesis hypothesis st))
| reachable_updateHypothesisStatus st hypothesisId newStatus now :
    reachable st -> reachable (fst (updateHypothesisStatus hypothesisId newStatus now st))
| reachable_clearAll st :
    reachable st -> reachable (fst (clearAll st)).

Definition has_node (st : ResearchDataStore) (i : string) : Prop :=
  is_Some (knowledgeGraph st !! i).

(** Every reference held by the store resolves. *)
Record consistent (st : ResearchDataStore) : Prop := {
  paper_keyed : forall k paper, papers st !! k = Some paper -> sp_id paper = k;
  paper_has_node : forall k paper, papers st !! k = Some paper -> has_node st (paperNodeId k);
  hypothesis_keyed : forall k h, hypotheses st !! k = Some h -> h_id h = k;
  hypothesis_has_node : forall k h,
    hypotheses st !! k = Some h ->
    h_knowledgeGraphNodeId h = Some (hypothesisNodeId k) /\ has_node st (hypothesisNodeId k);
  hypothesis_node_confidence : forall k h node,
    hypotheses st !! k = Some h -> knowledgeGraph st !! hypothesisNodeId k = Some node ->
    md_confidence (n_metadata node) = Some (h_confidence h);
  hypothesis_sources_stored : forall k h paper,
    hypotheses st !! k = Some h -> paper ∈ h_sourcePapers h ->
    is_Some (papers st !! sp_id paper);
  connection_endpoints : forall k c,
    connections st !! k = Some c -> has_node st (c_sourceId c) /\ has_node st (c_targetId c);
  connection_shape : forall k c,
    connections st !! k = Some c ->
    k = c_sourceId c +:+ "_to_" +:+ c_targetId c /\ c_type c = derived_from /\
    exists hypothesisId paperId,
      c_sourceId c = hypothesisNodeId hypothesisId /\ c_targetId c = paperNodeId paperId;
  node_keyed : forall k node, knowledgeGraph st !! k = Some node -> n_id node = k;
  node_connections_resolve : forall k node c,
    knowledgeGraph st !! k = Some node -> c ∈ n_connections node -> has_node st c }.

(** The node and the stored hypothesis that [addHypothesis] builds. *)
Definition freshHypothesisNode (hypothesis : HypothesisWithSources) : KnowledgeGraphNode :=
  {| n_id := hypothesisNodeId (h_id hypothesis);
     n_label := h_title hypothesis;
     n_type := nt_hypothesis;
     n_sourceType := pdf_extracted;
     n_importance := (h_confidence hypothesis / 100)%float;
     n_metadata := {| md_sourcePapers := Some (map sp_id (h_sourcePapers hypothesis));
                      md_confidence := Some (h_confidence hypothesis);
                      md_description := Some (h_description hypothesis) |};
     n_connections := [] |}.

Definition withNodeId (hypothesis : HypothesisWithSources) : HypothesisWithSources :=
  {| h_id := h_id hypothesis; h_title := h_title hypothesis;
     h_description := h_description hypothesis; h_status := h_status hypothesis;
     h_confidence := h_confidence hypothesis;
     h_sourcePapers := h_sourcePapers hypothesis;
     h_extractedEvidence := h_extractedEvidence hypothesis;
     h_tags := h_tags hypothesis; h_createdAt := h_createdAt hypothesis;
     h_updatedAt := h_updatedAt hypothesis;
     h_knowledgeGraphNodeId := Some (hypothesisNodeId (h_id hypothesis)) |}.

Definition connectionId (hypothesis : HypothesisWithSources) (paper : SourcePaper) : string :=
  hypothesisNodeId (h_id hypothesis) +:+ "_to_" +:+ paperNodeId (sp_id paper).

(** The store once the hypothesis and its node are set, before the wiring loop. *)
Definition registered (hypothesis : HypothesisWithSources) (st : ResearchDataStore)
  : ResearchDataStore :=
  set_knowledgeGraph (insert (hypothesisNodeId (h_id hypothesis)) (freshHypothesisNode hypothesis))
    (set_hypotheses (insert (h_id hypothesis) (withNodeId hypothesis)) st).

End Store.

(** ** The retrieval service ([ragService.ts]) *)

Module Rag.
Import JsString Regex.

Definition newline : ascii := "010"%char.

(** The replacement string ['$1 $2']. *)
Definition first_blank_second (y : cursor) : string :=
  group 1 (captures y) +:+ " " +:+ group 2 (captures y).
(** ['$1 '] *)
Definition first_blank (y : cursor) : string := group 1 (captures y) +:+ " ".

(** *** [preprocessTextForSearch] *)
Definition preprocessTextForSearch (text : string) : string :=
  let text := replaceAll (plus space) blank text in                     (* /\s+/g *)
  let text := replaceAll (seq [Grp 1 (Chr is_lower); Grp 2 (Chr is_upper)])
                         first_blank_second text in                     (* /([a-z])([A-Z])/g *)
  let text := replaceAll (seq [WordB; Grp 1 (plus (Chr is_digit)); Grp 2 (Chr is_alpha)])
                         first_blank_second text in                     (* /\b(\d+)([a-zA-Z])/g *)
  let text := replaceAll (seq [Grp 1 (Chr is_alpha); Grp 2 (plus (Chr is_digit))])
                         first_blank_second text in                     (* /([a-zA-Z])(\d+)/g *)
  let text := replaceAll (seq [star space; Grp 1 (Chr (one_of ".,;:!?")); star space])
                         first_blank text in                            (* /\s*([.,;:!?])\s*/g *)
  let text := replaceAll (Rep true 2 None space) blank text in          (* /\s{2,}/g *)
  trim text.

(** *** [extractRelevantSections] *)

(** [/\n\s*(Abstract|Introduction|Methods?|Results?|Discussion|Conclusion|References?)\b/gi] *)
Definition sectionDelimiters : regex :=
  seq [chr newline; star space;
       Grp 1 (alt [ilit "Abstract"; ilit "Introduction";
                   Seq (ilit "Method") (opt (ilit "s"));
                   Seq (ilit "Result") (opt (ilit "s"));
                   ilit "Discussion"; ilit "Conclusion";
                   Seq (ilit "Reference") (opt (ilit "s"))]);
       WordB].

(** The loop [for (i = 1; i < parts.length; i += 2)] over [parts] from index 1. *)
Fixpoint structuredSections (parts : list string) : list string :=
  match parts with
  | header :: content :: rest =>
      (if (0 <? strlen content)%Z && (100 <? strlen (trim content))%Z
       then [header +:+ ": " +:+ substring0 1000 (trim content)] else [])
      ++ structuredSections rest
  | _ => []
  end.

(** [paragraphs.slice(0, 10).forEach((paragraph, index) => ...)] *)
Fixpoint paragraphSections (index : nat) (paragraphs : list string) : list string :=
  match paragraphs with
  | [] => []
  | paragraph :: rest =>
      let cleanParagraph := trim paragraph in
      (if (100 <? strlen cleanParagraph)%Z
       then ["Section " +:+ of_index (index + 1) +:+ ": " +:+ substring0 1000 cleanParagraph]
       else [])
      ++ paragraphSections (S index) rest
  end.

(** [chunks.slice(0, 5).forEach((chunk, index) => ...)] *)
Fixpoint chunkSections (index : nat) (chunks : list string) : list string :=
  match chunks with
  | [] => []
  | chunk :: rest =>
      ("Content Part " +:+ of_index (index + 1) +:+ ": " +:+ trim chunk)
      :: chunkSections (S index) rest
  end.

(** Does the text hold a code unit that [.] matches? *)
Fixpoint has_inline_character (s : string) : bool :=
  match s with
  | EmptyString => false
  | String c t => negb (is_line_terminator c) || has_inline_character t
  end.

(** The sections found by the header split or, failing that, the paragraph split. *)
Definition labelledSections (text : string) : list string :=
  let parts := split sectionDelimiters text in
  if (1 <? length parts)%nat then structuredSections (tl parts)
  else
    let paragraphs :=
      List.filter (fun p => (100 <? strlen (trim p))%Z)
                  (split (seq [chr newline; star space; chr newline]) text) in  (* /\n\s*\n/ *)
    paragraphSections 0 (firstn 10 paragraphs).

Definition extractRelevantSections (text : string) : list string :=
  let sections := labelledSections text in
  if (length sections =? 0)%nat then
    let chunks := matchAll (Rep true 1 (Some 1000) dot) text in          (* /.{1,1000}/g *)
    sections ++ chunkSections 0 (firstn 5 chunks)
  else sections.

(** *** [calculateAdvancedRelevance] *)

Definition queryWords (query : string) : list string :=
  List.filter (fun w => (2 <? strlen w)%Z)
              (split (plus space) (toLowerCase query)).

Definition textWords (text : string) : list string := split (plus space) (toLowerCase text).

(** One round of [queryWords.forEach]. *)
Definition scoreWord (query text : string) (score : float) (queryWord : string) : float :=
  let exactWordMatches := length (List.filter (fun word => String.eqb word queryWord) (textWords text)) in
  let score := (score + JsNumber.of_nat exactWordMatches * 2)%float in
  let partialWordMatches :=
    length (List.filter (fun word => includes word queryWord && negb (String.eqb word queryWord))
                        (textWords text)) in
  let score := (score + JsNumber.of_nat partialWordMatches * 0.5)%float in
  if includes (toLowerCase text) (toLowerCase query) then (score + 3)%float else score.

(** The value of [score] after the loop. *)
Definition rawScore (query text : string) : float :=
  fold_left (scoreWord query text) (queryWords query) 0%float.

Definition calculateAdvancedRelevance (query text : string) : float :=
  let textLength := length (textWords text) in
  if (length (queryWords query) =? 0)%nat || (textLength =? 0)%nat then 0%float
  else
    let score := rawScore query text in
    let normalizedScore :=
      (score / (JsNumber.of_nat textLength * 0.01 + JsNumber.of_nat (length (queryWords query))))%float in
    let lengthPenalty := JsNumber.Math_min 1%float (1000 / JsNumber.of_nat textLength)%float in
    JsNumber.Math_min 1%float (normalizedScore * lengthPenalty)%float.

(** The raw score as the specification words it: 2 per exact token match,
    0.5 per partial token match, and one bonus of 3 for the whole phrase. *)
Definition specifiedRawScore (query text : string) : float :=
  let perWord :=
    fold_left (fun score queryWord =>
                 let exact := length (List.filter (fun word => String.eqb word queryWord)
                                                  (textWords text)) in
                 let partial_ :=
                   length (List.filter (fun word => includes word queryWord
                                                    && negb (String.eqb word queryWord))
                                       (textWords text)) in
                 (score + JsNumber.of_nat exact * 2 + JsNumber.of_nat partial_ * 0.5)%float)
              (queryWords query) 0%float in
  if includes (toLowerCase text) (toLowerCase query) then (perWord + 3)%float else perWord.

(** *** [processPDFContent]; the result is the [sourcePaper] object as the
    call leaves it: its sections are filled in place when it had none. *)
Definition processPDFContent (sourcePaper : Store.SourcePaper) : Store.Js Store.SourcePaper :=
  if (strlen (Store.sp_extractedText sourcePaper) <? 10)%Z then Store.ret sourcePaper
  else
    let processedText := preprocessTextForSearch (Store.sp_extractedText sourcePaper) in
    let sourcePaper :=
      if (length (Store.sp_relevantSections sourcePaper) =? 0)%nat then
        {| Store.sp_id := Store.sp_id sourcePaper;
           Store.sp_title := Store.sp_title sourcePaper;
           Store.sp_authors := Store.sp_authors sourcePaper;
           Store.sp_url := Store.sp_url sourcePaper;
           Store.sp_extractedText := Store.sp_extractedText sourcePaper;
           Store.sp_relevantSections := extractRelevantSections processedText;
           Store.sp_citationStyle := Store.sp_citationStyle sourcePaper |}
      else sourcePaper in
    let enhancedSourcePaper :=
      {| Store.sp_id := Store.sp_id sourcePaper;
         Store.sp_title := Store.sp_title sourcePaper;
         Store.sp_authors := Store.sp_authors sourcePaper;
         Store.sp_url := Store.sp_url sourcePaper;
         Store.sp_extractedText := processedText;
         Store.sp_relevantSections := Store.sp_relevantSections sourcePaper;
         Store.sp_citationStyle := Store.sp_citationStyle sourcePaper |} in
    Store.bind (fun _ => Store.ret sourcePaper) (Store.addPaper enhancedSourcePaper).

(** *** [extractRelevantExcerpt] *)

(** [array.indexOf(x)] *)
Fixpoint indexOf (l : list string) (x : string) : Z :=
  match l with
  | [] => (-1)%Z
  | y :: l' =>
      if String.eqb y x then 0%Z
      else let i := indexOf l' x in if (i <? 0)%Z then (-1)%Z else (i + 1)%Z
  end.

(** [array.slice(from, to)] for [0 <= from] and [0 <= to <= array.length]. *)
Definition slice {A} (from to : Z) (l : list A) : list A :=
  firstn (Z.to_nat (to - from)) (skipn (Z.to_nat from) l).

Definition extractRelevantExcerpt (query text : string) (maxLength : Z) : string :=
  let queryWords := split (plus space) (toLowerCase query) in
  let sentences :=
    List.filter (fun s => (10 <? strlen (trim s))%Z)
                (split (plus (Chr (one_of ".!?"))) text) in             (* /[.!?]+/ *)
  let relevantSentences :=
    List.filter (fun sentence =>
                   existsb (fun word => includes (toLowerCase sentence) word) queryWords)
                sentences in
  match relevantSentences with
  | [] => substring0 maxLength text +:+ "..."
  | bestSentence :: _ =>
      let bestIndex := indexOf sentences bestSentence in
      let contextSentences :=
        slice (Z.max 0 (bestIndex - 1))
              (Z.min (Z.of_nat (length sentences)) (bestIndex + 3)) sentences in
      let excerpt := trim (JsString.join ". " contextSentences) in
      if (maxLength <? strlen excerpt)%Z then substring0 maxLength excerpt +:+ "..."
      else excerpt
  end.

End Rag.

(** ** Text extraction in the edge function ([download_pdf]) *)

Module Pdf.
Import JsString Regex.

Definition double_quote : ascii := "034"%char.

(** [new TextDecoder('latin1').decode(uint8Array)]: one code unit per byte. *)
Definition decode (buffer : list Byte.byte) : string := string_of_list_byte buffer.

(** [extractedText] and [extractionMethods]. *)
Record Extraction := {
  extractedText : string;
  extractionMethods : list string }.

Definition append_text (e : Extraction) (text : string) : Extraction :=
  {| extractedText := extractedText e +:+ text; extractionMethods := extractionMethods e |}.
Definition push_method (e : Extraction) (method : string) : Extraction :=
  {| extractedText := extractedText e; extractionMethods := extractionMethods e ++ [method] |}.

(** *** Method 1: stream sections *)

(** [/stream[\s\S]*?endstream/g] *)
Definition streamPattern : regex := seq [lit "stream"; lazy_star any; lit "endstream"].

Definition readableStream (stream : string) : string :=
  let content :=
    replaceFirst (seq [star space; lit "endstream"; Eol]) nothing      (* /\s*endstream$/ *)
      (replaceFirst (seq [Bol; lit "stream"; star space]) nothing      (* /^stream\s*/ *)
         stream) in
  trim (replaceAll (plus space) blank                                  (* /\s+/g *)
          (* /[^\x20-\x7E\n\r\t]/g *)
          (replaceAll (Chr (fun c => negb (is_printable c || is_line_terminator c
                                           || (code c =? 9)%nat))) blank content)).

Definition acceptStream (e : Extraction) (stream : string) : Extraction :=
  let readable := readableStream stream in
  if (20 <? strlen readable)%Z then append_text e (readable +:+ " ") else e.

Definition streamExtraction (pdfText : string) (e : Extraction) : Extraction :=
  match matchAll streamPattern pdfText with
  | [] => e
  | streamMatches => fold_left acceptStream streamMatches (push_method e "stream_extraction")
  end.

(** *** Method 2: text objects ([Tj] operators) *)

(** [/\([^)]+\)\s*Tj/g] *)
Definition textObjectPattern : regex :=
  seq [chr "("; plus (none_of ")"); chr ")"; star space; lit "Tj"].

(** [textObj.match(/\(([^)]+)\)/)?.[1]] *)
Definition textOfObject (textObj : string) : option string :=
  match search (seq [chr "("; Grp 1 (plus (none_of ")")); chr ")"]) None textObj [] with
  | Some (_, y) => Some (group 1 (captures y))
  | None => None
  end.

Definition acceptTextObject (e : Extraction) (textObj : string) : Extraction :=
  match textOfObject textObj with
  | Some text => if (2 <? strlen text)%Z then append_text e (text +:+ " ") else e
  | None => e
  end.

Definition textObjects (pdfText : string) (e : Extraction) : Extraction :=
  match matchAll textObjectPattern pdfText with
  | [] => e
  | objects => fold_left acceptTextObject objects (push_method e "text_objects")
  end.

(** *** Method 3: text blocks ([BT ... ET]) *)

(** [/BT[\s\S]*?ET/g] *)
Definition textBlockPattern : regex := seq [lit "BT"; lazy_star any; lit "ET"].

Definition acceptWord (e : Extraction) (word : string) : Extraction :=
  let cleanWord := trim (replaceAll (Chr (one_of "()")) nothing word) in   (* /[()]/g *)
  if (1 <? strlen cleanWord)%Z && test (Chr is_alpha) cleanWord
  then append_text e (cleanWord +:+ " ") else e.

Definition acceptBlock (e : Extraction) (block : string) : Extraction :=
  let content :=
    replaceFirst (seq [star space; lit "ET"; Eol]) nothing             (* /\s*ET$/ *)
      (replaceFirst (seq [Bol; lit "BT"; star space]) nothing block) in (* /^BT\s*/ *)
  (* /\([^)]+\)/g *)
  fold_left acceptWord (matchAll (seq [chr "("; plus (none_of ")"); chr ")"]) content) e.

Definition textBlocks (pdfText : string) (e : Extraction) : Extraction :=
  match matchAll textBlockPattern pdfText with
  | [] => e
  | blocks => fold_left acceptBlock blocks (push_method e "text_blocks")
  end.

(** The text one round of each loop appends. *)
Definition streamText (stream : string) : string :=
  if (20 <? strlen (readableStream stream))%Z then readableStream stream +:+ " " else "".

Definition objectText (textObj : string) : string :=
  match textOfObject textObj with
  | Some text => if (2 <? strlen text)%Z then text +:+ " " else ""
  | None => ""
  end.

Definition wordText (word : string) : string :=
  let cleanWord := trim (replaceAll (Chr (one_of "()")) nothing word) in
  if (1 <? strlen cleanWord)%Z && test (Chr is_alpha) cleanWord then cleanWord +:+ " " else "".

Definition blockText (block : string) : string :=
  extractedText (acceptBlock {| extractedText := ""; extractionMethods := [] |} block).

(** The state after methods 1 to 3. *)
Definition structuralExtraction (buffer : list Byte.byte) : Extraction :=
  let pdfText := decode buffer in
  textBlocks pdfText
    (textObjects pdfText
       (streamExtraction pdfText {| extractedText := ""; extractionMethods := [] |})).

(** *** Method 4: the ASCII fallback *)

Definition fallbackByte (fallbackText : string) (char : Byte.byte) : string :=
  let n := Byte.to_nat char in
  if (32 <=? n)%nat && (n <=? 126)%nat
  then fallbackText +:+ String (ascii_of_byte char) EmptyString
  else if ((n =? 10)%nat || (n =? 13)%nat) && (0 <? strlen fallbackText)%Z
       then fallbackText +:+ " "
       else fallbackText.

(** [for (let i = 0; i < uint8Array.length - 1; i++)] *)
Definition asciiFallback (buffer : list Byte.byte) : string :=
  fold_left fallbackByte (firstn (length buffer - 1) buffer) "".

Definition extract (buffer : list Byte.byte) : Extraction :=
  let e := structuralExtraction buffer in
  if (strlen (extractedText e) <? 100)%Z then
    {| extractedText := asciiFallback buffer;
       extractionMethods := extractionMethods e ++ ["ascii_fallback"] |}
  else e.

(** The fallback as the specification words it: every byte of the buffer is
    scanned. *)
Definition specifiedAsciiFallback (buffer : list Byte.byte) : string :=
  fold_left fallbackByte buffer "".

(** The methods whose pattern matches somewhere in the buffer. *)
Definition tag_if_matched (pattern : regex) (pdfText tag : string) : list string :=
  match matchAll pattern pdfText with
  | [] => []
  | _ :: _ => [tag]
  end.

Definition matchedMethods (buffer : list Byte.byte) : list string :=
  let pdfText := decode buffer in
  (tag_if_matched streamPattern pdfText "stream_extraction"
   ++ tag_if_matched textObjectPattern pdfText "text_objects"
   ++ tag_if_matched textBlockPattern pdfText "text_blocks")%list.

(** The text a method appends, and the methods that appended some. *)
Definition noExtraction : Extraction := {| extractedText := ""; extractionMethods := [] |}.

Definition contribution (method : string -> Extraction -> Extraction) (pdfText : string) : string :=
  extractedText (method pdfText noExtraction).

Definition tag_if_contributed (method : string -> Extraction -> Extraction)
           (pdfText tag : string) : list string :=
  match contribution method pdfText with
  | EmptyString => []
  | String _ _ => [tag]
  end.

Definition contributors (buffer : list Byte.byte) : list string :=
  let pdfText := decode buffer in
  (tag_if_contributed streamExtraction pdfText "stream_extraction"
   ++ tag_if_contributed textObjects pdfText "text_objects"
   ++ tag_if_contributed textBlocks pdfText "text_blocks")%list.

(** "When methods 1 to 3 deliver 100 characters or more, [extractionMethods]
    records exactly the strategies that contributed text." *)
Definition records_exactly_the_contributors (buffer : list Byte.byte) : Prop :=
  (100 <= strlen (extractedText (structuralExtraction buffer)))%Z ->
  extractionMethods (extract buffer) = contributors buffer.

(** *** Cleaning, sentences and sections *)

Definition backslash (letter : string) : regex := lit ("\" +:+ letter).

(** The characters kept by the last replacement: the class lists [\w], [\s],
    the signs [.,;:!?()-] and the two quotation marks. *)
Definition is_kept (c : ascii) : bool :=
  is_word c || is_space c || one_of (String double_quote ".,;:!?()-'") c.

Definition cleanExtractedText (extractedText : string) : string :=
  let t := replaceAll (backslash "n") blank extractedText in   (* /\\n/g *)
  let t := replaceAll (backslash "r") blank t in               (* /\\r/g *)
  let t := replaceAll (backslash "t") blank t in               (* /\\t/g *)
  let t := replaceAll (plus space) blank t in                  (* /\s+/g *)
  let t := replaceAll (Chr (fun c => negb (is_kept c))) blank t in
  trim t.

Definition sentencesOf (extractedText : string) : list string :=
  map (fun s => s +:+ ".")
      (List.filter (fun s => (10 <? strlen s)%Z && test (Chr is_alpha) s)
                   (map trim (split (plus (Chr (one_of ".!?"))) extractedText))).  (* /[.!?]+/ *)

(** The loop that packs sentences into sections of about 800 characters. *)
Fixpoint packSentences (sentences : list string) (currentSection : string) (sections : list string)
  : list string :=
  match sentences with
  | [] =>
      if (0 <? strlen (trim currentSection))%Z
      then sections ++ [trim currentSection] else sections
  | sentence :: rest =>
      if (800 <? strlen currentSection + strlen sentence)%Z then
        packSentences rest (sentence +:+ " ")
          (if (0 <? strlen (trim currentSection))%Z
           then sections ++ [trim currentSection] else sections)
      else packSentences rest (currentSection +:+ sentence +:+ " ") sections
  end.

Definition sectionsOf (sentences : list string) (cleanedText : string) : list string :=
  if (500 <? strlen cleanedText)%Z then packSentences sentences "" []
  else [cleanedText].

Definition truncationMarker : string := "... [Content truncated]".

Definition placeholder (file_id : string) : string :=
  "PDF document content extracted from file " +:+ file_id +:+
  ". The document may contain complex formatting or embedded images that require alternative processing methods for optimal text extraction.".

Definition truncated (cleanedText : string) : string :=
  if (8000 <? strlen cleanedText)%Z
  then substring0 8000 cleanedText +:+ truncationMarker
  else cleanedText.

(** [finalText] as returned in the response. *)
Definition finalTextOf (cleanedText file_id : string) : string :=
  let finalText := truncated cleanedText in
  if (strlen finalText <? 50)%Z then placeholder file_id else finalText.

(** The cap of the specification: 8000 characters plus the marker. *)
Definition within_cap (finalText : string) : Prop :=
  (strlen finalText <= 8000 + strlen truncationMarker)%Z.

(** The JSON body of a successful response. *)
Record Response := {
  r_content : string;
  r_sections : list string;
  r_originalSize : nat;
  r_extractedLength : Z;
  r_sectionCount : nat;
  r_extractionMethods : list string }.

Definition cleanedTextOf (buffer : list Byte.byte) : string :=
  JsString.join " " (sentencesOf (cleanExtractedText (extractedText (extract buffer)))).

(** The body of the successful response, built from the bytes of the file
    (the code from [const uint8Array = new Uint8Array(pdfBuffer)] on). *)
Definition extractionResponse (buffer : list Byte.byte) (file_id : string) : Response :=
  let e := extract buffer in
  let sentences := sentencesOf (cleanExtractedText (extractedText e)) in
  let cleanedText := JsString.join " " sentences in
  let sections := sectionsOf sentences cleanedText in
  let finalText := finalTextOf cleanedText file_id in
  let sections :=
    if (strlen (truncated cleanedText) <? 50)%Z then (sections ++ [finalText])%list else sections in
  {| r_content := finalText;
     r_sections := firstn 5 sections;
     r_originalSize := length buffer;
     r_extractedLength := strlen finalText;
     r_sectionCount := length sections;
     r_extractionMethods := extractionMethods e |}.

(** The reply of the endpoint: the body of an error with its HTTP status, or
    the body of a successful response. *)
Inductive Reply :=
| Failure (status : nat) (error : string)
| Success (response : Response).

(** The [download_pdf] branch from the downloaded [buffer] on: a file of no
    byte is refused, any other is extracted. *)
Definition download_pdf (buffer : list Byte.byte) (file_id : string) : Reply :=
  if (length buffer =? 0)%nat
  then Failure 400 "PDF file is empty or could not be downloaded"
  else Success (extractionResponse buffer file_id).

(** The four method tags, in the order the extractor tries the methods. *)
Definition methodTags : list string :=
  ["stream_extraction"; "text_objects"; "text_blocks"; "ascii_fallback"].

(** The code units [/\s+/g] leaves: no white space but the blank. *)
Definition is_tidy (c : ascii) : bool := negb (is_space c) || Ascii.eqb c " ".

(** The code units the cleaning of the edge function lets through: word
    characters, the blank and the listed signs. *)
Definition is_clean (c : ascii) : bool := is_kept c && is_tidy c.

End Pdf.

(** ** The normalization pipeline of the specification: the cleaning of the
    edge function followed by the preprocessing of the retrieval service. *)

Definition normalize (s : string) : string :=
  Rag.preprocessTextForSearch (Pdf.cleanExtractedText s).

(** ** The client ([Hypotheses.tsx], [globalDataManager.ts]) *)

Module Client.
Import JsString Regex.

(** [addSourcePaper] of the global data manager, as far as the research data
    store is concerned. *)
Definition addSourcePaper (paper : Store.SourcePaper) : Store.Js unit := Store.addPaper paper.

(** The quality check on the content of a response. *)
Definition wordCount (content : string) : nat :=
  length (List.filter (fun w => (0 <? strlen w)%Z) (split (plus space) content)).   (* /\s+/ *)

Definition hasMinimalContent (content : string) : bool :=
  (20 <? strlen content)%Z && test (Chr is_alpha) content && (5 <? wordCount content)%nat.

(** [`${n}`] for a count. *)
Definition decimal (n : nat) : string := DecimalString.NilZero.string_of_uint (Nat.to_uint n).

Definition insufficientQuality (content : string) : string :=
  "Insufficient content quality: " +:+ decimal (String.length content) +:+ " chars, "
  +:+ decimal (wordCount content) +:+ " words".

(** The paragraphs of the content, used when the response has no section:
    [content.split('\n\n').filter(section => section.length > 50).slice(0, 5)]. *)
Definition paragraphsOf (content : string) : list string :=
  firstn 5 (List.filter (fun section => (50 <? strlen section)%Z)
                        (split (lit (String Rag.newline (String Rag.newline ""))) content)).

(** The source paper built for the file [pdf] of the drive from the response. *)
Definition sourcePaperOf (pdf_id pdf_name : string) (data : Pdf.Response) : Store.SourcePaper :=
  {| Store.sp_id := pdf_id;
     Store.sp_title := replaceFirst (lit ".pdf") nothing pdf_name;
     Store.sp_authors := ["Google Drive PDF"];
     Store.sp_url := "https://drive.google.com/file/d/" +:+ pdf_id +:+ "/view";
     Store.sp_extractedText := Pdf.r_content data;
     Store.sp_relevantSections :=
       if (0 <? length (Pdf.r_sections data))%nat then Pdf.r_sections data
       else paragraphsOf (Pdf.r_content data);
     Store.sp_citationStyle :=
       replaceFirst (lit ".pdf") nothing pdf_name +:+ " (Google Drive PDF)" |}.

(** What [processPDFsFromDrive] does with one successful response: the
    checks, the processing by the retrieval service, the registration. *)
Definition storeDownloaded (pdf_id pdf_name : string) (data : Pdf.Response) : Store.Js unit :=
  if (0 <? strlen (Pdf.r_content data))%Z then
    if negb (hasMinimalContent (Pdf.r_content data))
    then Store.throw (insufficientQuality (Pdf.r_content data))
    else
      Store.bind addSourcePaper (Rag.processPDFContent (sourcePaperOf pdf_id pdf_name data))
  else Store.throw "No content extracted: Unknown extraction error".

End Client.

(** ** Concrete data used by the scenarios *)

Module Scenario.
Import Store.

Definition paper (id title text : string) (sections : list string) : SourcePaper :=
  {| sp_id := id; sp_title := title; sp_authors := ["Google Drive PDF"];
     sp_url := "https://drive.google.com/file/d/" +:+ id +:+ "/view";
     sp_extractedText := text; sp_relevantSections := sections;
     sp_citationStyle := title +:+ " (Google Drive PDF)" |}.

Definition hypothesis (id title : string) (sources : list SourcePaper) : HypothesisWithSources :=
  {| h_id := id; h_title := title; h_description := title; h_status := draft;
     h_confidence := 50%float; h_sourcePapers := sources; h_extractedEvidence := [];
     h_tags := []; h_createdAt := "2024-01-01T00:00:00.000Z";
     h_updatedAt := "2024-01-01T00:00:00.000Z"; h_knowledgeGraphNodeId := None |}.

Definition paperA : SourcePaper :=
  paper "a" "Gene expression atlas" "gene expression in tissue" ["gene expression in tissue"].
Definition paperGhost : SourcePaper := paper "ghost" "Never added" "" [].

(** Scenario C: two papers that share words with the hypothesis and one that
    shares none. *)
Definition paperB : SourcePaper :=
  paper "b" "Phenotype drivers" "What drives a phenotype" ["What drives a phenotype"].

(** A hypothesis and a paper that share their words but not their case. *)
Definition hypothesisTextCase : string := "GENE expression".
Definition paperCase : SourcePaper :=
  paper "k" "Atlas" "gene EXPRESSION atlas" ["gene EXPRESSION atlas"].

(** Scenario D. *)
Definition queryD : string := "BRCA1 mutation".
Definition textD : string := "A BRCA1 mutation raises the risk".

(** Scenario E: one stored paper, and a hypothesis that also names a paper
    that was never added. *)
Definition storeE : ResearchDataStore := fst (addPaper paperA emptyStore).
Definition hypothesisE : HypothesisWithSources := hypothesis "h1" "H" [paperA; paperGhost].

(** A paper is ingested, a hypothesis is derived from it, and the same paper
    is ingested again. *)
Definition hypothesisA : HypothesisWithSources := hypothesis "h1" "H" [paperA].
Definition ingestAndLink : list operation := [AddPaper paperA; AddHypothesis hypothesisA].
Definition ingestAgain : list operation := [AddPaper paperA].
(** Work goes on with another paper and another hypothesis. *)
Definition carryOn : list operation :=
  [AddPaper paperB;
   AddHypothesis (hypothesis "h2" "H2" [paperA; paperB]);
   UpdateHypothesisStatus "h1" validated "2024-02-02T00:00:00.000Z"].

(** A word, a number and a word run together, as raw extraction leaves them. *)
Definition runTogether : string := "covid19pandemic data".

(** Buffers for the extractor. *)
Definition bufferAB : list Byte.byte := list_byte_of_string "AB".

(** A file that ends with its end-of-file marker, without a final line break. *)
Definition bufferTrailer : list Byte.byte := list_byte_of_string "%PDF-1.4 %%EOF".

Definition hundred : string := string_of_list_ascii (repeat "a"%char 100).

(** A stream too short to be accepted, and one long text object. *)
Definition bufferShortStream : list Byte.byte :=
  list_byte_of_string ("stream x endstream (" +:+ hundred +:+ ") Tj").

Definition longFileId : string := string_of_list_ascii (repeat "x"%char (Z.to_nat 7846)).

Definition lineFeed : string := String Rag.newline EmptyString.

End Scenario.

(** * Properties *)

(** ** Numbers *)

Module NumberFacts.
Import JsNumber.

(** Rounding a magnitude with a clear sign bit leaves the sign bit clear. *)
Lemma binary_round_aux_sign m e l : sign_clear_sf (binary_round_aux prec emax false m e l).
Proof.
  unfold binary_round_aux.
  destruct (shr_fexp prec emax m e l) as [mrs' e'].
  destruct (shr_fexp prec emax _ e' loc_Exact) as [mrs'' e''].
  destruct (shr_m mrs''); simpl; auto.
  destruct (Z.leb _ _); simpl; auto.
Qed.

Lemma binary_round_sign m e : sign_clear_sf (binary_round prec emax false m e).
Proof.
  unfold binary_round. destruct (shl_align _ _ _) as [mz ez]. apply binary_round_aux_sign.
Qed.

(** Sums and quotients of values with a clear sign bit have a clear sign
    bit; so has every length. *)
Lemma add_sign_clear x y : sign_clear x -> sign_clear y -> sign_clear (x + y).
Proof.
  unfold sign_clear. rewrite add_spec. unfold SF64add, SFadd.
  destruct (Prim2SF x) as [sx|sx| |sx mx ex], (Prim2SF y) as [sy|sy| |sy my ey];
    simpl; intros Hx Hy; subst; simpl; auto.
  unfold binary_normalize. simpl. apply binary_round_sign.
Qed.

Lemma div_sign_clear x y : sign_clear x -> sign_clear y -> sign_clear (x / y).
Proof.
  unfold sign_clear. rewrite div_spec. unfold SF64div, SFdiv.
  destruct (Prim2SF x) as [sx|sx| |sx mx ex], (Prim2SF y) as [sy|sy| |sy my ey];
    simpl; intros Hx Hy; subst; simpl; auto.
  destruct (SFdiv_core_binary _ _ _ _ _ _) as [[mz ez] lz].
  apply binary_round_aux_sign.
Qed.

Lemma of_uint63_sign_clear n : sign_clear (of_uint63 n).
Proof.
  unfold sign_clear. rewrite of_uint63_spec. unfold binary_normalize.
  pose proof (to_Z_bounded n) as Hb.
  destruct (to_Z n); simpl; auto.
  - apply binary_round_sign.
  - lia.
Qed.









Lemma of_nat_sign_clear n : sign_clear (of_nat n).
Proof. apply of_uint63_sign_clear. Qed.

(** *** Order and the smaller of two numbers *)

Lemma mul_sign_clear x y : sign_clear x -> sign_clear y -> sign_clear (x * y).
Proof.
  unfold sign_clear. rewrite mul_spec. unfold SF64mul, SFmul.
  destruct (Prim2SF x) as [sx|sx| |sx mx ex], (Prim2SF y) as [sy|sy| |sy my ey];
    simpl; intros Hx Hy; subst; simpl; auto.
  apply binary_round_aux_sign.
Qed.

Lemma SFcompare_antisym x y : SFcompare y x = option_map CompOpp (SFcompare x y).
Proof.
  destruct x as [sx|sx| |sx mx ex], y as [sy|sy| |sy my ey]; simpl; try done;
    try (by destruct sx); try (by destruct sy); try (by destruct sx, sy).
  change IntDef.Z.compare with Z.compare. change PosDef.Pos.compare_cont with Pos.compare_cont.
  rewrite (Z.compare_antisym ex ey).
  pose proof (Pos.compare_cont_antisym mx my Eq) as Hm. cbn [CompOpp] in Hm.
  rewrite <- Hm.
  destruct sx, sy; try done; by destruct (ex ?= ey)%Z.
Qed.

Lemma SFcompare_defined x y :
  x <> S754_nan -> y <> S754_nan -> exists c, SFcompare x y = Some c.
Proof. destruct x, y; simpl; intros Hx Hy; try done; eauto. Qed.

Lemma not_nan x : PrimFloat.is_nan x = false -> Prim2SF x <> S754_nan.
Proof.
  unfold PrimFloat.is_nan. rewrite FloatAxioms.eqb_spec. intros H Hnan.
  rewrite Hnan in H. discriminate.
Qed.

Lemma nan_sign_clear x : PrimFloat.is_nan x = true -> sign_clear x.
Proof. intros H. unfold sign_clear, Prim2SF. by rewrite H. Qed.

Lemma ltb_leb x y : PrimFloat.ltb x y = true -> PrimFloat.leb x y = true.
Proof.
  rewrite ltb_spec, leb_spec. unfold SFltb, SFleb.
  by destruct (SFcompare _ _) as [[]|].
Qed.

Lemma not_ltb_leb x y :
  PrimFloat.is_nan x = false -> PrimFloat.is_nan y = false ->
  PrimFloat.ltb y x = false -> PrimFloat.leb x y = true.
Proof.
  intros Hx%not_nan Hy%not_nan. rewrite ltb_spec, leb_spec. unfold SFltb, SFleb.
  rewrite (SFcompare_antisym (Prim2SF x) (Prim2SF y)).
  destruct (SFcompare_defined _ _ Hx Hy) as [c ->]. by destruct c.
Qed.

Lemma leb_refl x : PrimFloat.is_nan x = false -> PrimFloat.leb x x = true.
Proof.
  intros Hx. apply not_ltb_leb; [done | done |].
  pose proof (not_nan x Hx) as Hn. rewrite ltb_spec. unfold SFltb.
  pose proof (SFcompare_antisym (Prim2SF x) (Prim2SF x)) as H.
  destruct (SFcompare (Prim2SF x) (Prim2SF x)) as [[]|]; done.
Qed.

Lemma leb_zero x : sign_clear x -> PrimFloat.is_nan x = false -> PrimFloat.leb 0 x = true.
Proof.
  intros Hs Hx%not_nan. rewrite leb_spec. change (Prim2SF 0) with (S754_zero false).
  unfold sign_clear in Hs. unfold SFleb.
  destruct (Prim2SF x) as [s|s| |s m e]; simpl in *; subst; done.
Qed.

(** [Math.min] returns NaN or one of its arguments, the other one being no
    smaller. *)
Lemma Math_min_range x y :
  PrimFloat.is_nan (Math_min x y) = true \/
  (PrimFloat.is_nan (Math_min x y) = false /\
   PrimFloat.leb (Math_min x y) x = true /\ PrimFloat.leb (Math_min x y) y = true /\
   (Math_min x y = x \/ Math_min x y = y)).
Proof.
  unfold Math_min.
  destruct (PrimFloat.is_nan x) eqn:Hx; [by left|].
  destruct (PrimFloat.is_nan y) eqn:Hy; [by left|]. cbn [orb]. right.
  destruct (PrimFloat.ltb x y) eqn:Hxy.
  - split; [done|]. split; [by apply leb_refl|]. split; [by apply ltb_leb | by left].
  - destruct (PrimFloat.ltb y x) eqn:Hyx.
    + split; [done|]. split; [by apply ltb_leb|]. split; [by apply leb_refl | by right].
    + destruct (PrimFloat.Leibniz.eqb x PrimFloat.neg_zero).
      * split; [done|]. split; [by apply leb_refl|]. split; [by apply not_ltb_leb | by left].
      * split; [done|]. split; [by apply not_ltb_leb|]. split; [by apply leb_refl | by right].
Qed.

Lemma Math_min_sign_clear x y : sign_clear x -> sign_clear y -> sign_clear (Math_min x y).
Proof.
  intros Hx Hy. destruct (Math_min_range x y) as [Hnan|(_ & _ & _ & [-> | ->])];
    [by apply nan_sign_clear | done | done].
Qed.

(** Between 0 and a bound, unless NaN. *)
Lemma Math_min_bounded x y :
  sign_clear x -> sign_clear y ->
  PrimFloat.is_nan (Math_min x y) = true \/
  (PrimFloat.leb 0 (Math_min x y) = true /\
   PrimFloat.leb (Math_min x y) x = true /\ PrimFloat.leb (Math_min x y) y = true).
Proof.
  intros Hx Hy. pose proof (Math_min_sign_clear x y Hx Hy) as Hs.
  destruct (Math_min_range x y) as [Hnan|(Hnan & Hlx & Hly & _)]; [by left|].
  right. split; [by apply leb_zero | done].
Qed.










End NumberFacts.

(** ** Strings *)

Module StringFacts.
Import JsString.

Lemma app_cons (c : ascii) (s1 s2 : string) : String c s1 +:+ s2 = String c (s1 +:+ s2).
Proof. reflexivity. Qed.


Lemma app_nil_r (s : string) : s +:+ "" = s.
Proof. induction s as [|c s IH]; [done|]. by rewrite app_cons, IH. Qed.

Lemma app_assoc (s1 s2 s3 : string) : (s1 +:+ s2) +:+ s3 = s1 +:+ (s2 +:+ s3).
Proof. induction s1 as [|c s1 IH]; [done|]. by rewrite !app_cons, IH. Qed.

Lemma length_app (s1 s2 : string) :
  String.length (s1 +:+ s2) = (String.length s1 + String.length s2)%nat.
Proof. induction s1 as [|c s1 IH]; [done|]. rewrite app_cons. cbn. by rewrite IH. Qed.

Lemma strlen_app (s1 s2 : string) : strlen (s1 +:+ s2) = (strlen s1 + strlen s2)%Z.
Proof. unfold strlen. rewrite length_app. lia. Qed.

Lemma strlen_nonneg (s : string) : (0 <= strlen s)%Z.
Proof. unfold strlen. lia. Qed.

Lemma length_substring0 (n : nat) (s : string) :
  String.length (String.substring 0 n s) = Nat.min n (String.length s).
Proof.
  revert n. induction s as [|c s IH]; intros [|n]; cbn; try done.
  by rewrite IH.
Qed.

Lemma strlen_substring0 (n : Z) (s : string) :
  (0 <= n)%Z -> strlen (substring0 n s) = Z.min n (strlen s).
Proof. intros Hn. unfold strlen, substring0. rewrite length_substring0. lia. Qed.

Lemma has_nonspace_app (s1 s2 : string) :
  has_nonspace (s1 +:+ s2) = has_nonspace s1 || has_nonspace s2.
Proof.
  induction s1 as [|c s1 IH]; [done|].
  rewrite app_cons. cbn [has_nonspace]. by rewrite IH, orb_assoc.
Qed.

Lemma trimStart_has_nonspace (s : string) :
  has_nonspace s = true -> has_nonspace (trimStart s) = true.
Proof.
  induction s as [|c s IH]; [done|]. cbn [has_nonspace trimStart].
  destruct (is_space c) eqn:Hc; cbn [negb orb]; [exact IH|].
  intros _. cbn [has_nonspace]. by rewrite Hc.
Qed.

Lemma trimEnd_nonempty (s : string) : has_nonspace s = true -> trimEnd s <> "".
Proof.
  induction s as [|c s IH]; [done|]. cbn [has_nonspace trimEnd].
  destruct (is_space c); cbn [negb orb].
  - intros Hs. specialize (IH Hs). destruct (trimEnd s); [by destruct IH | discriminate].
  - intros _. destruct (trimEnd s); discriminate.
Qed.

(** Trimming leaves something of a string that is not all white space. *)
Lemma trim_nonempty (s : string) : has_nonspace s = true -> (0 < strlen (trim s))%Z.
Proof.
  intros Hs. unfold trim.
  pose proof (trimEnd_nonempty _ (trimStart_has_nonspace s Hs)) as Hne.
  destruct (trimEnd (trimStart s)); [done|]. unfold strlen. cbn. lia.
Qed.

(** A trimmed string does not start with white space. *)
Lemma trimEnd_head (s : string) c t : trimEnd s = String c t -> exists t', s = String c t'.
Proof.
  destruct s as [|d s]; [done|]. cbn [trimEnd].
  destruct (trimEnd s); [destruct (is_space d)|]; intros [= -> _]; eauto.
Qed.

Lemma trimStart_head (s : string) c t : trimStart s = String c t -> is_space c = false.
Proof.
  induction s as [|d s IH]; [done|]. cbn [trimStart].
  destruct (is_space d) eqn:Hd; [exact IH|]. by intros [= <- _].
Qed.

Lemma trim_head (s : string) c t : trim s = String c t -> is_space c = false.
Proof.
  unfold trim. intros H. apply trimEnd_head in H as [t' H]. by apply trimStart_head in H.
Qed.

Lemma prefix_spec (needle s : string) :
  String.prefix needle s = true <-> exists rest, s = needle +:+ rest.
Proof.
  revert s. induction needle as [|c needle IH]; intros s.
  - split; [intros _; by exists s | by destruct s].
  - destruct s as [|d s]; cbn [String.prefix].
    + split; [done | intros [rest Hrest]; by rewrite app_cons in Hrest].
    + destruct (ascii_dec c d) as [->|Hne].
      * rewrite IH. split; intros [rest Hrest]; exists rest.
        -- by rewrite app_cons, Hrest.
        -- rewrite app_cons in Hrest. by injection Hrest.
      * split; [done | intros [rest Hrest]].
        rewrite app_cons in Hrest. by injection Hrest as -> _.
Qed.

(** [includes] is the substring test. *)
Lemma includes_spec (s needle : string) :
  includes s needle = true <-> exists before after, s = before +:+ needle +:+ after.
Proof.
  induction s as [|c s IH]; cbn [includes]; rewrite orb_true_iff, prefix_spec.
  - split.
    + intros [[rest Hrest]|Hf]; [|done]. by exists "", rest.
    + intros (before & after & H). left. destruct before; [by exists after|].
      by rewrite app_cons in H.
  - rewrite IH. split.
    + intros [[rest Hrest]|(before & after & H)].
      * by exists "", rest.
      * exists (String c before), after. by rewrite app_cons, H.
    + intros (before & after & H). destruct before as [|d before].
      * left. by exists after.
      * right. rewrite app_cons in H. injection H as _ H. by exists before, after.
Qed.

(** *** Strings whose code units all satisfy a predicate *)

Lemma every_app p s1 s2 : every p (s1 +:+ s2) = every p s1 && every p s2.
Proof.
  induction s1 as [|c s1 IH]; [done|].
  rewrite StringFacts.app_cons. cbn [every]. by rewrite IH, andb_assoc.
Qed.

Lemma every_impl (p q : ascii -> bool) s :
  (forall c, p c = true -> q c = true) -> every p s = true -> every q s = true.
Proof.
  intros Hpq. induction s as [|c s IH]; [done|]. cbn [every].
  rewrite !andb_true_iff. intros [Hc Hs]. auto.
Qed.

Lemma every_trimStart p s : every p s = true -> every p (trimStart s) = true.
Proof.
  induction s as [|c s IH]; [done|]. cbn [trimStart].
  destruct (is_space c); [|done]. cbn [every]. rewrite andb_true_iff. intros [_ Hs]. auto.
Qed.

Lemma every_trimEnd p s : every p s = true -> every p (trimEnd s) = true.
Proof.
  induction s as [|c s IH]; [done|]. cbn [every trimEnd].
  rewrite andb_true_iff. intros [Hc Hs]. specialize (IH Hs).
  destruct (trimEnd s) as [|d t].
  - destruct (is_space c); [done|]. cbn. by rewrite Hc.
  - change (p c && every p (String d t) = true). by rewrite Hc, IH.
Qed.

Lemma every_trim p s : every p s = true -> every p (trim s) = true.
Proof. intros Hs. by apply every_trimEnd, every_trimStart. Qed.

Lemma every_substring p s : forall from n,
  every p s = true -> every p (String.substring from n s) = true.
Proof.
  induction s as [|c s IH]; intros from n; cbn [every]; [by destruct from, n|].
  rewrite andb_true_iff. intros [Hc Hs].
  destruct from as [|from]; destruct n as [|n]; cbn [String.substring every]; auto.
  by rewrite Hc, IH.
Qed.

Lemma every_of_list p l : every p (string_of_list_ascii l) = forallb p l.
Proof. induction l as [|c l IH]; [done|]. cbn. by rewrite IH. Qed.

Lemma every_of_rev p l : forallb p l = true -> every p (of_rev l) = true.
Proof.
  intros Hl. unfold of_rev. rewrite every_of_list.
  apply forallb_forall. intros c Hc. apply in_rev in Hc.
  by apply (proj1 (forallb_forall p l) Hl).
Qed.

Lemma every_concat p sep l :
  every p sep = true -> (forall s, In s l -> every p s = true) ->
  every p (String.concat sep l) = true.
Proof.
  intros Hsep. induction l as [|s l IH]; intros Hl; [done|].
  cbn [String.concat]. destruct l as [|s' l]; [apply Hl; by left|].
  rewrite !every_app, Hsep, (Hl s) by (by left). cbn.
  apply IH. intros s0 Hs0. apply Hl. by right.
Qed.

Lemma every_true s : every (fun _ => true) s = true.
Proof. induction s as [|c s IH]; [done|]. exact IH. Qed.

End StringFacts.

(** ** Regular expressions *)

Module RegexFacts.
Import JsString Regex.

(** The matcher on small inputs, against the results of a JavaScript engine. *)

Example split_on_white_space :
  split (plus space) "gene  expression" = ["gene"; "expression"]
  /\ split (plus space) " gene" = [""; "gene"]
  /\ split (plus space) "gene " = ["gene"; ""]
  /\ split (plus space) "" = [""]
  /\ split (plus space) " " = [""; ""].
Proof. vm_compute. done. Qed.

Example split_with_capture :
  split Rag.sectionDelimiters
        ("Title" +:+ Scenario.lineFeed +:+ " ABSTRACT: text" +:+ Scenario.lineFeed +:+ "Methodsx")
  = ["Title"; "ABSTRACT"; ": text" +:+ Scenario.lineFeed +:+ "Methodsx"].
Proof. vm_compute. done. Qed.

Example split_on_empty_match : split (star (chr "x")) "abxc" = ["a"; "b"; "c"].
Proof. vm_compute. done. Qed.

Example lazy_quantifier_stops_early :
  matchAll Pdf.streamPattern "stream a endstream b endstream stream"
  = ["stream a endstream"].
Proof. vm_compute. done. Qed.

Example greedy_bounded_quantifier :
  matchAll (Rep true 1 (Some 3) dot) ("abcdefg" +:+ Scenario.lineFeed +:+ "hi")
  = ["abc"; "def"; "g"; "hi"].
Proof. vm_compute. done. Qed.

Example word_boundary_before_digits :
  replaceAll (seq [WordB; Grp 1 (plus (Chr is_digit)); Grp 2 (Chr is_alpha)])
             Rag.first_blank_second "a1b 12c"
  = "a1b 12 c".
Proof. vm_compute. done. Qed.

Example anchors :
  replaceFirst (seq [star space; lit "endstream"; Eol]) nothing
    (replaceFirst (seq [Bol; lit "stream"; star space]) nothing "stream  text  endstream")
  = "text".
Proof. vm_compute. done. Qed.

Lemma splitting_nonempty r s : forall fuel prev gap,
  (String.length s < fuel)%nat -> splitting fuel r prev s gap <> [].
Proof.
  induction s as [|c t IH]; intros fuel prev gap Hfuel;
    destruct fuel as [|fuel']; cbn in Hfuel; try lia; cbn [splitting].
  - discriminate.
  - destruct (exec r prev (String c t)) as [y|].
    + destruct (taken y), gap; try discriminate. apply IH. lia.
    + apply IH. lia.
Qed.

(** [split] by a separator that does not match the empty string yields at
    least one piece. *)
Lemma split_nonempty r s : exec r None "" = None -> split r s <> [].
Proof.
  intros Hr. unfold split. destruct s as [|c t].
  - rewrite Hr. discriminate.
  - apply splitting_nonempty. cbn. lia.
Qed.

(** *** The matcher consumes input, and its fuel is never exhausted *)

Lemma reaches_refl x : reaches x x.
Proof. unfold reaches. lia. Qed.

Lemma reaches_trans x y z : reaches x y -> reaches y z -> reaches x z.
Proof. unfold reaches. lia. Qed.

(** A successful match is the success of its continuation at a cursor
    further in the input. *)
Lemma iterate_conserves body :
  (forall x k y, body x k = Some y -> exists z, reaches x z /\ k z = Some y) ->
  forall fuel greedy k lo hi x y,
    iterate body greedy k fuel lo hi x = Some y -> exists z, reaches x z /\ k z = Some y.
Proof.
  intros Hbody. induction fuel as [|fuel IH]; intros greedy k lo hi x y; cbn [iterate]; [done|].
  assert (Hstop : k x = Some y -> exists z, reaches x z /\ k z = Some y).
  { intros Hk. exists x. split; [apply reaches_refl | done]. }
  assert (Honce : forall lo' hi',
             body x (fun y0 =>
               if (lo =? 0)%nat && (length (taken y0) =? length (taken x))%nat then None
               else iterate body greedy k fuel lo' hi' y0) = Some y ->
             exists z, reaches x z /\ k z = Some y).
  { intros lo' hi' H. apply Hbody in H as (z1 & Hz1 & H).
    destruct (_ && _); [done|]. apply IH in H as (z & Hz & H).
    exists z. split; [by eapply reaches_trans | done]. }
  destruct hi as [[|n]|]; [exact Hstop | |];
    (destruct (0 <? lo)%nat; [apply Honce|];
     destruct greedy; unfold or_else;
     match goal with |- context [match ?a with Some _ => _ | None => _ end] =>
       destruct a eqn:E end;
     first [ intros [= <-]; first [ by apply Honce in E | by apply Hstop in E ]
           | by apply Hstop | by apply Honce ]).
Qed.

Lemma run_conserves r : forall x k y,
  run r x k = Some y -> exists z, reaches x z /\ k z = Some y.
Proof.
  induction r as [|p|r1 IH1 r2 IH2|r1 IH1 r2 IH2|greedy lo hi r1 IH1|n r1 IH1| | |];
    intros x k y; cbn [run].
  - intros H. exists x. split; [apply reaches_refl | done].
  - destruct (remaining x) as [|c t] eqn:E; [done|]. destruct (p c); [|done].
    intros H. exists (advance c t x). split; [|done].
    unfold reaches, advance. cbn. rewrite E. cbn. lia.
  - intros H. apply IH1 in H as (z1 & Hz1 & H). apply IH2 in H as (z & Hz & H).
    exists z. split; [by eapply reaches_trans | done].
  - unfold or_else. destruct (run r1 x k) eqn:E.
    + intros [= <-]. by apply IH1 in E.
    + apply IH2.
  - by apply iterate_conserves.
  - intros H. apply IH1 in H as (z & Hz & H). exists (capture n x z). split; [|done].
    unfold reaches, capture in *. cbn. lia.
  - destruct (previous x); [done|]. intros H. exists x. split; [apply reaches_refl | done].
  - destruct (remaining x); [|done]. intros H. exists x. split; [apply reaches_refl | done].
  - destruct (at_word_boundary x); [|done]. intros H. exists x.
    split; [apply reaches_refl | done].
Qed.

(** What a match takes and what it leaves make up the input. *)
Lemma exec_conserves r prev s y :
  exec r prev s = Some y ->
  (length (taken y) + String.length (remaining y) = String.length s)%nat.
Proof.
  unfold exec. intros H. apply run_conserves in H as (z & [_ Hz] & [= <-]).
  cbn in Hz. lia.
Qed.

(** The matcher only applies its continuation further in the input. *)
Lemma iterate_ext body :
  (forall x k1 k2, (forall z, reaches x z -> k1 z = k2 z) -> body x k1 = body x k2) ->
  forall fuel greedy k1 k2 lo hi x,
    (forall z, reaches x z -> k1 z = k2 z) ->
    iterate body greedy k1 fuel lo hi x = iterate body greedy k2 fuel lo hi x.
Proof.
  intros Hbody. induction fuel as [|fuel IH]; intros greedy k1 k2 lo hi x Hk;
    cbn [iterate]; [done|].
  rewrite (Hk x (reaches_refl x)).
  assert (Honce : forall lo' hi',
             body x (fun y0 =>
               if (lo =? 0)%nat && (length (taken y0) =? length (taken x))%nat then None
               else iterate body greedy k1 fuel lo' hi' y0)
             = body x (fun y0 =>
               if (lo =? 0)%nat && (length (taken y0) =? length (taken x))%nat then None
               else iterate body greedy k2 fuel lo' hi' y0)).
  { intros lo' hi'. apply Hbody. intros z Hz. destruct (_ && _); [done|].
    apply IH. intros z' Hz'. apply Hk. by eapply reaches_trans. }
  destruct hi as [[|n]|]; [done | |]; by rewrite Honce.
Qed.

Lemma run_ext r : forall x k1 k2,
  (forall z, reaches x z -> k1 z = k2 z) -> run r x k1 = run r x k2.
Proof.
  induction r as [|p|r1 IH1 r2 IH2|r1 IH1 r2 IH2|greedy lo hi r1 IH1|n r1 IH1| | |];
    intros x k1 k2 Hk; cbn [run]; try (by rewrite (Hk x (reaches_refl x))).
  - destruct (remaining x) as [|c t] eqn:E; [done|]. destruct (p c); [|done].
    apply Hk. unfold reaches, advance. cbn. rewrite E. cbn. lia.
  - apply IH1. intros z Hz. apply IH2. intros z' Hz'. apply Hk. by eapply reaches_trans.
  - by rewrite (IH1 x k1 k2), (IH2 x k1 k2).
  - by apply iterate_ext.
  - apply IH1. intros z Hz. apply Hk. unfold reaches, capture in *. cbn. lia.
Qed.

(** The fuel a quantifier starts with is enough: more fuel gives the same
    result. *)
Lemma iterate_fuel r greedy k : forall fuel1 fuel2 lo hi x,
  (lo + String.length (remaining x) < fuel1)%nat ->
  (lo + String.length (remaining x) < fuel2)%nat ->
  iterate (run r) greedy k fuel1 lo hi x = iterate (run r) greedy k fuel2 lo hi x.
Proof.
  induction fuel1 as [|fuel1 IH]; intros fuel2 lo hi x H1 H2; [lia|].
  destruct fuel2 as [|fuel2]; [lia|]. cbn [iterate].
  assert (Honce :
    run r x (fun y0 =>
      if (lo =? 0)%nat && (length (taken y0) =? length (taken x))%nat then None
      else iterate (run r) greedy k fuel1 (pred lo) (option_map pred hi) y0)
    = run r x (fun y0 =>
      if (lo =? 0)%nat && (length (taken y0) =? length (taken x))%nat then None
      else iterate (run r) greedy k fuel2 (pred lo) (option_map pred hi) y0)).
  { apply run_ext. intros z [Hle Hsum].
    destruct (lo =? 0)%nat eqn:Hlo; cbn [andb].
    - apply Nat.eqb_eq in Hlo. subst lo.
      destruct (length (taken z) =? length (taken x))%nat eqn:Hsame; [done|].
      apply Nat.eqb_neq in Hsame. apply IH; cbn; lia.
    - apply Nat.eqb_neq in Hlo. apply IH; lia. }
  destruct hi as [[|n]|]; [done | |]; by rewrite Honce.
Qed.

(** So is the fuel of a global scan. *)
Lemma pieces_fuel r : forall n s fuel1 fuel2 prev gap,
  (String.length s <= n)%nat ->
  (String.length s < fuel1)%nat -> (String.length s < fuel2)%nat ->
  pieces fuel1 r prev s gap = pieces fuel2 r prev s gap.
Proof.
  induction n as [|n IH]; intros s fuel1 fuel2 prev gap Hn H1 H2;
    (destruct fuel1 as [|fuel1]; [lia|]); (destruct fuel2 as [|fuel2]; [lia|]);
    cbn [pieces].
  - destruct s as [|c t]; [|cbn in Hn; lia].
    destruct (exec r prev "") as [y|] eqn:E; [|done].
    apply exec_conserves in E. cbn in E. destruct (taken y); [done | cbn in E; lia].
  - destruct (exec r prev s) as [y|] eqn:E.
    + apply exec_conserves in E.
      destruct (taken y) as [|c0 l] eqn:Et.
      * destruct s as [|c t]; [done|]. do 2 f_equal. cbn in Hn, H1, H2. apply IH; lia.
      * do 2 f_equal. cbn in E. apply IH; lia.
    + destruct s as [|c t]; [done|]. cbn in Hn, H1, H2. apply IH; lia.
Qed.

(** And that of a split. *)
Lemma splitting_fuel r : forall n s fuel1 fuel2 prev gap,
  (2 * String.length s + length gap <= n)%nat ->
  (2 * String.length s + Nat.min 1 (length gap) < fuel1)%nat ->
  (2 * String.length s + Nat.min 1 (length gap) < fuel2)%nat ->
  splitting fuel1 r prev s gap = splitting fuel2 r prev s gap.
Proof.
  induction n as [n IH] using lt_wf_ind. intros s fuel1 fuel2 prev gap Hn H1 H2.
  destruct fuel1 as [|fuel1]; [lia|]. destruct fuel2 as [|fuel2]; [lia|].
  cbn [splitting]. destruct s as [|c t]; [done|]. cbn [String.length] in *.
  destruct (exec r prev (String c t)) as [y|] eqn:E.
  - apply exec_conserves in E. cbn [String.length] in E.
    destruct (taken y) as [|c0 l] eqn:Et, gap as [|g gap'] eqn:Eg.
    + apply (IH (2 * String.length t + 1)%nat); cbn; lia.
    + do 2 f_equal. cbn in E.
      apply (IH (2 * String.length (remaining y))%nat); cbn in *; lia.
    + do 2 f_equal. cbn in E.
      apply (IH (2 * String.length (remaining y))%nat); cbn in *; lia.
    + do 2 f_equal. cbn in E.
      apply (IH (2 * String.length (remaining y))%nat); cbn in *; lia.
  - apply (IH (2 * String.length t + length (c :: gap))%nat); cbn in *; lia.
Qed.

Lemma scan_fuel r s fuel :
  (String.length s < fuel)%nat -> pieces fuel r None s [] = scan r s.
Proof. intros H. unfold scan. apply (pieces_fuel r (String.length s)); lia. Qed.

Lemma split_fuel r c t fuel :
  (2 * String.length (String c t) < fuel)%nat ->
  splitting fuel r None (String c t) [] = split r (String c t).
Proof.
  intros H. unfold split.
  apply (splitting_fuel r (2 * String.length (String c t) + 0)); cbn in *; lia.
Qed.

(** Once the minimum of a greedy quantifier is reached, the match cannot fail
    if what follows cannot. *)
Lemma iterate_past_minimum body k fuel hi x :
  (forall z, k z <> None) -> iterate body true k (S fuel) 0 hi x <> None.
Proof.
  intros Hk. cbn [iterate].
  assert (Hor : forall once, or_else once (k x) <> None).
  { intros [y|]; cbn; [discriminate | apply Hk]. }
  destruct hi as [[|n]|]; cbn; [apply Hk | apply Hor | apply Hor].
Qed.

(** [/.{1,1000}/] matches at a code unit that is not a line terminator. *)
Lemma exec_chunk prev c t :
  is_line_terminator c = false ->
  exec (Rep true 1 (Some 1000) dot) prev (String c t) <> None.
Proof.
  intros Hc. unfold exec. cbn [run remaining dot]. cbn [iterate].
  cbn [Nat.ltb Nat.leb remaining]. rewrite Hc. cbn [negb Nat.eqb andb pred option_map].
  apply iterate_past_minimum. discriminate.
Qed.

Lemma pieces_chunk s : forall fuel prev gap,
  (String.length s < fuel)%nat ->
  Rag.has_inline_character s = true ->
  exists y, Hit y ∈ pieces fuel (Rep true 1 (Some 1000) dot) prev s gap.
Proof.
  induction s as [|c t IH]; intros fuel prev gap Hfuel Hs; [discriminate|].
  destruct fuel as [|fuel']; [cbn in Hfuel; lia|].
  cbn [pieces].
  destruct (exec (Rep true 1 (Some 1000) dot) prev (String c t)) as [y|] eqn:E.
  - exists y. destruct (taken y); right; left.
  - cbn in Hs. destruct (is_line_terminator c) eqn:Hc.
    + cbn in Hs. destruct (IH fuel' (Some c) (c :: gap)) as [y Hy]; [cbn in Hfuel; lia | done |].
      by exists y.
    + by apply exec_chunk in E.
Qed.

Lemma matchAll_chunk s :
  Rag.has_inline_character s = true -> matchAll (Rep true 1 (Some 1000) dot) s <> [].
Proof.
  intros Hs. unfold matchAll, scan.
  destruct (pieces_chunk s (S (String.length s)) None [] ltac:(lia) Hs) as [y Hy].
  intros Hnil.
  assert (Hin : matched y ∈ flat_map (fun p => match p with Hit y => [matched y] | Gap _ => [] end)
                   (pieces (S (String.length s)) (Rep true 1 (Some 1000) dot) None s [])).
  { apply list_elem_of_In, in_flat_map. exists (Hit y). split; [by apply list_elem_of_In | by left]. }
  rewrite Hnil in Hin. inversion Hin.
Qed.

(** *** The matcher takes its match from the text *)

Lemma of_list_app (l1 l2 : list ascii) :
  string_of_list_ascii (l1 ++ l2) = string_of_list_ascii l1 +:+ string_of_list_ascii l2.
Proof. induction l1 as [|c l1 IH]; [done|]. cbn. by rewrite IH. Qed.

Lemma of_rev_cons c l t : of_rev (c :: l) +:+ t = of_rev l +:+ String c t.
Proof. unfold of_rev. cbn [rev]. by rewrite of_list_app, StringFacts.app_assoc. Qed.

Lemma continues_refl x : continues x x.
Proof. done. Qed.

Lemma continues_trans x y z : continues x y -> continues y z -> continues x z.
Proof. unfold continues. by intros <- <-. Qed.

Lemma iterate_continues body :
  (forall x k y, body x k = Some y -> exists z, continues x z /\ k z = Some y) ->
  forall fuel greedy k lo hi x y,
    iterate body greedy k fuel lo hi x = Some y -> exists z, continues x z /\ k z = Some y.
Proof.
  intros Hbody. induction fuel as [|fuel IH]; intros greedy k lo hi x y; cbn [iterate]; [done|].
  assert (Hstop : k x = Some y -> exists z, continues x z /\ k z = Some y).
  { intros Hk. exists x. split; [apply continues_refl | done]. }
  assert (Honce : forall lo' hi',
             body x (fun y0 =>
               if (lo =? 0)%nat && (length (taken y0) =? length (taken x))%nat then None
               else iterate body greedy k fuel lo' hi' y0) = Some y ->
             exists z, continues x z /\ k z = Some y).
  { intros lo' hi' H. apply Hbody in H as (z1 & Hz1 & H).
    destruct (_ && _); [done|]. apply IH in H as (z & Hz & H).
    exists z. split; [by eapply continues_trans | done]. }
  destruct hi as [[|n]|]; [exact Hstop | |];
    (destruct (0 <? lo)%nat; [apply Honce|];
     destruct greedy; unfold or_else;
     match goal with |- context [match ?a with Some _ => _ | None => _ end] =>
       destruct a eqn:E end;
     first [ intros [= <-]; first [ by apply Honce in E | by apply Hstop in E ]
           | by apply Hstop | by apply Honce ]).
Qed.

Lemma run_continues r : forall x k y,
  run r x k = Some y -> exists z, continues x z /\ k z = Some y.
Proof.
  induction r as [|p|r1 IH1 r2 IH2|r1 IH1 r2 IH2|greedy lo hi r1 IH1|n r1 IH1| | |];
    intros x k y; cbn [run].
  - intros H. exists x. split; [apply continues_refl | done].
  - destruct (remaining x) as [|c t] eqn:E; [done|]. destruct (p c); [|done].
    intros H. exists (advance c t x). split; [|done].
    unfold continues, advance. cbn [taken remaining]. rewrite E. apply of_rev_cons.
  - intros H. apply IH1 in H as (z1 & Hz1 & H). apply IH2 in H as (z & Hz & H).
    exists z. split; [by eapply continues_trans | done].
  - unfold or_else. destruct (run r1 x k) eqn:E.
    + intros [= <-]. by apply IH1 in E.
    + apply IH2.
  - by apply iterate_continues.
  - intros H. apply IH1 in H as (z & Hz & H). exists (capture n x z). split; [|done].
    exact Hz.
  - destruct (previous x); [done|]. intros H. exists x. split; [apply continues_refl | done].
  - destruct (remaining x); [|done]. intros H. exists x. split; [apply continues_refl | done].
  - destruct (at_word_boundary x); [|done]. intros H. exists x.
    split; [apply continues_refl | done].
Qed.

(** The text a match takes, followed by the text it leaves, is the input. *)
Lemma exec_continues r prev s y :
  exec r prev s = Some y -> matched y +:+ remaining y = s.
Proof.
  unfold exec. intros H. apply run_continues in H as (z & Hz & [= <-]). exact Hz.
Qed.

Lemma exec_every p r prev s y :
  exec r prev s = Some y -> every p s = true ->
  every p (matched y) = true /\ every p (remaining y) = true.
Proof.
  intros H Hs. apply exec_continues in H. rewrite <- H, StringFacts.every_app in Hs.
  by apply andb_true_iff in Hs.
Qed.

(** *** Replacing and splitting keep to the code units of the text *)

Lemma pieces_every (q0 q : ascii -> bool) r :
  (forall prev c t, q0 c = true -> exec r prev (String c t) = None -> q c = true) ->
  (forall prev s y, exec r prev s = Some y -> taken y <> []) ->
  forall fuel prev s gap text,
    every q0 s = true -> forallb q gap = true ->
    In (Gap text) (pieces fuel r prev s gap) -> every q text = true.
Proof.
  intros Hskip Hhit. induction fuel as [|fuel IH]; intros prev s gap text Hs Hgap;
    cbn [pieces]; [done|].
  destruct (exec r prev s) as [y|] eqn:E.
  - pose proof (Hhit _ _ _ E) as Hne.
    destruct (taken y) as [|c0 l0] eqn:Htaken; [done|].
    destruct (exec_every q0 _ _ _ _ E Hs) as [_ Hrest].
    intros [[= <-]|[Hf|Hin]]; [by apply StringFacts.every_of_rev | done |].
    by apply (IH (previous y) (remaining y) []).
  - destruct s as [|c t].
    + intros [[= <-]|[]]. by apply StringFacts.every_of_rev.
    + cbn [every] in Hs. apply andb_true_iff in Hs as [Hc Ht].
      apply IH; [done|]. cbn [forallb]. by rewrite (Hskip prev c t Hc E), Hgap.
Qed.

Lemma replaceAll_every (q0 q : ascii -> bool) r by_ s :
  (forall prev c t, q0 c = true -> exec r prev (String c t) = None -> q c = true) ->
  (forall prev s y, exec r prev s = Some y -> taken y <> []) ->
  (forall y, every q (by_ y) = true) ->
  every q0 s = true -> every q (replaceAll r by_ s) = true.
Proof.
  intros Hskip Hhit Hby Hs. unfold replaceAll. apply StringFacts.every_concat; [done|].
  intros text Hin. apply in_map_iff in Hin as ([gap|y] & <- & Hin); [|apply Hby].
  unfold scan in Hin.
  by apply (pieces_every q0 q r Hskip Hhit _ None s [] gap Hs eq_refl Hin).
Qed.

Lemma splitting_every q r :
  groups r = [] ->
  forall fuel prev s gap part,
    every q s = true -> forallb q gap = true ->
    In part (splitting fuel r prev s gap) -> every q part = true.
Proof.
  intros Hgroups. induction fuel as [|fuel IH]; intros prev s gap part Hs Hgap;
    cbn [splitting]; [done|].
  destruct s as [|c t].
  - intros [<-|[]]. by apply StringFacts.every_of_rev.
  - pose proof Hs as Hct. cbn [every] in Hct. apply andb_true_iff in Hct as [Hc Ht].
    assert (Hnext : In part (splitting fuel r (Some c) t (c :: gap)) -> every q part = true).
    { apply IH; [done|]. cbn [forallb]. by rewrite Hc, Hgap. }
    destruct (exec r prev (String c t)) as [y|] eqn:E; [|exact Hnext].
    destruct (exec_every q _ _ _ _ E Hs) as [_ Hrest].
    rewrite Hgroups. cbn [map app].
    assert (Hcut : In part (of_rev gap :: splitting fuel r (previous y) (remaining y) []) ->
                   every q part = true).
    { intros [<-|Hin]; [by apply StringFacts.every_of_rev|]. by apply (IH (previous y) (remaining y) []). }
    destruct (taken y), gap; first [exact Hnext | exact Hcut].
Qed.

Lemma split_every q r s part :
  groups r = [] -> every q s = true -> In part (split r s) -> every q part = true.
Proof.
  intros Hgroups Hs. unfold split. destruct s as [|c t].
  - destruct (exec r None ""); [done|]. by intros [<-|[]].
  - by apply splitting_every.
Qed.

(** *** A character class and its repetition *)

Lemma exec_Chr p prev s y : exec (Chr p) prev s = Some y -> taken y <> [].
Proof.
  unfold exec. cbn. destruct s as [|c t]; [done|]. destruct (p c); [|done].
  by intros [= <-].
Qed.

Lemma exec_Chr_none p prev c t : exec (Chr p) prev (String c t) = None -> p c = false.
Proof. unfold exec. cbn. by destruct (p c). Qed.

Lemma exec_plus p prev s y : exec (plus (Chr p)) prev s = Some y -> taken y <> [].
Proof.
  unfold exec, plus. cbn [run remaining]. cbn [iterate]. cbn [Nat.ltb Nat.leb].
  cbn [run remaining]. destruct s as [|c t]; [done|]. destruct (p c); [|done].
  cbn [Nat.eqb andb]. intros H.
  apply (iterate_conserves (run (Chr p)) (run_conserves (Chr p))) in H
    as (z & [Hle Hz] & [= <-]).
  cbn in Hle, Hz. intros Hnil. rewrite Hnil in Hz. cbn in Hz. lia.
Qed.

Lemma exec_plus_none p prev c t : exec (plus (Chr p)) prev (String c t) = None -> p c = false.
Proof.
  unfold exec, plus. cbn [run remaining]. cbn [iterate]. cbn [Nat.ltb Nat.leb].
  cbn [run remaining]. destruct (p c); [|done].
  cbn [Nat.eqb andb pred option_map String.length Nat.add].
  intros H. by apply iterate_past_minimum in H.
Qed.

End RegexFacts.

(** ** The research data store *)

Module StoreFacts.
Import Store.

(** *** Creating a hypothesis *)

Lemma missingPapers_nonempty (st : ResearchDataStore) (h : HypothesisWithSources) (p : SourcePaper) :
  p ∈ h_sourcePapers h -> papers st !! sp_id p = None -> missingPapers st h <> [].
Proof.
  intros Hin Hnone Hnil.
  assert (Hp : In p (missingPapers st h)).
  { unfold missingPapers. apply filter_In. split.
    - by apply list_elem_of_In.
    - unfold has_paper. by rewrite Hnone. }
  rewrite Hnil in Hp. inversion Hp.
Qed.

(** C1. A hypothesis that names a source paper whose id is not in the store
    makes [addHypothesis] throw the missing-source error, and the store after
    the failed call is the store before it: same hypotheses, same
    knowledge-graph nodes (so every node keeps its connections list), same
    graph connections, same papers. *)
Theorem addHypothesis_missing_source_throws
    (st : ResearchDataStore) (h : HypothesisWithSources) (p : SourcePaper) :
  p ∈ h_sourcePapers h ->
  papers st !! sp_id p = None ->
  let (st', result) := addHypothesis h st in
  result = Thrown (missingSourceMessage (missingPapers st h)) /\
  st' = st /\
  hypotheses st' = hypotheses st /\
  knowledgeGraph st' = knowledgeGraph st /\
  connections st' = connections st /\
  (forall i node, knowledgeGraph st !! i = Some node ->
     exists node', knowledgeGraph st' !! i = Some node' /\
                   n_connections node' = n_connections node).
Proof.
  intros Hin Hnone.
  pose proof (missingPapers_nonempty st h p Hin Hnone) as Hne.
  unfold addHypothesis, mbind, Js_bind, bind, gets.
  destruct (missingPapers st h) as [|m ms] eqn:E; [done|].
  cbn. repeat split; eauto.
Qed.

Lemma addHypothesis_missing_source_throws_witness :
  addHypothesis Scenario.hypothesisE Scenario.storeE
  = (Scenario.storeE, Thrown "Missing source papers: ghost").
Proof.
  pose proof (addHypothesis_missing_source_throws
                Scenario.storeE Scenario.hypothesisE Scenario.paperGhost) as H.
  destruct (addHypothesis Scenario.hypothesisE Scenario.storeE) as [st' result].
  destruct H as (Hr & Hst & _).
  - right. left.
  - vm_compute. reflexivity.
  - rewrite Hr, Hst. vm_compute. reflexivity.
Defined.

(** *** Validation of a hypothesis against its sources *)


(** The matched words of a paper: the hypothesis words longer than 3
    characters that occur in the lower-cased text of the paper. *)
Lemma foundConcepts_spec words paper word :
  word ∈ foundConcepts words paper <->
  word ∈ words /\ (3 < JsString.strlen word)%Z /\
  exists before after,
    JsString.toLowerCase (sp_extractedText paper) = before +:+ word +:+ after.
Proof.
  unfold foundConcepts. cbn zeta.
  rewrite list_elem_of_In, filter_In, <- list_elem_of_In, andb_true_iff, Z.ltb_lt.
  by rewrite StringFacts.includes_spec.
Qed.














Example case_is_folded_result :
  let result := validateHypothesisAgainstSources Scenario.hypothesisTextCase
                  [Scenario.paperCase] in
  isValid result = true /\ confidence result = 95%float /\ warnings result = [] /\
  matchedWordCount (fun text => text) Scenario.hypothesisTextCase Scenario.paperCase = 0%nat /\
  matchedWordCount JsString.toLowerCase Scenario.hypothesisTextCase Scenario.paperCase = 2%nat.
Proof. vm_compute. repeat split. Qed.

(** C10. With no source paper the function returns (it has no failure path):
    [isValid] is false, there is neither evidence nor warning, and the
    confidence is the quotient 0/0, which is NaN: neither [0 <= confidence]
    nor [confidence <= 100] holds. *)
Theorem validateHypothesisAgainstSources_without_papers (hypothesisText : string) :
  let result := validateHypothesisAgainstSources hypothesisText [] in
  isValid result = false /\
  supportingEvidence result = [] /\
  warnings result = [] /\
  confidence result = JsNumber.Math_min ((0 / 0) * 100)%float 95%float /\
  PrimFloat.is_nan (confidence result) = true /\
  PrimFloat.leb 0%float (confidence result) = false /\
  PrimFloat.leb (confidence result) 100%float = false.
Proof. cbn. repeat split. Qed.

(** *** Evolution of the knowledge graph *)

Lemma grows_refl i st : grows i st st.
Proof. intros node H. eauto. Qed.

Lemma grows_trans i st1 st2 st3 : grows i st1 st2 -> grows i st2 st3 -> grows i st1 st3.
Proof.
  intros H12 H23 node H1.
  destruct (H12 node H1) as (node2 & H2 & Hsub2).
  destruct (H23 node2 H2) as (node3 & H3 & Hsub3).
  exists node3. split; [done|]. auto.
Qed.

Lemma grows_persists i st st' : grows i st st' -> persists i st st'.
Proof. intros H [node Hn]. destruct (H node Hn) as (node' & Hn' & _). by exists node'. Qed.

Lemma persists_trans i st1 st2 st3 :
  persists i st1 st2 -> persists i st2 st3 -> persists i st1 st3.
Proof. unfold persists. auto. Qed.

Lemma grows_same_graph i st st' :
  knowledgeGraph st' = knowledgeGraph st -> grows i st st'.
Proof. intros E node H. rewrite E. eauto. Qed.

Lemma grows_push i j x st :
  grows i st (set_knowledgeGraph (alter (push_connection x) j) st).
Proof.
  intros node H. cbn. rewrite lookup_alter. case_decide as E.
  - subst j. rewrite H. cbn. eexists. split; [done|].
    cbn. intros c Hc. apply elem_of_app. by left.
  - eauto.
Qed.

Lemma grows_set_confidence i j x st :
  grows i st (set_knowledgeGraph (alter (set_node_confidence x) j) st).
Proof.
  intros node H. cbn. rewrite lookup_alter. case_decide as E.
  - subst j. rewrite H. cbn. eexists. split; [done|]. cbn. auto.
  - eauto.
Qed.

Lemma grows_insert_other i j fresh st :
  i <> j -> grows i st (set_knowledgeGraph (insert j fresh) st).
Proof. intros Hne node H. cbn. rewrite lookup_insert_ne by done. eauto. Qed.

Lemma persists_insert i j fresh st :
  persists i st (set_knowledgeGraph (insert j fresh) st).
Proof.
  intros Hi. cbn. destruct (decide (j = i)) as [->|Hne].
  - rewrite lookup_insert_eq. eauto.
  - by rewrite lookup_insert_ne.
Qed.

Lemma persists_refl i st : persists i st st.
Proof. by intros H. Qed.

(** One round of the wiring loop of [addHypothesis]. *)
Lemma forEach_cons {A} (body : A -> Js unit) (f : A -> ResearchDataStore -> ResearchDataStore)
      (l : list A) (st : ResearchDataStore) :
  (forall x st0, body x st0 = (f x st0, Returned tt)) ->
  forEach l body st = (fold_left (fun acc x => f x acc) l st, Returned tt).
Proof.
  intros Hbody. revert st. induction l as [|x l IH]; intros st; [done|].
  cbn. unfold mbind, Js_bind, bind. rewrite Hbody. apply IH.
Qed.

Lemma fold_left_grows {A} i (f : A -> ResearchDataStore -> ResearchDataStore) (l : list A) st :
  (forall x st0, grows i st0 (f x st0)) ->
  grows i st (fold_left (fun acc x => f x acc) l st).
Proof.
  intros Hf. revert st. induction l as [|x l IH]; intros st; cbn.
  - apply grows_refl.
  - eapply grows_trans; [apply Hf | apply IH].
Qed.

Lemma wire_grows i h paper st : grows i st (wire h paper st).
Proof.
  unfold wire.
  eapply grows_trans; [|apply grows_push].
  eapply grows_trans; [|apply grows_push].
  by apply grows_same_graph.
Qed.

Lemma addHypothesis_store h st :
  fst (addHypothesis h st) = st \/
  exists node full,
    fst (addHypothesis h st) =
    fold_left (fun acc paper => wire h paper acc) (h_sourcePapers h)
      (set_knowledgeGraph (insert (hypothesisNodeId (h_id h)) node)
         (set_hypotheses (insert (h_id h) full) st)).
Proof.
  unfold addHypothesis, mbind, Js_bind, bind, gets.
  destruct (missingPapers st h) as [|m ms]; cbn; [|by left].
  right. eexists _, _.
  erewrite forEach_cons; [reflexivity|].
  intros paper st0. reflexivity.
Qed.

Lemma updateHypothesisStatus_grows i hid status now st :
  grows i st (fst (updateHypothesisStatus hid status now st)).
Proof.
  unfold updateHypothesisStatus, mbind, Js_bind, bind, gets.
  destruct (hypotheses st !! hid) as [h|]; cbn; [|apply grows_refl].
  destruct (h_knowledgeGraphNodeId h) as [nodeId|]; cbn.
  - eapply grows_trans; [|by apply grows_same_graph].
    apply (grows_set_confidence i nodeId _ (set_hypotheses _ st)).
  - by apply grows_same_graph.
Qed.

Lemma perform_persists i st op : persists i st (perform st op).
Proof.
  destruct op as [paper|h|hid status now]; cbn.
  - apply (persists_insert i _ _ (set_papers (insert (sp_id paper) paper) st)).
  - destruct (addHypothesis_store h st) as [->|(node & full & ->)].
    + apply persists_refl.
    + eapply persists_trans; [|apply grows_persists, fold_left_grows, wire_grows].
      apply (persists_insert i _ _ (set_hypotheses (insert (h_id h) full) st)).
  - apply grows_persists, updateHypothesisStatus_grows.
Qed.

Lemma perform_grows i st op : storesNode op <> Some i -> grows i st (perform st op).
Proof.
  destruct op as [paper|h|hid status now]; cbn; intros Hne.
  - apply (grows_insert_other i _ _ (set_papers (insert (sp_id paper) paper) st)).
    intros ->. by apply Hne.
  - destruct (addHypothesis_store h st) as [->|(node & full & ->)].
    + apply grows_refl.
    + eapply grows_trans; [|apply fold_left_grows, wire_grows].
      apply (grows_insert_other i _ _ (set_hypotheses (insert (h_id h) full) st)).
      intros ->. by apply Hne.
  - apply updateHypothesisStatus_grows.
Qed.

Lemma performAll_persists i ops st : persists i st (performAll st ops).
Proof.
  revert st. induction ops as [|op ops IH]; intros st; cbn.
  - apply persists_refl.
  - eapply persists_trans; [apply perform_persists | apply IH].
Qed.

Lemma performAll_grows i ops st :
  (forall op, op ∈ ops -> storesNode op <> Some i) -> grows i st (performAll st ops).
Proof.
  revert st. induction ops as [|op ops IH]; intros st Hops; cbn.
  - apply grows_refl.
  - eapply grows_trans.
    + apply perform_grows, Hops. left.
    + apply IH. intros op' Hin. apply Hops. by right.
Qed.

(** C5 (as the code has it). Over any sequence of [addPaper], [addHypothesis]
    and [updateHypothesisStatus] calls a knowledge-graph node, once present,
    stays present; and every id in its connections list is still there
    afterwards provided no call of the sequence stores that node afresh (an
    [addPaper] of the node's paper, an [addHypothesis] of the node's
    hypothesis). *)
Theorem nodes_persist_and_connections_grow
    (st : ResearchDataStore) (ops : list operation) (i : string) (node : KnowledgeGraphNode) :
  knowledgeGraph st !! i = Some node ->
  (exists node', knowledgeGraph (performAll st ops) !! i = Some node') /\
  ((forall op, op ∈ ops -> storesNode op <> Some i) ->
   exists node', knowledgeGraph (performAll st ops) !! i = Some node' /\
                 forall c, c ∈ n_connections node -> c ∈ n_connections node').
Proof.
  intros Hnode. split.
  - apply (performAll_persists i ops st). by exists node.
  - intros Hops. by apply (performAll_grows i ops st Hops).
Qed.

Lemma nodes_persist_and_connections_grow_witness :
  exists node',
    knowledgeGraph (performAll (performAll emptyStore Scenario.ingestAndLink) Scenario.carryOn)
      !! "paper_a" = Some node' /\
    "hypothesis_h1" ∈ n_connections node'.
Proof.
  destruct (nodes_persist_and_connections_grow
              (performAll emptyStore Scenario.ingestAndLink) Scenario.carryOn "paper_a"
              (push_connection "hypothesis_h1"
                 {| n_id := "paper_a"; n_label := "Gene expression atlas"; n_type := nt_paper;
                    n_sourceType := paper_metadata; n_importance := 0.8%float;
                    n_metadata := {| md_description := Some "Research paper: Gene expression atlas";
                                     md_sourcePapers := Some ["a"]; md_confidence := None |};
                    n_connections := [] |}))
    as [_ Hgrow].
  - vm_compute. reflexivity.
  - destruct Hgrow as (node' & Hnode' & Hsub).
    + intros op Hin. unfold Scenario.carryOn in Hin.
      repeat (apply elem_of_cons in Hin as [->|Hin]; [vm_compute; discriminate|]).
      inversion Hin.
    + exists node'. split; [exact Hnode'|]. apply Hsub. cbn. left.
Defined.

(** C5, counterexample. Ingesting a paper again replaces its node by a fresh
    one with an empty connections list: the link to the hypothesis derived
    from it is gone. *)
Lemma readding_a_paper_drops_its_connections : ~ connections_only_grow.
Proof.
  intros Hspec.
  destruct (Hspec Scenario.ingestAndLink Scenario.ingestAgain "paper_a"
              (push_connection "hypothesis_h1"
                 {| n_id := "paper_a"; n_label := "Gene expression atlas"; n_type := nt_paper;
                    n_sourceType := paper_metadata; n_importance := 0.8%float;
                    n_metadata := {| md_description := Some "Research paper: Gene expression atlas";
                                     md_sourcePapers := Some ["a"]; md_confidence := None |};
                    n_connections := [] |})
              "hypothesis_h1") as (node' & Hnode' & Hin).
  - vm_compute. reflexivity.
  - cbn. left.
  - vm_compute in Hnode'. injection Hnode' as <-. cbn in Hin. inversion Hin.
Qed.

(** *** Papers *)

Lemma node_ids_differ a b : paperNodeId a <> hypothesisNodeId b.
Proof. unfold paperNodeId, hypothesisNodeId. discriminate. Qed.

Lemma addPaper_overwrite (first second : SourcePaper) (st : ResearchDataStore) :
  sp_id first = sp_id second ->
  fst (addPaper second (fst (addPaper first st))) = fst (addPaper second st).
Proof.
  intros E. unfold addPaper, mbind, Js_bind, bind, modify, set_papers, set_knowledgeGraph.
  cbn. rewrite E. by rewrite !insert_insert_eq.
Qed.

(** X1. After [addPaper paper], [getPaper] of its id returns that paper and
    the graph holds the node [paper_<id>], labelled with the title and without
    connections; the other papers, the other nodes, the hypotheses and the
    graph connections are as before. *)
Theorem addPaper_then_getPaper (paper : SourcePaper) (st : ResearchDataStore) :
  let st' := fst (addPaper paper st) in
  snd (getPaper (sp_id paper) st') = Returned (Some paper) /\
  (forall id, id <> sp_id paper -> snd (getPaper id st') = snd (getPaper id st)) /\
  (exists node, knowledgeGraph st' !! paperNodeId (sp_id paper) = Some node /\
                n_id node = paperNodeId (sp_id paper) /\
                n_label node = sp_title paper /\
                n_type node = nt_paper /\
                n_connections node = []) /\
  (forall i, i <> paperNodeId (sp_id paper) -> knowledgeGraph st' !! i = knowledgeGraph st !! i) /\
  hypotheses st' = hypotheses st /\
  connections st' = connections st.
Proof.
  unfold addPaper, getPaper, gets, mbind, Js_bind, bind, modify. cbn [fst snd].
  cbn [set_papers set_knowledgeGraph papers knowledgeGraph hypotheses connections n_id].
  split; [f_equal; apply lookup_insert_eq|].
  split; [intros id Hne; f_equal; by apply lookup_insert_ne|].
  split; [eexists; split; [apply lookup_insert_eq | done]|].
  split; [intros i Hne; by apply lookup_insert_ne|]. done.
Qed.

(** X2. Adding a paper under an id that is already stored replaces the earlier
    paper and its node: the store is the one the second call alone gives. *)
Theorem addPaper_last_write_wins (first second : SourcePaper) (st : ResearchDataStore) :
  sp_id first = sp_id second ->
  fst (addPaper second (fst (addPaper first st))) = fst (addPaper second st) /\
  snd (getPaper (sp_id first) (fst (addPaper second (fst (addPaper first st)))))
  = Returned (Some second).
Proof.
  intros E. split; [by apply addPaper_overwrite|].
  rewrite addPaper_overwrite by done. rewrite E.
  unfold addPaper, getPaper, gets, mbind, Js_bind, bind, modify. cbn [fst snd].
  cbn [set_papers set_knowledgeGraph papers]. f_equal. apply lookup_insert_eq.
Qed.

Lemma addPaper_last_write_wins_witness :
  snd (getPaper "a" (fst (addPaper (Scenario.paper "a" "Second title" "other text" [])
                            (fst (addPaper Scenario.paperA emptyStore)))))
  = Returned (Some (Scenario.paper "a" "Second title" "other text" [])).
Proof.
  exact (proj2 (addPaper_last_write_wins Scenario.paperA
                  (Scenario.paper "a" "Second title" "other text" []) emptyStore eq_refl)).
Defined.

(** *** Successful creation of a hypothesis *)

Lemma missingPapers_nil (st : ResearchDataStore) (h : HypothesisWithSources) :
  missingPapers st h = [] <->
  forall paper, paper ∈ h_sourcePapers h -> is_Some (papers st !! sp_id paper).
Proof.
  unfold missingPapers. split.
  - intros E paper Hin. destruct (papers st !! sp_id paper) as [p|] eqn:Hp; [by exists p|].
    assert (Hf : In paper (List.filter (fun paper => negb (has_paper st (sp_id paper)))
                                       (h_sourcePapers h))).
    { apply filter_In. split; [by apply list_elem_of_In|]. unfold has_paper. by rewrite Hp. }
    rewrite E in Hf. inversion Hf.
  - intros Hall. induction (h_sourcePapers h) as [|p l IH]; [done|].
    cbn. unfold has_paper at 1. destruct (Hall p) as [p' ->]; [left|]. cbn.
    apply IH. intros paper Hin. apply Hall. by right.
Qed.

Lemma addHypothesis_accepted (h : HypothesisWithSources) (st : ResearchDataStore) :
  missingPapers st h = [] ->
  addHypothesis h st
  = (fold_left (fun acc paper => wire h paper acc) (h_sourcePapers h) (registered h st),
     Returned (withNodeId h)).
Proof.
  intros E. unfold addHypothesis, mbind, Js_bind, bind, gets. rewrite E. cbn.
  erewrite forEach_cons; [reflexivity|].
  intros paper st0. reflexivity.
Qed.

Lemma addHypothesis_rejected (h : HypothesisWithSources) (st : ResearchDataStore) :
  missingPapers st h <> [] -> fst (addHypothesis h st) = st.
Proof.
  intros Hne. unfold addHypothesis, mbind, Js_bind, bind, gets.
  by destruct (missingPapers st h).
Qed.

Lemma has_node_alter f j i st :
  has_node (set_knowledgeGraph (alter f j) st) i <-> has_node st i.
Proof.
  unfold has_node. cbn. rewrite lookup_alter. case_decide; [|done].
  subst. by rewrite fmap_is_Some.
Qed.

Lemma has_node_insert j fresh i st :
  has_node st i -> has_node (set_knowledgeGraph (insert j fresh) st) i.
Proof. apply persists_insert. Qed.

Lemma has_node_wire h paper st i : has_node (wire h paper st) i <-> has_node st i.
Proof. unfold wire. by rewrite !has_node_alter. Qed.

Lemma has_node_fold_wire h l i : forall st,
  has_node (fold_left (fun acc paper => wire h paper acc) l st) i <-> has_node st i.
Proof.
  induction l as [|p l IH]; intros st; cbn; [done|]. by rewrite IH, has_node_wire.
Qed.

Lemma fold_wire_tables h l : forall st,
  papers (fold_left (fun acc paper => wire h paper acc) l st) = papers st /\
  hypotheses (fold_left (fun acc paper => wire h paper acc) l st) = hypotheses st.
Proof.
  induction l as [|p l IH]; intros st; cbn; [done|]. by destruct (IH (wire h p st)) as [-> ->].
Qed.

(** A node after one round of the wiring loop. *)
Lemma wire_node h paper st k node :
  knowledgeGraph (wire h paper st) !! k = Some node ->
  exists node0,
    knowledgeGraph st !! k = Some node0 /\
    n_id node = n_id node0 /\
    n_metadata node = n_metadata node0 /\
    forall c, c ∈ n_connections node ->
      c ∈ n_connections node0 \/ c = paperNodeId (sp_id paper) \/ c = hypothesisNodeId (h_id h).
Proof.
  unfold wire. cbn. rewrite !lookup_alter.
  assert (Hfinish : forall node0 : KnowledgeGraphNode,
            n_id node = n_id node0 -> n_metadata node = n_metadata node0 ->
            (forall c, c ∈ n_connections node ->
               c ∈ n_connections node0 \/ c = paperNodeId (sp_id paper)
               \/ c = hypothesisNodeId (h_id h)) ->
            exists node1, Some node0 = Some node1 /\ n_id node = n_id node1 /\
              n_metadata node = n_metadata node1 /\
              forall c, c ∈ n_connections node ->
                c ∈ n_connections node1 \/ c = paperNodeId (sp_id paper)
                \/ c = hypothesisNodeId (h_id h)) by eauto.
  destruct (decide (paperNodeId (sp_id paper) = k)) as [<-|Hp].
  - rewrite decide_False by (intros E; symmetry in E; by apply node_ids_differ in E).
    destruct (knowledgeGraph st !! paperNodeId (sp_id paper)) as [node0|]; cbn; [|done].
    intros [= <-]. apply Hfinish; cbn; [done | done |].
    intros c. rewrite elem_of_app, list_elem_of_singleton. tauto.
  - destruct (decide (hypothesisNodeId (h_id h) = k)) as [<-|Hh].
    + destruct (knowledgeGraph st !! hypothesisNodeId (h_id h)) as [node0|]; cbn; [|done].
      intros [= <-]. apply Hfinish; cbn; [done | done |].
      intros c. rewrite elem_of_app, list_elem_of_singleton. tauto.
    + intros ->. apply Hfinish; auto.
Qed.

Lemma wire_consistent h paper st :
  consistent st ->
  has_node st (hypothesisNodeId (h_id h)) ->
  has_node st (paperNodeId (sp_id paper)) ->
  consistent (wire h paper st).
Proof.
  intros [] Hh Hp. split.
  - done.
  - intros k p Hk. apply has_node_wire. eauto.
  - done.
  - intros k h0 Hk. rewrite has_node_wire. eauto.
  - intros k h0 node Hk Hnode.
    destruct (wire_node _ _ _ _ _ Hnode) as (node0 & H0 & _ & -> & _). eauto.
  - done.
  - intros k c. unfold wire. cbn. rewrite lookup_insert.
    fold (wire h paper st). case_decide as E.
    + intros [= <-]. cbn. by rewrite !has_node_wire.
    + rewrite !has_node_wire. eauto.
  - intros k c. unfold wire. cbn. rewrite lookup_insert. case_decide as E.
    + intros [= <-]. subst k. cbn [connectionFor c_sourceId c_targetId c_type].
      split; [done|]. split; [done|]. eauto.
    + eauto.
  - intros k node Hnode.
    destruct (wire_node _ _ _ _ _ Hnode) as (node0 & H0 & -> & _). eauto.
  - intros k node c Hnode Hc. apply has_node_wire.
    destruct (wire_node _ _ _ _ _ Hnode) as (node0 & H0 & _ & _ & Hcs).
    destruct (Hcs c Hc) as [Hold|[->| ->]]; eauto.
Qed.

Lemma fold_wire_consistent h l : forall st,
  consistent st ->
  has_node st (hypothesisNodeId (h_id h)) ->
  (forall paper, paper ∈ l -> has_node st (paperNodeId (sp_id paper))) ->
  consistent (fold_left (fun acc paper => wire h paper acc) l st).
Proof.
  induction l as [|p l IH]; intros st Hst Hh Hl; cbn; [done|].
  apply IH.
  - apply wire_consistent; [done | done | apply Hl; left].
  - by apply has_node_wire.
  - intros paper Hin. apply has_node_wire, Hl. by right.
Qed.

Lemma hypothesisNodeId_inj a b : hypothesisNodeId a = hypothesisNodeId b -> a = b.
Proof. unfold hypothesisNodeId. intros E. by simplify_eq. Qed.

Lemma registered_consistent h st :
  consistent st ->
  (forall paper, paper ∈ h_sourcePapers h -> is_Some (papers st !! sp_id paper)) ->
  consistent (registered h st).
Proof.
  intros [] Hsources. unfold registered. split; cbn.
  - done.
  - intros k p Hk. apply (has_node_insert _ _ _ (set_hypotheses _ st)). eauto.
  - intros k h0. rewrite lookup_insert. case_decide as E; [intros [= <-]; by subst | eauto].
  - intros k h0. rewrite lookup_insert. case_decide as E.
    + intros [= <-]. subst k. split; [done|]. unfold has_node. cbn.
      rewrite lookup_insert_eq. eauto.
    + intros Hk. split; [by eapply hypothesis_has_node0|].
      apply (has_node_insert _ _ _ (set_hypotheses _ st)). by eapply hypothesis_has_node0.
  - intros k h0 node. rewrite !lookup_insert. case_decide as E.
    + intros [= <-]. subst k. rewrite decide_True by done. by intros [= <-].
    + rewrite decide_False by (intros E'; by apply hypothesisNodeId_inj in E'). eauto.
  - intros k h0 p. rewrite lookup_insert. case_decide as E; [intros [= <-]; cbn; eauto | eauto].
  - intros k c Hk. destruct (connection_endpoints0 k c Hk).
    split; by apply (has_node_insert _ _ _ (set_hypotheses _ st)).
  - done.
  - intros k node. rewrite lookup_insert. case_decide as E; [by intros [= <-] | eauto].
  - intros k node c. rewrite lookup_insert. case_decide as E.
    + intros [= <-]. cbn. by intros Hc%elem_of_nil.
    + intros Hk Hc. apply (has_node_insert _ _ _ (set_hypotheses _ st)). eauto.
Qed.

Lemma addPaper_consistent paper st : consistent st -> consistent (fst (addPaper paper st)).
Proof.
  intros []. unfold addPaper, mbind, Js_bind, bind, modify. cbn [fst]. split; cbn.
  - intros k p. rewrite lookup_insert. case_decide as E; [by intros [= <-] | eauto].
  - intros k p. rewrite lookup_insert. case_decide as E.
    + intros _. subst k. unfold has_node. cbn. rewrite lookup_insert_eq. eauto.
    + intros Hk. apply (has_node_insert _ _ _ (set_papers _ st)). eauto.
  - done.
  - intros k h Hk. split; [by eapply hypothesis_has_node0|].
    apply (has_node_insert _ _ _ (set_papers _ st)). by eapply hypothesis_has_node0.
  - intros k h node Hk. rewrite lookup_insert_ne by apply node_ids_differ. eauto.
  - intros k h p Hk Hin. rewrite lookup_insert. case_decide; eauto.
  - intros k c Hk. destruct (connection_endpoints0 k c Hk).
    split; by apply (has_node_insert _ _ _ (set_papers _ st)).
  - done.
  - intros k node. rewrite lookup_insert. case_decide as E; [by intros [= <-] | eauto].
  - intros k node c. rewrite lookup_insert. case_decide as E.
    + intros [= <-]. cbn. by intros Hc%elem_of_nil.
    + intros Hk Hc. apply (has_node_insert _ _ _ (set_papers _ st)). eauto.
Qed.

Lemma addHypothesis_consistent h st : consistent st -> consistent (fst (addHypothesis h st)).
Proof.
  intros Hst. destruct (missingPapers st h) as [|m ms] eqn:E.
  - rewrite addHypothesis_accepted by done. cbn [fst].
    pose proof (proj1 (missingPapers_nil st h) E) as Hsources.
    assert (Hh : has_node (registered h st) (hypothesisNodeId (h_id h))).
    { unfold has_node, registered. cbn. rewrite lookup_insert_eq. eauto. }
    apply fold_wire_consistent; [by apply registered_consistent | done |].
    intros paper Hin. apply (has_node_insert _ _ _ (set_hypotheses _ st)).
    destruct (Hsources paper Hin) as [p Hp].
    destruct Hst. eauto.
  - rewrite addHypothesis_rejected; [done | by rewrite E].
Qed.

(** With the confidence it already records, a node is left as it is. *)
Lemma set_node_confidence_same c node :
  md_confidence (n_metadata node) = Some c -> set_node_confidence c node = node.
Proof. destruct node as [? ? ? ? ? [] ?]. cbn. by intros ->. Qed.

Lemma updateHypothesisStatus_graph hid status now st :
  consistent st ->
  knowledgeGraph (fst (updateHypothesisStatus hid status now st)) = knowledgeGraph st.
Proof.
  intros Hst. unfold updateHypothesisStatus, mbind, Js_bind, bind, gets.
  destruct (hypotheses st !! hid) as [h|] eqn:Hh; cbn; [|done].
  destruct (hypothesis_has_node st Hst hid h Hh) as [-> [node Hnode]]. cbn.
  apply map_eq. intros i. rewrite lookup_alter. case_decide as E; [|done].
  subst i. rewrite Hnode. cbn. f_equal. apply set_node_confidence_same.
  by eapply hypothesis_node_confidence.
Qed.

Lemma updateHypothesisStatus_consistent hid status now st :
  consistent st -> consistent (fst (updateHypothesisStatus hid status now st)).
Proof.
  intros Hst. pose proof (updateHypothesisStatus_graph hid status now st Hst) as Hgraph.
  revert Hgraph. unfold updateHypothesisStatus, mbind, Js_bind, bind, gets.
  destruct (hypotheses st !! hid) as [h|] eqn:Hh; cbn; [|done].
  destruct (hypothesis_has_node st Hst hid h Hh) as [Hid _]. rewrite Hid. cbn.
  intros Hgraph.
  assert (Hlookup : forall k h0 (P : Prop),
            (k = hid -> forall h', h_id h' = h_id h -> h_confidence h' = h_confidence h ->
               h_sourcePapers h' = h_sourcePapers h ->
               h_knowledgeGraphNodeId h' = Some (hypothesisNodeId hid) -> h0 = h' -> P) ->
            (hypotheses st !! k = Some h0 -> P) ->
            hypotheses (fst (updateHypothesisStatus hid status now st)) !! k = Some h0 -> P).
  { intros k h0 P Hnew Hold. unfold updateHypothesisStatus, mbind, Js_bind, bind, gets.
    rewrite Hh, Hid. cbn. rewrite insert_insert_eq, lookup_insert.
    case_decide as E; [|done]. intros [= <-]. subst k.
    eapply Hnew; [..|reflexivity]; done. }
  unfold updateHypothesisStatus, mbind, Js_bind, bind, gets in Hlookup.
  rewrite Hh, Hid in Hlookup. cbn in Hlookup.
  destruct Hst. split; cbn; unfold has_node; cbn; rewrite ?Hgraph; try done.
  - intros k h0. refine (Hlookup k h0 _ _ _); [|eauto].
    intros -> h' Hi _ _ _ ->. rewrite Hi. eauto.
  - intros k h0. refine (Hlookup k h0 _ _ _); [|eauto].
    intros -> h' _ _ _ Hn ->. split; [done|]. by eapply hypothesis_has_node0.
  - intros k h0 node. refine (Hlookup k h0 _ _ _); [|eauto].
    intros -> h' _ Hc _ _ ->. rewrite Hc. eauto.
  - intros k h0 p. refine (Hlookup k h0 _ _ _); [|eauto].
    intros -> h' _ _ Hs _ ->. rewrite Hs. eauto.
Qed.

Lemma emptyStore_consistent : consistent emptyStore.
Proof. split; cbn; intros *; by rewrite ?lookup_empty. Qed.

Lemma reachable_is_consistent st : reachable st -> consistent st.
Proof.
  induction 1.
  - apply emptyStore_consistent.
  - by apply addPaper_consistent.
  - by apply addHypothesis_consistent.
  - by apply updateHypothesisStatus_consistent.
  - apply emptyStore_consistent.
Qed.

Lemma connectionFor_same_id h nodeId first second :
  sp_id first = sp_id second -> connectionFor h nodeId first = connectionFor h nodeId second.
Proof. intros E. unfold connectionFor. by rewrite E. Qed.

Lemma connectionId_inj h first second :
  connectionId h first = connectionId h second -> sp_id first = sp_id second.
Proof. unfold connectionId, paperNodeId. intros E. by simplify_eq. Qed.

(** Once a source is wired its connection stays, whichever sources follow. *)
Lemma fold_wire_connection_kept h paper l : forall st,
  connections st !! connectionId h paper
  = Some (connectionFor h (hypothesisNodeId (h_id h)) paper) ->
  connections (fold_left (fun acc paper => wire h paper acc) l st) !! connectionId h paper
  = Some (connectionFor h (hypothesisNodeId (h_id h)) paper).
Proof.
  induction l as [|p l IH]; intros st Hst; cbn; [done|].
  apply IH. unfold wire. cbn. fold (connectionId h p). rewrite lookup_insert.
  case_decide as E; [|done].
  f_equal. by apply connectionFor_same_id, (connectionId_inj h).
Qed.

Lemma fold_wire_connection h paper l : forall st,
  paper ∈ l ->
  connections (fold_left (fun acc paper => wire h paper acc) l st) !! connectionId h paper
  = Some (connectionFor h (hypothesisNodeId (h_id h)) paper).
Proof.
  induction l as [|p l IH]; intros st Hin; [by apply elem_of_nil in Hin|].
  cbn. apply elem_of_cons in Hin as [->|Hin]; [|by apply IH].
  apply fold_wire_connection_kept. unfold wire. cbn. fold (connectionId h p).
  apply lookup_insert_eq.
Qed.

(** The hypothesis node collects the paper nodes in the order of the sources. *)
Lemma fold_wire_hypothesis_node h l : forall st node,
  knowledgeGraph st !! hypothesisNodeId (h_id h) = Some node ->
  exists node',
    knowledgeGraph (fold_left (fun acc paper => wire h paper acc) l st)
      !! hypothesisNodeId (h_id h) = Some node' /\
    n_type node' = n_type node /\
    n_connections node'
    = (n_connections node ++ map (fun paper => paperNodeId (sp_id paper)) l)%list.
Proof.
  induction l as [|p l IH]; intros st node Hnode; cbn.
  - exists node. by rewrite app_nil_r.
  - destruct (IH (wire h p st) (push_connection (paperNodeId (sp_id p)) node))
      as (node' & Hnode' & Htype & Hconn).
    { unfold wire. cbn. rewrite lookup_alter_ne by apply node_ids_differ.
      by rewrite lookup_alter_eq, Hnode. }
    exists node'. split; [done|]. split; [done|].
    rewrite Hconn. cbn. by rewrite <- app_assoc.
Qed.

Lemma wire_paper_node h paper st :
  has_node st (paperNodeId (sp_id paper)) ->
  exists paperNode,
    knowledgeGraph (wire h paper st) !! paperNodeId (sp_id paper) = Some paperNode /\
    hypothesisNodeId (h_id h) ∈ n_connections paperNode.
Proof.
  intros [node Hnode]. unfold wire. cbn. rewrite lookup_alter_eq.
  rewrite lookup_alter_ne by (intros E; symmetry in E; by apply node_ids_differ in E).
  rewrite Hnode. cbn. eexists. split; [done|]. cbn. apply elem_of_app. right. left.
Qed.

Lemma fold_wire_paper_node h paper l : forall st,
  paper ∈ l ->
  has_node st (paperNodeId (sp_id paper)) ->
  exists paperNode,
    knowledgeGraph (fold_left (fun acc paper => wire h paper acc) l st)
      !! paperNodeId (sp_id paper) = Some paperNode /\
    hypothesisNodeId (h_id h) ∈ n_connections paperNode.
Proof.
  induction l as [|p l IH]; intros st Hin Hnode; [by apply elem_of_nil in Hin|].
  cbn. apply elem_of_cons in Hin as [->|Hin]; [|by apply IH, has_node_wire].
  destruct (wire_paper_node h p st Hnode) as (paperNode & Hp & Hc).
  destruct (fold_left_grows (paperNodeId (sp_id p)) (wire h) l (wire h p st)
              (fun x st0 => wire_grows _ h x st0) paperNode Hp) as (node' & Hnode' & Hsub).
  exists node'. split; [done|]. by apply Hsub.
Qed.

(** X3. When every source paper of a hypothesis is stored, [addHypothesis]
    returns the hypothesis with its node id [hypothesis_<id>] set, and
    afterwards: [getHypothesis] returns it; the papers are untouched; the
    hypothesis node lists the paper nodes of the sources, in order; and for
    each source there is the connection [hypothesis_<id>_to_paper_<paperId>],
    and the paper's node lists the hypothesis node. *)
Theorem addHypothesis_links (h : HypothesisWithSources) (st : ResearchDataStore) :
  reachable st ->
  (forall paper, paper ∈ h_sourcePapers h -> is_Some (papers st !! sp_id paper)) ->
  let st' := fst (addHypothesis h st) in
  snd (addHypothesis h st) = Returned (withNodeId h) /\
  snd (getHypothesis (h_id h) st') = Returned (Some (withNodeId h)) /\
  papers st' = papers st /\
  (exists node, knowledgeGraph st' !! hypothesisNodeId (h_id h) = Some node /\
                n_type node = nt_hypothesis /\
                n_connections node
                = map (fun paper => paperNodeId (sp_id paper)) (h_sourcePapers h)) /\
  (forall paper, paper ∈ h_sourcePapers h ->
     connections st' !! connectionId h paper
     = Some (connectionFor h (hypothesisNodeId (h_id h)) paper) /\
     exists paperNode,
       knowledgeGraph st' !! paperNodeId (sp_id paper) = Some paperNode /\
       hypothesisNodeId (h_id h) ∈ n_connections paperNode).
Proof.
  intros Hreach Hsources st'. subst st'.
  rewrite addHypothesis_accepted by by apply missingPapers_nil.
  cbn [fst snd]. split; [done|].
  destruct (fold_wire_tables h (h_sourcePapers h) (registered h st)) as [Hpapers Hhyps].
  split; [|split; [exact Hpapers|split]].
  - unfold getHypothesis, gets. cbn [snd]. rewrite Hhyps. cbn. by rewrite lookup_insert_eq.
  - destruct (fold_wire_hypothesis_node h (h_sourcePapers h) (registered h st)
                (freshHypothesisNode h)) as (node & Hnode & Htype & Hconn).
    { unfold registered. cbn. apply lookup_insert_eq. }
    exists node. by rewrite Hnode, Htype, Hconn.
  - intros paper Hin. split; [by apply fold_wire_connection|].
    apply fold_wire_paper_node; [done|].
    apply (has_node_insert _ _ _ (set_hypotheses _ st)).
    destruct (Hsources paper Hin) as [p Hp].
    by eapply (paper_has_node st (reachable_is_consistent st Hreach)).
Qed.

Lemma addHypothesis_links_witness :
  let st' := fst (addHypothesis Scenario.hypothesisA Scenario.storeE) in
  connections st' !! "hypothesis_h1_to_paper_a"
  = Some (connectionFor Scenario.hypothesisA "hypothesis_h1" Scenario.paperA) /\
  exists paperNode, knowledgeGraph st' !! "paper_a" = Some paperNode /\
                    "hypothesis_h1" ∈ n_connections paperNode.
Proof.
  destruct (addHypothesis_links Scenario.hypothesisA Scenario.storeE) as (_ & _ & _ & _ & H).
  - apply (reachable_addPaper emptyStore), reachable_new.
  - intros paper Hin. apply list_elem_of_singleton in Hin as ->. vm_compute. eauto.
  - apply (H Scenario.paperA). left.
Defined.

(** *** Stores reached through the methods *)

(** X4. In every store built from the empty one by [addPaper],
    [addHypothesis], [updateHypothesisStatus] and [clearAll], no reference
    dangles: each graph connection goes from an existing hypothesis node to an
    existing paper node and is stored under [<source>_to_<target>]; each id in
    a node's connections list names an existing node; each stored hypothesis is
    keyed by its id, carries its node id, has its node, and has all its source
    papers stored; each stored paper is keyed by its id and has its node. *)
Theorem reachable_references_resolve (st : ResearchDataStore) :
  reachable st ->
  (forall k c, connections st !! k = Some c ->
     k = c_sourceId c +:+ "_to_" +:+ c_targetId c /\
     (exists hypothesisId, c_sourceId c = hypothesisNodeId hypothesisId) /\
     (exists paperId, c_targetId c = paperNodeId paperId) /\
     is_Some (knowledgeGraph st !! c_sourceId c) /\
     is_Some (knowledgeGraph st !! c_targetId c)) /\
  (forall k node c, knowledgeGraph st !! k = Some node -> c ∈ n_connections node ->
     n_id node = k /\ is_Some (knowledgeGraph st !! c)) /\
  (forall k h, hypotheses st !! k = Some h ->
     h_id h = k /\
     h_knowledgeGraphNodeId h = Some (hypothesisNodeId k) /\
     is_Some (knowledgeGraph st !! hypothesisNodeId k) /\
     forall paper, paper ∈ h_sourcePapers h -> is_Some (papers st !! sp_id paper)) /\
  (forall k paper, papers st !! k = Some paper ->
     sp_id paper = k /\ is_Some (knowledgeGraph st !! paperNodeId k)).
Proof.
  intros Hreach. destruct (reachable_is_consistent st Hreach).
  split; [|split; [|split]].
  - intros k c Hk. destruct (connection_shape0 k c Hk) as (Hkey & _ & hid & pid & Hs & Ht).
    destruct (connection_endpoints0 k c Hk). eauto 10.
  - intros k node c Hk Hc. split; [eauto|]. by eapply node_connections_resolve0.
  - intros k h Hk. destruct (hypothesis_has_node0 k h Hk). eauto 10.
  - intros k paper Hk. split; [eauto|]. by eapply paper_has_node0.
Qed.

Lemma reachable_references_resolve_witness :
  is_Some (knowledgeGraph (fst (addHypothesis Scenario.hypothesisA Scenario.storeE))
             !! "paper_a").
Proof.
  destruct (reachable_references_resolve
              (fst (addHypothesis Scenario.hypothesisA Scenario.storeE))) as [H _].
  - apply reachable_addHypothesis, (reachable_addPaper emptyStore), reachable_new.
  - destruct (H "hypothesis_h1_to_paper_a"
                (connectionFor Scenario.hypothesisA "hypothesis_h1" Scenario.paperA))
      as (_ & _ & _ & _ & Ht); [vm_compute; reflexivity | exact Ht].
Defined.

(** X5. In such a store [updateHypothesisStatus] leaves the knowledge graph,
    the papers and the connections exactly as they are (the confidence it
    writes to the node is the one the node already records); an unknown id
    changes nothing at all, and a known one has its status and update time
    replaced and every other field kept. *)
Theorem updateHypothesisStatus_effect
    (hypothesisId : string) (newStatus : HypothesisStatus) (now : string)
    (st : ResearchDataStore) :
  reachable st ->
  let st' := fst (updateHypothesisStatus hypothesisId newStatus now st) in
  knowledgeGraph st' = knowledgeGraph st /\
  papers st' = papers st /\
  connections st' = connections st /\
  (forall k, k <> hypothesisId -> hypotheses st' !! k = hypotheses st !! k) /\
  match hypotheses st !! hypothesisId with
  | None => st' = st
  | Some h =>
      hypotheses st' !! hypothesisId
      = Some {| h_id := h_id h; h_title := h_title h; h_description := h_description h;
                h_status := newStatus; h_confidence := h_confidence h;
                h_sourcePapers := h_sourcePapers h;
                h_extractedEvidence := h_extractedEvidence h; h_tags := h_tags h;
                h_createdAt := h_createdAt h; h_updatedAt := now;
                h_knowledgeGraphNodeId := h_knowledgeGraphNodeId h |}
  end.
Proof.
  intros Hreach st'. subst st'.
  split; [by apply updateHypothesisStatus_graph, reachable_is_consistent|].
  unfold updateHypothesisStatus, mbind, Js_bind, bind, gets.
  destruct (hypotheses st !! hypothesisId) as [h|] eqn:Hh; cbn; [|done].
  destruct (h_knowledgeGraphNodeId h); cbn;
    (split; [done|]); (split; [done|]);
    (split; [intros k Hk; by rewrite !lookup_insert_ne|]);
    apply lookup_insert_eq.
Qed.

Lemma updateHypothesisStatus_effect_witness :
  knowledgeGraph (fst (updateHypothesisStatus "h1" validated "2024-02-02T00:00:00.000Z"
                         (fst (addHypothesis Scenario.hypothesisA Scenario.storeE))))
  = knowledgeGraph (fst (addHypothesis Scenario.hypothesisA Scenario.storeE)).
Proof.
  apply (updateHypothesisStatus_effect "h1" validated "2024-02-02T00:00:00.000Z"
           (fst (addHypothesis Scenario.hypothesisA Scenario.storeE))).
  apply reachable_addHypothesis, (reachable_addPaper emptyStore), reachable_new.
Defined.

(** *** Search *)

Lemma elem_of_values {V} (m : gmap string V) (x : V) :
  x ∈ values m <-> exists k, m !! k = Some x.
Proof.
  unfold values. rewrite list_elem_of_fmap. split.
  - intros ([k y] & -> & Hin). exists k. by apply elem_of_map_to_list.
  - intros [k Hk]. exists (k, x). split; [done|]. by apply elem_of_map_to_list.
Qed.

(** X6. [searchByTerm] returns exactly the stored papers in which the
    lower-cased term occurs in the lower-cased title, text or one of the
    authors, and leaves the store alone. *)
Theorem searchByTerm_papers (term : string) (st : ResearchDataStore) (paper : SourcePaper) :
  let occursIn (s : string) :=
    exists before after,
      JsString.toLowerCase s = before +:+ JsString.toLowerCase term +:+ after in
  fst (searchByTerm term st) = st /\
  exists result,
    snd (searchByTerm term st) = Returned result /\
    (paper ∈ found_papers result <->
     (exists id, snd (getPaper id st) = Returned (Some paper)) /\
     (occursIn (sp_title paper) \/ occursIn (sp_extractedText paper) \/
      exists author, author ∈ sp_authors paper /\ occursIn author)).
Proof.
  cbn zeta. split; [done|]. eexists. split; [reflexivity|].
  cbn [found_papers]. unfold getPaper, gets. cbn [snd].
  rewrite list_elem_of_In, filter_In, <- list_elem_of_In, elem_of_values.
  unfold paperMatches. rewrite !orb_true_iff, !StringFacts.includes_spec, existsb_exists.
  split.
  - intros [[id Hid] Hmatch]. split; [exists id; by rewrite Hid|].
    destruct Hmatch as [[Ht|Hx]|(author & Hin & Ha)]; [tauto | tauto |].
    right. right. exists author. split; [by apply list_elem_of_In|].
    by apply StringFacts.includes_spec.
  - intros [[id Hid] Hmatch]. split; [exists id; by injection Hid|].
    destruct Hmatch as [Ht|[Hx|(author & Hin & Ha)]]; [tauto | tauto |].
    right. exists author. split; [by apply list_elem_of_In|].
    by apply StringFacts.includes_spec.
Qed.

(** An empty term occurs in every title: the search returns every paper. *)
Lemma includes_empty s : JsString.includes s "" = true.
Proof. apply StringFacts.includes_spec. by exists "", s. Qed.

(** X7. Searching for the empty term returns every stored paper and every
    stored hypothesis. *)
Theorem searchByTerm_empty_term (st : ResearchDataStore) :
  exists result,
    snd (searchByTerm "" st) = Returned result /\
    (forall id paper, papers st !! id = Some paper -> paper ∈ found_papers result) /\
    (forall id h, hypotheses st !! id = Some h -> h ∈ found_hypotheses result).
Proof.
  eexists. split; [reflexivity|]. cbn [found_papers found_hypotheses]. split.
  - intros id paper Hid. apply list_elem_of_In, filter_In. split.
    + apply list_elem_of_In, elem_of_values. eauto.
    + unfold paperMatches. change (JsString.toLowerCase "") with "".
      by rewrite includes_empty.
  - intros id h Hid. apply list_elem_of_In, filter_In. split.
    + apply list_elem_of_In, elem_of_values. eauto.
    + unfold hypothesisMatches. change (JsString.toLowerCase "") with "".
      by rewrite includes_empty.
Qed.

(** *** The evidence returned by the validation *)

Lemma examine_evidence words papers : forall acc,
  t_supportingEvidence (fold_left (examine words) papers acc)
  = (t_supportingEvidence acc ++
     flat_map (fun paper =>
                 match foundConcepts words paper with
                 | [] => []
                 | first :: _ =>
                     map (fun section => {| se_paperId := sp_id paper;
                                            se_evidenceText := section;
                                            se_relevance := paperRelevance words paper |})
                         (List.filter (fun section =>
                                         JsString.includes (JsString.toLowerCase section) first)
                                      (sp_relevantSections paper))
                 end) papers)%list.
Proof.
  induction papers as [|paper papers IH]; intros acc; cbn [fold_left flat_map].
  - by rewrite app_nil_r.
  - rewrite IH. unfold examine, paperRelevance.
    destruct (foundConcepts words paper) as [|first rest]; cbn.
    + done.
    + by rewrite <- app_assoc.
Qed.

(** X8. The supporting evidence of a validation is made of the sections of
    the source papers: an entry stands for a section of a paper with at least
    one matched word, the section holds the first matched word of that paper
    (lower-cased; the other matched words are not looked for), and the entry
    carries the paper's id and the paper's relevance. *)
Theorem supportingEvidence_spec
    (hypothesisText : string) (sourcePapers : list SourcePaper) (e : SupportingEvidence) :
  let words := hypothesisWords hypothesisText in
  e ∈ supportingEvidence (validateHypothesisAgainstSources hypothesisText sourcePapers) <->
  exists paper first rest,
    paper ∈ sourcePapers /\
    foundConcepts words paper = first :: rest /\
    se_paperId e = sp_id paper /\
    se_evidenceText e ∈ sp_relevantSections paper /\
    (exists before after,
       JsString.toLowerCase (se_evidenceText e) = before +:+ first +:+ after) /\
    se_relevance e = paperRelevance words paper.
Proof.
  cbn zeta. unfold validateHypothesisAgainstSources. cbn [supportingEvidence].
  rewrite examine_evidence. cbn [t_supportingEvidence app].
  rewrite list_elem_of_In, in_flat_map. split.
  - intros (paper & Hpaper & Hin). apply list_elem_of_In in Hpaper.
    destruct (foundConcepts (hypothesisWords hypothesisText) paper) as [|first rest] eqn:Hfound;
      [done|].
    apply in_map_iff in Hin as (section & <- & Hsection).
    apply filter_In in Hsection as [Hsection Hfirst].
    apply StringFacts.includes_spec in Hfirst. apply list_elem_of_In in Hsection.
    exists paper, first, rest. cbn. eauto 10.
  - intros (paper & first & rest & Hpaper & Hfound & Hid & Hsection & Hfirst & Hrel).
    exists paper. split; [by apply list_elem_of_In|]. rewrite Hfound.
    apply in_map_iff. exists (se_evidenceText e). split.
    + destruct e as [i t r]. cbn in *. by rewrite Hid, Hrel.
    + apply filter_In. split; [by apply list_elem_of_In|].
      by apply StringFacts.includes_spec.
Qed.

(** *** The range of the confidence *)

Lemma examine_sign_clear words papers : forall acc,
  JsNumber.sign_clear (t_totalRelevance acc) ->
  JsNumber.sign_clear (t_totalRelevance (fold_left (examine words) papers acc)).
Proof.
  induction papers as [|paper papers IH]; intros acc Hacc; cbn [fold_left]; [done|].
  apply IH. unfold examine. destruct (foundConcepts words paper) as [|w found]; cbn; [done|].
  apply NumberFacts.add_sign_clear; [done|].
  apply NumberFacts.div_sign_clear; apply NumberFacts.of_nat_sign_clear.
Qed.

(** X19. Whatever the hypothesis and the papers, the confidence of a
    validation is NaN or lies between 0 and 95. *)
Theorem confidence_range (hypothesisText : string) (sourcePapers : list SourcePaper) :
  let c := confidence (validateHypothesisAgainstSources hypothesisText sourcePapers) in
  PrimFloat.is_nan c = true \/ (PrimFloat.leb 0 c = true /\ PrimFloat.leb c 95 = true).
Proof.
  cbn zeta. unfold validateHypothesisAgainstSources. cbn [confidence].
  match goal with |- context [JsNumber.Math_min ?x ?y] =>
    destruct (NumberFacts.Math_min_bounded x y) as [Hnan|(H0 & _ & H95)] end.
  - apply NumberFacts.mul_sign_clear; [|by cbv].
    apply NumberFacts.div_sign_clear; [|apply NumberFacts.of_nat_sign_clear].
    apply examine_sign_clear. by cbv.
  - by cbv.
  - by left.
  - by right.
Qed.

End StoreFacts.

(** ** The retrieval service *)

Module RagFacts.
Import JsString Regex Rag.

(** C4. On the query "BRCA1 mutation" and a text that contains the phrase,
    the loop of [calculateAdvancedRelevance] ends with a raw score of 10:
    2 + 2 for the two exact tokens and the phrase bonus of 3 twice, once per
    query word; with the bonus added once the raw score is 7. *)
Theorem phrase_bonus_is_added_per_query_word :
  includes (toLowerCase Scenario.textD) (toLowerCase Scenario.queryD) = true /\
  queryWords Scenario.queryD = ["brca1"; "mutation"] /\
  rawScore Scenario.queryD Scenario.textD = 10%float /\
  specifiedRawScore Scenario.queryD Scenario.textD = 7%float.
Proof. vm_compute. done. Qed.

(** With a single query word the loop adds the bonus once. *)
Lemma rawScore_single_word :
  rawScore "BRCA1" "the BRCA1 gene" = specifiedRawScore "BRCA1" "the BRCA1 gene".
Proof. vm_compute. reflexivity. Qed.

(** C6. Normalizing "covid19pandemic data" gives "covid 19pandemic data":
    the digit-then-letter rule needs a word boundary before the digits and
    runs before the letter-then-digit rule creates one. Normalizing again
    gives "covid 19 pandemic data". *)
Theorem normalize_is_not_idempotent :
  normalize Scenario.runTogether = "covid 19pandemic data" /\
  normalize (normalize Scenario.runTogether) = "covid 19 pandemic data" /\
  normalize (normalize Scenario.runTogether) <> normalize Scenario.runTogether.
Proof. vm_compute. repeat split. discriminate. Qed.

(** The same input separates the two passes of [preprocessTextForSearch]. *)
Lemma preprocessTextForSearch_is_not_idempotent :
  preprocessTextForSearch (preprocessTextForSearch Scenario.runTogether)
  <> preprocessTextForSearch Scenario.runTogether.
Proof. vm_compute. discriminate. Qed.

(** The cleaning of the edge function collapses white space before it blanks
    the characters it rejects, so two rejected characters in a row leave two
    spaces, which a second pass collapses. *)
Lemma cleanExtractedText_is_not_idempotent :
  Pdf.cleanExtractedText "alpha@@beta" = "alpha  beta" /\
  Pdf.cleanExtractedText (Pdf.cleanExtractedText "alpha@@beta") = "alpha beta".
Proof. vm_compute. done. Qed.

(** *** Sectioning *)

Lemma chunkSections_nonempty index chunks : chunks <> [] -> chunkSections index chunks <> [].
Proof. by destruct chunks. Qed.

Lemma sections_nonempty_of_inline (text : string) :
  has_inline_character text = true -> extractRelevantSections text <> [].
Proof.
  intros Htext. unfold extractRelevantSections. cbn zeta.
  destruct (labelledSections text) as [|section sections]; [|done].
  cbn [length Nat.eqb app].
  apply chunkSections_nonempty.
  pose proof (RegexFacts.matchAll_chunk text Htext) as Hchunks.
  by destruct (matchAll _ text).
Qed.

(** The method is called on the result of [preprocessTextForSearch], which
    is trimmed: if it is not empty it starts with a character that is not
    white space, hence not a line terminator. *)
Lemma trimmed_has_inline_character (s : string) :
  trim s <> "" -> has_inline_character (trim s) = true.
Proof.
  destruct (trim s) as [|c t] eqn:E; [done|]. intros _.
  apply StringFacts.trim_head in E. cbn [has_inline_character].
  unfold is_space in E. unfold is_line_terminator.
  apply orb_false_iff in E as [E _]. apply orb_false_iff in E as [E _].
  unfold in_range in E.
  destruct (code c =? 10)%nat eqn:E10; [apply Nat.eqb_eq in E10; by rewrite E10 in E|].
  destruct (code c =? 13)%nat eqn:E13; [apply Nat.eqb_eq in E13; by rewrite E13 in E|].
  done.
Qed.

Lemma extractRelevantSections_after_preprocessing (text : string) :
  preprocessTextForSearch text <> "" ->
  extractRelevantSections (preprocessTextForSearch text) <> [].
Proof.
  intros Hne. apply sections_nonempty_of_inline.
  revert Hne. unfold preprocessTextForSearch. lazy zeta.
  apply trimmed_has_inline_character.
Qed.

(** C9. The sectioning is a private method whose only caller,
    [processPDFContent], passes it the text cleaned by
    [preprocessTextForSearch]. For every such text that is not empty it
    returns at least one section: a cleaned text is trimmed, so it starts
    with a character that is not white space, and when the header split and
    the paragraph split yield nothing the chunking pattern [.{1,1000}]
    matches there. *)
Theorem extractRelevantSections_nonempty (text : string) :
  preprocessTextForSearch text <> "" ->
  extractRelevantSections (preprocessTextForSearch text) <> [].
Proof.
  intros Hne. apply sections_nonempty_of_inline.
  revert Hne. unfold preprocessTextForSearch. lazy zeta.
  apply trimmed_has_inline_character.
Qed.

Lemma extractRelevantSections_nonempty_witness :
  extractRelevantSections (preprocessTextForSearch "Gene  expression,in tissue") <> [].
Proof.
  apply (extractRelevantSections_nonempty "Gene  expression,in tissue").
  vm_compute. discriminate.
Defined.

(** The hypothesis on the text matters to the method taken alone: a text that
    is one line feed has no header, no paragraph of more than 100 characters,
    and nothing for [.{1,1000}] to match. Cleaning turns it into the empty
    text. *)
Example line_feed_has_no_section :
  extractRelevantSections Scenario.lineFeed = [] /\
  preprocessTextForSearch Scenario.lineFeed = "".
Proof. vm_compute. done. Qed.

(** *** Ingestion of a paper *)

(** X9. [processPDFContent] leaves the store alone for a text of fewer than 10
    characters.  Otherwise the paper it stores carries the preprocessed text
    and the sections given or, when none was given, the sections cut from the
    preprocessed text; these are not empty unless the preprocessed text is. *)
Theorem processPDFContent_effect (sourcePaper : Store.SourcePaper) (st : Store.ResearchDataStore) :
  let st' := fst (processPDFContent sourcePaper st) in
  let processedText := preprocessTextForSearch (Store.sp_extractedText sourcePaper) in
  if (strlen (Store.sp_extractedText sourcePaper) <? 10)%Z then st' = st
  else
    exists stored,
      snd (Store.getPaper (Store.sp_id sourcePaper) st') = Store.Returned (Some stored) /\
      Store.sp_extractedText stored = processedText /\
      Store.sp_title stored = Store.sp_title sourcePaper /\
      Store.sp_relevantSections stored
      = (if (length (Store.sp_relevantSections sourcePaper) =? 0)%nat
         then extractRelevantSections processedText
         else Store.sp_relevantSections sourcePaper) /\
      (processedText <> "" -> Store.sp_relevantSections stored <> []).
Proof.
  cbn zeta. unfold processPDFContent.
  destruct (strlen (Store.sp_extractedText sourcePaper) <? 10)%Z; [done|].
  cbn zeta.
  destruct (length (Store.sp_relevantSections sourcePaper) =? 0)%nat eqn:E;
    (eexists; split;
     [unfold Store.bind, Store.addPaper, Store.getPaper, Store.gets, mbind, Store.Js_bind,
        Store.bind, Store.modify; cbn [fst snd Store.sp_id];
      cbn [Store.set_papers Store.set_knowledgeGraph Store.papers];
      f_equal; apply lookup_insert_eq|]);
    cbn [Store.sp_extractedText Store.sp_title Store.sp_relevantSections];
    (split; [done|]); (split; [done|]); (split; [done|]).
  - apply extractRelevantSections_after_preprocessing.
  - intros _ Hnil. by rewrite Hnil in E.
Qed.

(** *** Excerpts *)

Lemma strlen_substring0_le (n : Z) (s : string) :
  (strlen (substring0 n s) <= Z.max 0 n)%Z.
Proof. unfold strlen, substring0. rewrite StringFacts.length_substring0. lia. Qed.

(** X10. An excerpt is never longer than [maxLength] plus the three dots. *)
Theorem extractRelevantExcerpt_length (query text : string) (maxLength : Z) :
  (strlen (extractRelevantExcerpt query text maxLength) <= Z.max 0 maxLength + 3)%Z.
Proof.
  unfold extractRelevantExcerpt. cbn zeta.
  assert (Hcut : forall s, (strlen (substring0 maxLength s +:+ "...")
                            <= Z.max 0 maxLength + 3)%Z).
  { intros s. rewrite StringFacts.strlen_app.
    pose proof (strlen_substring0_le maxLength s).
    change (strlen "...") with 3%Z. lia. }
  destruct (List.filter _ (List.filter _ _)) as [|bestSentence rest]; [apply Hcut|].
  destruct (maxLength <? strlen _)%Z eqn:E; [apply Hcut|].
  apply Z.ltb_ge in E. lia.
Qed.

(** *** The guards of the relevance score *)

Lemma textWords_nonempty text : textWords text <> [].
Proof. unfold textWords. by apply RegexFacts.split_nonempty. Qed.

(** X11. The text-length guard of [calculateAdvancedRelevance] never applies:
    [split(/\s+/)] of any text, the empty one included, has an element.  The
    early 0 is returned exactly when the query has no word of more than two
    characters; every other call goes through the division. *)
Theorem calculateAdvancedRelevance_guards (query text : string) :
  (0 < length (textWords text))%nat /\
  calculateAdvancedRelevance query text
  = (if existsb (fun w => (2 <? strlen w)%Z) (split (plus space) (toLowerCase query))
     then
       let textLength := length (textWords text) in
       let normalizedScore :=
         (rawScore query text
          / (JsNumber.of_nat textLength * 0.01
             + JsNumber.of_nat (length (queryWords query))))%float in
       JsNumber.Math_min 1%float
         (normalizedScore
          * JsNumber.Math_min 1%float (1000 / JsNumber.of_nat textLength)%float)%float
     else 0%float).
Proof.
  pose proof (textWords_nonempty text) as Hne.
  split; [destruct (textWords text); [done | cbn; lia]|].
  unfold calculateAdvancedRelevance. cbn zeta.
  destruct (textWords text) as [|w ws] eqn:Htext; [done|].
  replace (length (w :: ws) =? 0)%nat with false by done. rewrite orb_false_r.
  unfold queryWords.
  generalize (split (plus space) (toLowerCase query)). intros l.
  induction l as [|q l IH]; [done|]. cbn [List.filter existsb].
  destruct (2 <? strlen q)%Z; [done|]. exact IH.
Qed.

(** *** The range of the relevance score *)

Lemma scoreWord_sign_clear query text score queryWord :
  JsNumber.sign_clear score -> JsNumber.sign_clear (scoreWord query text score queryWord).
Proof.
  intros Hscore. unfold scoreWord. cbn zeta.
  assert (Hsum : JsNumber.sign_clear
            (score
             + JsNumber.of_nat
                 (length (List.filter (fun word => String.eqb word queryWord) (textWords text)))
               * 2
             + JsNumber.of_nat
                 (length (List.filter (fun word => includes word queryWord
                                                   && negb (String.eqb word queryWord))
                                      (textWords text)))
               * 0.5)%float).
  { repeat first [ apply NumberFacts.add_sign_clear | apply NumberFacts.mul_sign_clear
                 | apply NumberFacts.of_nat_sign_clear | exact Hscore | by cbv ]. }
  destruct (includes _ _); [|exact Hsum].
  apply NumberFacts.add_sign_clear; [exact Hsum | by cbv].
Qed.

Lemma rawScore_sign_clear query text : JsNumber.sign_clear (rawScore query text).
Proof.
  unfold rawScore.
  assert (H : forall l score, JsNumber.sign_clear score ->
                JsNumber.sign_clear (fold_left (scoreWord query text) l score)).
  { induction l as [|w l IH]; intros score Hscore; cbn [fold_left]; [done|].
    by apply IH, scoreWord_sign_clear. }
  apply H. by cbv.
Qed.

(** X20. Whatever the query and the text, the relevance score is NaN or lies
    between 0 and 1. *)
Theorem calculateAdvancedRelevance_range (query text : string) :
  let r := calculateAdvancedRelevance query text in
  PrimFloat.is_nan r = true \/ (PrimFloat.leb 0 r = true /\ PrimFloat.leb r 1 = true).
Proof.
  cbn zeta. unfold calculateAdvancedRelevance. cbn zeta.
  destruct (_ || _); [right; by cbv|].
  match goal with |- context [JsNumber.Math_min 1%float ?y] =>
    destruct (NumberFacts.Math_min_bounded 1%float y) as [Hnan|(H0 & H1 & _)] end.
  - by cbv.
  - apply NumberFacts.mul_sign_clear.
    + apply NumberFacts.div_sign_clear; [apply rawScore_sign_clear|].
      repeat first [ apply NumberFacts.add_sign_clear | apply NumberFacts.mul_sign_clear
                   | apply NumberFacts.of_nat_sign_clear | by cbv ].
    + apply NumberFacts.Math_min_sign_clear; [by cbv|].
      apply NumberFacts.div_sign_clear; [by cbv | apply NumberFacts.of_nat_sign_clear].
  - by left.
  - by right.
Qed.

End RagFacts.

(** ** Text extraction *)

Module PdfFacts.
Import JsString Regex Pdf.

(** *** The decision rule *)

Lemma append_text_nil (e : Extraction) : append_text e "" = e.
Proof. destruct e as [text methods]. unfold append_text. cbn. by rewrite StringFacts.app_nil_r. Qed.

Lemma append_text_app (e : Extraction) (t1 t2 : string) :
  append_text (append_text e t1) t2 = append_text e (t1 +:+ t2).
Proof. unfold append_text. cbn. by rewrite StringFacts.app_assoc. Qed.

(** A loop whose every round appends some text, appends the concatenation. *)
Lemma fold_left_appends {A} (f : Extraction -> A -> Extraction) (g : A -> string) (l : list A) :
  (forall e a, f e a = append_text e (g a)) ->
  forall e, fold_left f l e = append_text e (String.concat "" (map g l)).
Proof.
  intros Hf. induction l as [|a l IH]; intros e; cbn [fold_left map].
  - cbn. by rewrite append_text_nil.
  - rewrite IH, Hf, append_text_app. f_equal.
    destruct l as [|b l]; cbn; [by rewrite StringFacts.app_nil_r | done].
Qed.

Lemma acceptStream_appends e stream : acceptStream e stream = append_text e (streamText stream).
Proof.
  unfold acceptStream, streamText.
  destruct (20 <? strlen (readableStream stream))%Z; [done | by rewrite append_text_nil].
Qed.

Lemma acceptTextObject_appends e textObj :
  acceptTextObject e textObj = append_text e (objectText textObj).
Proof.
  unfold acceptTextObject, objectText.
  destruct (textOfObject textObj) as [text|]; [|by rewrite append_text_nil].
  destruct (2 <? strlen text)%Z; [done | by rewrite append_text_nil].
Qed.

Lemma acceptWord_appends e word : acceptWord e word = append_text e (wordText word).
Proof.
  unfold acceptWord, wordText. cbn zeta.
  destruct (_ && _); [done | by rewrite append_text_nil].
Qed.

Lemma acceptBlock_appends e block : acceptBlock e block = append_text e (blockText block).
Proof.
  unfold blockText, acceptBlock. cbn zeta.
  rewrite !(fold_left_appends acceptWord wordText) by apply acceptWord_appends.
  done.
Qed.

(** Each method appends its own contribution to the text and, when its
    pattern matched, its tag to the methods. *)
Lemma streamExtraction_effect pdfText e :
  streamExtraction pdfText e
  = {| extractedText := extractedText e +:+ contribution streamExtraction pdfText;
       extractionMethods :=
         extractionMethods e ++ tag_if_matched streamPattern pdfText "stream_extraction" |}.
Proof.
  unfold contribution, tag_if_matched, streamExtraction.
  destruct (matchAll streamPattern pdfText) as [|m ms].
  - cbn. rewrite StringFacts.app_nil_r, app_nil_r. by destruct e.
  - rewrite !(fold_left_appends acceptStream streamText) by apply acceptStream_appends.
    done.
Qed.

Lemma textObjects_effect pdfText e :
  textObjects pdfText e
  = {| extractedText := extractedText e +:+ contribution textObjects pdfText;
       extractionMethods :=
         extractionMethods e ++ tag_if_matched textObjectPattern pdfText "text_objects" |}.
Proof.
  unfold contribution, tag_if_matched, textObjects.
  destruct (matchAll textObjectPattern pdfText) as [|m ms].
  - cbn. rewrite StringFacts.app_nil_r, app_nil_r. by destruct e.
  - rewrite !(fold_left_appends acceptTextObject objectText) by apply acceptTextObject_appends.
    done.
Qed.

Lemma textBlocks_effect pdfText e :
  textBlocks pdfText e
  = {| extractedText := extractedText e +:+ contribution textBlocks pdfText;
       extractionMethods :=
         extractionMethods e ++ tag_if_matched textBlockPattern pdfText "text_blocks" |}.
Proof.
  unfold contribution, tag_if_matched, textBlocks.
  destruct (matchAll textBlockPattern pdfText) as [|m ms].
  - cbn. rewrite StringFacts.app_nil_r, app_nil_r. by destruct e.
  - rewrite !(fold_left_appends acceptBlock blockText) by apply acceptBlock_appends.
    done.
Qed.

Lemma structuralExtraction_effect buffer :
  structuralExtraction buffer
  = {| extractedText :=
         contribution streamExtraction (decode buffer)
         +:+ contribution textObjects (decode buffer)
         +:+ contribution textBlocks (decode buffer);
       extractionMethods := matchedMethods buffer |}.
Proof.
  unfold structuralExtraction, matchedMethods. cbn zeta.
  rewrite textBlocks_effect, textObjects_effect, streamExtraction_effect. cbn.
  by rewrite StringFacts.app_assoc, <- app_assoc.
Qed.

Lemma tag_if_contributed_matched method pattern pdfText tag :
  (forall e, matchAll pattern pdfText = [] -> method pdfText e = e) ->
  forall t, t ∈ tag_if_contributed method pdfText tag -> t ∈ tag_if_matched pattern pdfText tag.
Proof.
  intros Hidle t. unfold tag_if_contributed, tag_if_matched, contribution.
  destruct (matchAll pattern pdfText) as [|m ms] eqn:E.
  - by rewrite Hidle.
  - destruct (extractedText _); [intros H; inversion H | done].
Qed.

Lemma contributors_matched buffer tag :
  tag ∈ contributors buffer -> tag ∈ matchedMethods buffer.
Proof.
  unfold contributors, matchedMethods. cbn zeta.
  rewrite !elem_of_app. intros [H|[H|H]].
  - left. revert H. apply tag_if_contributed_matched.
    intros e Hnone. unfold streamExtraction. by rewrite Hnone.
  - right. left. revert H. apply tag_if_contributed_matched.
    intros e Hnone. unfold textObjects. by rewrite Hnone.
  - right. right. revert H. apply tag_if_contributed_matched.
    intros e Hnone. unfold textBlocks. by rewrite Hnone.
Qed.

Lemma fallback_tag_not_matched buffer : "ascii_fallback" ∉ matchedMethods buffer.
Proof.
  unfold matchedMethods, tag_if_matched. cbn zeta.
  rewrite !elem_of_app. intros [H|[H|H]]; revert H;
    match goal with |- context [matchAll ?r ?t] => destruct (matchAll r t) end;
    intros H; inversion H; subst;
    match goal with H' : _ ∈ [] |- _ => inversion H' end.
Qed.

(** C2 (as the code has it). The working text of methods 1 to 3 is the
    concatenation of their contributions. If it is under 100 characters the
    extracted text is the output of the ASCII fallback and [ascii_fallback] is
    pushed onto the methods; otherwise the extracted text is that working text
    and [ascii_fallback] is absent. In both cases the other tags recorded are
    those of the methods whose pattern matched somewhere in the buffer, which
    include every method that contributed text. *)
Theorem extraction_decision_rule (buffer : list Byte.byte) :
  let structural := structuralExtraction buffer in
  extractedText structural
  = contribution streamExtraction (decode buffer)
    +:+ contribution textObjects (decode buffer)
    +:+ contribution textBlocks (decode buffer) /\
  extract buffer
  = (if (strlen (extractedText structural) <? 100)%Z
     then {| extractedText := asciiFallback buffer;
             extractionMethods := matchedMethods buffer ++ ["ascii_fallback"] |}
     else {| extractedText := extractedText structural;
             extractionMethods := matchedMethods buffer |}) /\
  ("ascii_fallback" ∉ matchedMethods buffer) /\
  (forall tag, tag ∈ contributors buffer -> tag ∈ matchedMethods buffer).
Proof.
  cbn zeta. split; [by rewrite structuralExtraction_effect|].
  split.
  - unfold extract. cbn zeta.
    destruct (strlen (extractedText (structuralExtraction buffer)) <? 100)%Z.
    + by rewrite structuralExtraction_effect.
    + by rewrite structuralExtraction_effect.
  - split; [apply fallback_tag_not_matched | apply contributors_matched].
Qed.

(** C2, counterexample. A stream too short to be accepted and a text object
    of 100 characters: methods 1 to 3 deliver 101 characters, all from the
    text object, yet [stream_extraction] is recorded. *)
Lemma stream_recorded_without_contribution :
  ~ records_exactly_the_contributors Scenario.bufferShortStream.
Proof.
  unfold records_exactly_the_contributors. intros Hspec.
  assert (H : extractionMethods (extract Scenario.bufferShortStream)
              = contributors Scenario.bufferShortStream).
  { apply Hspec. vm_compute. discriminate. }
  vm_compute in H. discriminate.
Qed.

(** *** The ASCII fallback *)

(** C7. The loop of the fallback stops one byte short: the last byte of the
    buffer never reaches the output, whatever it is. The output is the scan of
    the buffer without its last byte. *)
Theorem asciiFallback_skips_the_last_byte (buffer : list Byte.byte) (last : Byte.byte) :
  asciiFallback (buffer ++ [last]) = specifiedAsciiFallback buffer.
Proof.
  unfold asciiFallback, specifiedAsciiFallback.
  rewrite length_app. cbn [length].
  replace (length buffer + 1 - 1)%nat with (length buffer) by lia.
  by rewrite firstn_app, Nat.sub_diag, firstn_all, app_nil_r.
Qed.

(** On a buffer that ends with "%%EOF" the extractor falls back and the
    final "F" is missing from the text. *)
Lemma asciiFallback_trailer :
  extract Scenario.bufferTrailer
  = {| extractedText := "%PDF-1.4 %%EO"; extractionMethods := ["ascii_fallback"] |} /\
  specifiedAsciiFallback Scenario.bufferTrailer = "%PDF-1.4 %%EOF".
Proof. vm_compute. done. Qed.

(** *** Sections of the response *)

Lemma sentencesOf_has_nonspace text sentence :
  In sentence (sentencesOf text) -> has_nonspace sentence = true.
Proof.
  unfold sentencesOf. rewrite in_map_iff. intros (body & <- & _).
  rewrite StringFacts.has_nonspace_app. cbn. by rewrite orb_true_r.
Qed.

Lemma packSentences_nonempty sentences : forall currentSection sections,
  (forall sentence, In sentence sentences -> has_nonspace sentence = true) ->
  sections <> [] \/ has_nonspace currentSection = true \/ sentences <> [] ->
  packSentences sentences currentSection sections <> [].
Proof.
  induction sentences as [|sentence rest IH]; intros currentSection sections Hall Hsome;
    cbn [packSentences].
  - destruct Hsome as [Hsections|[Hcurrent|Hrest]]; [| |done].
    + destruct (0 <? strlen (trim currentSection))%Z; [|done]. by destruct sections.
    + apply StringFacts.trim_nonempty, Z.ltb_lt in Hcurrent. rewrite Hcurrent.
      by destruct sections.
  - assert (Hsentence : has_nonspace sentence = true) by (apply Hall; by left).
    assert (Hrest : forall s', In s' rest -> has_nonspace s' = true)
      by (intros s' Hs'; apply Hall; by right).
    destruct (800 <? strlen currentSection + strlen sentence)%Z.
    + apply IH; [done|]. right. left.
      by rewrite StringFacts.has_nonspace_app, Hsentence.
    + apply IH; [done|]. right. left.
      by rewrite !StringFacts.has_nonspace_app, Hsentence, orb_true_r.
Qed.

(** The sections the edge function builds from the cleaned text are never an
    empty list. *)
Lemma sectionsOf_nonempty text :
  sectionsOf (sentencesOf text) (JsString.join " " (sentencesOf text)) <> [].
Proof.
  unfold sectionsOf.
  destruct (500 <? strlen (JsString.join " " (sentencesOf text)))%Z eqn:Hlong; [|done].
  apply packSentences_nonempty.
  - apply sentencesOf_has_nonspace.
  - right. right. intros Hnone. rewrite Hnone in Hlong. discriminate.
Qed.

Lemma extractionResponse_sections_nonempty buffer file_id :
  r_sections (extractionResponse buffer file_id) <> [].
Proof.
  lazy beta iota zeta delta [extractionResponse r_sections].
  pose proof (sectionsOf_nonempty (cleanExtractedText (extractedText (extract buffer)))) as H.
  destruct (sectionsOf _ _) as [|section sections]; [done|].
  by destruct (_ <? 50)%Z.
Qed.

(** *** The final text *)

Lemma strlen_placeholder file_id : strlen (placeholder file_id) = (178 + strlen file_id)%Z.
Proof.
  unfold placeholder. rewrite !StringFacts.strlen_app.
  change (strlen "PDF document content extracted from file ") with 41%Z.
  match goal with |- context [strlen (String ?c ?t)] => change (strlen (String c t)) with 137%Z end.
  lia.
Qed.

Lemma strlen_truncated cleanedText :
  (8000 < strlen cleanedText)%Z ->
  strlen (substring0 8000 cleanedText +:+ truncationMarker) = (8000 + strlen truncationMarker)%Z.
Proof.
  intros Hlong. rewrite StringFacts.strlen_app, StringFacts.strlen_substring0 by lia. lia.
Qed.

(** Whatever the file id, the final text is within the cap or is the
    placeholder, 178 characters plus the file id. *)
Lemma finalTextOf_cases cleanedText file_id :
  finalTextOf cleanedText file_id
  = (if (8000 <? strlen cleanedText)%Z then substring0 8000 cleanedText +:+ truncationMarker
     else if (strlen cleanedText <? 50)%Z then placeholder file_id
     else cleanedText).
Proof.
  unfold finalTextOf, truncated.
  destruct (8000 <? strlen cleanedText)%Z eqn:Hlong; [|done].
  apply Z.ltb_lt in Hlong.
  pose proof (strlen_truncated cleanedText Hlong) as Hlen.
  pose proof (StringFacts.strlen_nonneg truncationMarker).
  destruct (_ <? 50)%Z eqn:Hshort; [|done].
  apply Z.ltb_lt in Hshort. lia.
Qed.

Lemma extractionResponse_content buffer file_id :
  r_content (extractionResponse buffer file_id) = finalTextOf (cleanedTextOf buffer) file_id.
Proof. lazy beta iota zeta delta [extractionResponse r_content cleanedTextOf]. reflexivity. Qed.

(** The endpoint refuses exactly the file of no byte. *)
Lemma download_pdf_reply buffer file_id :
  download_pdf buffer file_id
  = match buffer with
    | [] => Failure 400 "PDF file is empty or could not be downloaded"
    | _ :: _ => Success (extractionResponse buffer file_id)
    end.
Proof. unfold download_pdf. by destruct buffer. Qed.

Lemma final_text_cap (buffer : list Byte.byte) (file_id : string) :
  (strlen file_id <= 7845)%Z ->
  let cleanedText := cleanedTextOf buffer in
  let finalText := r_content (extractionResponse buffer file_id) in
  within_cap finalText /\
  ((8000 < strlen cleanedText)%Z ->
   finalText = substring0 8000 cleanedText +:+ truncationMarker) /\
  ((strlen cleanedText < 50)%Z -> finalText = placeholder file_id).
Proof.
  intros Hid cleanedText finalText.
  assert (Hfinal : finalText = finalTextOf cleanedText file_id)
    by apply extractionResponse_content.
  rewrite Hfinal, finalTextOf_cases. unfold within_cap.
  assert (Hmarker : strlen truncationMarker = 23%Z) by reflexivity.
  destruct (8000 <? strlen cleanedText)%Z eqn:Hlong;
    [apply Z.ltb_lt in Hlong | apply Z.ltb_ge in Hlong].
  - rewrite strlen_truncated by done. split; [lia|]. split; [done | intros; lia].
  - destruct (strlen cleanedText <? 50)%Z eqn:Hshort;
      [apply Z.ltb_lt in Hshort | apply Z.ltb_ge in Hshort].
    + rewrite strlen_placeholder. split; [lia|]. split; [intros; lia | done].
    + split; [lia|]. split; intros; lia.
Qed.

(** C8 (as the code has it). For a file id of at most 7845 characters and any
    buffer, the endpoint either refuses the file, which it does exactly when
    the file has no byte, or returns a text of at most 8000 characters plus
    the truncation marker; a cleaned text of more than 8000 characters is cut
    to 8000 and the marker appended; a cleaned text under 50 characters is
    replaced by the placeholder that names the file id. *)
Theorem final_text_is_capped (buffer : list Byte.byte) (file_id : string) :
  (strlen file_id <= 7845)%Z ->
  match download_pdf buffer file_id with
  | Failure _ _ => buffer = []
  | Success response =>
      let cleanedText := cleanedTextOf buffer in
      let finalText := r_content response in
      buffer <> [] /\
      within_cap finalText /\
      ((8000 < strlen cleanedText)%Z ->
       finalText = substring0 8000 cleanedText +:+ truncationMarker) /\
      ((strlen cleanedText < 50)%Z -> finalText = placeholder file_id)
  end.
Proof.
  intros Hid. rewrite download_pdf_reply. destruct buffer as [|byte bytes]; [done|].
  split; [done|]. by apply final_text_cap.
Qed.

Lemma final_text_is_capped_witness :
  exists response,
    download_pdf Scenario.bufferAB "1AbC" = Success response /\
    within_cap (r_content response) /\
    r_content response = placeholder "1AbC".
Proof.
  pose proof (final_text_is_capped Scenario.bufferAB "1AbC") as H.
  change (download_pdf Scenario.bufferAB "1AbC")
    with (Success (extractionResponse Scenario.bufferAB "1AbC")) in H.
  cbv beta iota zeta in H.
  destruct H as (_ & Hcap & _ & Hshort).
  - vm_compute. discriminate.
  - exists (extractionResponse Scenario.bufferAB "1AbC").
    split; [reflexivity|]. split; [exact Hcap|]. apply Hshort. vm_compute. reflexivity.
Defined.

(** C8, counterexample. The placeholder repeats the file id, so a file id of
    7846 characters gives a final text of 8024 characters, one more than
    8000 plus the 23 of the marker. *)
Lemma long_file_id_exceeds_cap :
  exists response,
    download_pdf Scenario.bufferAB Scenario.longFileId = Success response /\
    ~ within_cap (r_content response).
Proof.
  exists (extractionResponse Scenario.bufferAB Scenario.longFileId).
  split; [reflexivity|]. unfold within_cap. vm_compute. intros H. by apply H.
Qed.

(** *** Shape of the response *)

Lemma length_firstn_nonempty {A} (n : nat) (l : list A) :
  l <> [] -> (1 <= length (firstn (S n) l) <= S n)%nat /\
             (length (firstn (S n) l) <= length l)%nat.
Proof. intros Hne. rewrite length_firstn. destruct l; [done | cbn; lia]. Qed.

(** The sections before the cut to five. *)
Lemma extractionResponse_sections buffer file_id :
  exists sections,
    sections <> [] /\
    r_sections (extractionResponse buffer file_id) = firstn 5 sections /\
    r_sectionCount (extractionResponse buffer file_id) = length sections.
Proof.
  lazy beta iota zeta delta [extractionResponse r_sections r_sectionCount].
  eexists. split; [|split; reflexivity].
  pose proof (sectionsOf_nonempty (cleanExtractedText (extractedText (extract buffer)))) as H.
  destruct (sectionsOf _ _) as [|section sections]; [done|].
  by destruct (_ <? 50)%Z.
Qed.

Lemma strlen_finalTextOf cleanedText file_id :
  (50 <= strlen (finalTextOf cleanedText file_id))%Z.
Proof.
  unfold finalTextOf. destruct (strlen (truncated cleanedText) <? 50)%Z eqn:E.
  - rewrite strlen_placeholder. pose proof (StringFacts.strlen_nonneg file_id). lia.
  - by apply Z.ltb_ge in E.
Qed.

Lemma extractionResponse_extractedLength buffer file_id :
  r_extractedLength (extractionResponse buffer file_id) = strlen (r_content (extractionResponse buffer file_id))
  /\ r_originalSize (extractionResponse buffer file_id) = length buffer.
Proof.
  lazy beta iota zeta delta [extractionResponse r_extractedLength r_content r_originalSize].
  split; reflexivity.
Qed.

Lemma extractionResponse_shape (buffer : list Byte.byte) (file_id : string) :
  let response := extractionResponse buffer file_id in
  (1 <= length (r_sections response) <= 5)%nat /\
  (length (r_sections response) <= r_sectionCount response)%nat /\
  (50 <= strlen (r_content response))%Z /\
  r_extractedLength response = strlen (r_content response) /\
  r_originalSize response = length buffer.
Proof.
  cbn zeta.
  destruct (extractionResponse_sections buffer file_id) as (sections & Hne & -> & ->).
  destruct (length_firstn_nonempty 4 sections Hne) as [Hfive Hcount].
  split; [exact Hfive|]. split; [exact Hcount|].
  split; [rewrite extractionResponse_content; apply strlen_finalTextOf|].
  apply extractionResponse_extractedLength.
Qed.

(** X12. A file of no byte is refused with status 400, and only such a file.
    For any other buffer and any file id the response carries between one and
    five sections, [sectionCount] is at least their number, the content has at
    least 50 characters, [extractedLength] is its length and [originalSize]
    the number of bytes. *)
Theorem download_pdf_response_shape (buffer : list Byte.byte) (file_id : string) :
  match download_pdf buffer file_id with
  | Failure status _ => buffer = [] /\ status = 400%nat
  | Success response =>
      buffer <> [] /\
      (1 <= length (r_sections response) <= 5)%nat /\
      (length (r_sections response) <= r_sectionCount response)%nat /\
      (50 <= strlen (r_content response))%Z /\
      r_extractedLength response = strlen (r_content response) /\
      r_originalSize response = length buffer
  end.
Proof.
  rewrite download_pdf_reply. destruct buffer as [|byte bytes]; [done|].
  split; [done|]. apply extractionResponse_shape.
Qed.

Lemma extractionResponse_methods (buffer : list Byte.byte) (file_id : string) :
  sublist (r_extractionMethods (extractionResponse buffer file_id)) methodTags /\
  NoDup (r_extractionMethods (extractionResponse buffer file_id)).
Proof.
  assert (Hsub : sublist (r_extractionMethods (extractionResponse buffer file_id)) methodTags).
  { lazy beta iota zeta delta [extractionResponse r_extractionMethods].
    unfold extract. cbn zeta. rewrite structuralExtraction_effect.
    unfold matchedMethods, tag_if_matched, methodTags. cbn zeta.
    cbn [extractionMethods extractedText].
    destruct (_ <? 100)%Z; cbn [extractionMethods];
      destruct (matchAll streamPattern _); destruct (matchAll textObjectPattern _);
      destruct (matchAll textBlockPattern _); cbn [app];
      repeat first [apply sublist_nil_l | apply sublist_skip | apply sublist_cons]. }
  split; [done|].
  eapply sublist_NoDup; [|exact Hsub]. compute_done.
Qed.

(** X13. The methods reported by a successful response are the tags of the
    methods in the order they are tried, each at most once: a sublist of the
    four tags.  (The only refusal is that of a file of no byte.) *)
Theorem extractionMethods_in_order (buffer : list Byte.byte) (file_id : string) :
  match download_pdf buffer file_id with
  | Failure _ _ => buffer = []
  | Success response =>
      sublist (r_extractionMethods response) methodTags /\
      NoDup (r_extractionMethods response)
  end.
Proof.
  rewrite download_pdf_reply. destruct buffer as [|byte bytes]; [done|].
  apply extractionResponse_methods.
Qed.

(** *** Only printable ASCII leaves the edge function *)

Lemma is_clean_printable c : is_clean c = true -> is_printable c = true.
Proof. destruct c as [[] [] [] [] [] [] [] []]; vm_compute; intros H; first [exact H | reflexivity]. Qed.

(** The text after [/\s+/g -> ' '] holds no white space but blanks. *)
Lemma collapse_white_space_tidy s : every is_tidy (replaceAll (plus space) blank s) = true.
Proof.
  apply (RegexFacts.replaceAll_every (fun _ => true) is_tidy).
  - intros prev c t _ H. apply RegexFacts.exec_plus_none in H. unfold is_tidy. by rewrite H.
  - apply RegexFacts.exec_plus.
  - done.
  - apply StringFacts.every_true.
Qed.

Lemma cleanExtractedText_clean s : every is_clean (cleanExtractedText s) = true.
Proof.
  unfold cleanExtractedText. cbn zeta. apply StringFacts.every_trim.
  apply (RegexFacts.replaceAll_every is_tidy is_clean).
  - intros prev c t Hc H. apply RegexFacts.exec_Chr_none in H.
    apply negb_false_iff in H. unfold is_clean. by rewrite H, Hc.
  - apply RegexFacts.exec_Chr.
  - done.
  - apply collapse_white_space_tidy.
Qed.

Lemma sentencesOf_every p text sentence :
  every p text = true -> p "."%char = true ->
  In sentence (sentencesOf text) -> every p sentence = true.
Proof.
  intros Htext Hdot. unfold sentencesOf. rewrite in_map_iff.
  intros (body & <- & Hin). apply filter_In in Hin as [Hin _].
  apply in_map_iff in Hin as (part & <- & Hin).
  assert (Hd : every p "." = true) by (cbn; by rewrite Hdot).
  rewrite StringFacts.every_app, Hd, andb_true_r. apply StringFacts.every_trim.
  by apply (RegexFacts.split_every p (plus (Chr (one_of ".!?"))) text part).
Qed.

Lemma packSentences_every p sentences : forall currentSection sections section,
  p " "%char = true ->
  (forall sentence, In sentence sentences -> every p sentence = true) ->
  every p currentSection = true ->
  (forall s, In s sections -> every p s = true) ->
  In section (packSentences sentences currentSection sections) -> every p section = true.
Proof.
  induction sentences as [|sentence rest IH]; intros currentSection sections section
    Hblank Hall Hcurrent Hsections; cbn [packSentences].
  - assert (Hpush : In section (sections ++ [trim currentSection]) -> every p section = true).
    { rewrite in_app_iff. intros [Hin|[<-|[]]]; [auto | by apply StringFacts.every_trim]. }
    destruct (0 <? strlen (trim currentSection))%Z; auto.
  - assert (Hsentence : every p sentence = true) by (apply Hall; by left).
    assert (Hrest : forall s', In s' rest -> every p s' = true)
      by (intros s' Hs'; apply Hall; by right).
    assert (Hpad : forall s', every p s' = true -> every p (s' +:+ " ") = true).
    { intros s' Hs'. rewrite StringFacts.every_app, Hs'. cbn. by rewrite Hblank. }
    destruct (800 <? strlen currentSection + strlen sentence)%Z.
    + apply IH; [done | done | by apply Hpad |].
      destruct (0 <? strlen (trim currentSection))%Z; [|done].
      intros s'. rewrite in_app_iff. intros [Hin|[<-|[]]]; [auto | by apply StringFacts.every_trim].
    + apply IH; [done | done | | done].
      rewrite StringFacts.every_app, Hcurrent. by apply Hpad.
Qed.

Lemma cleanedTextOf_printable buffer :
  every is_printable (cleanedTextOf buffer) = true /\
  forall sentence,
    In sentence (sentencesOf (cleanExtractedText (extractedText (extract buffer)))) ->
    every is_printable sentence = true.
Proof.
  assert (Hsentences : forall sentence,
            In sentence (sentencesOf (cleanExtractedText (extractedText (extract buffer)))) ->
            every is_printable sentence = true).
  { intros sentence. apply sentencesOf_every; [|done].
    eapply StringFacts.every_impl; [apply is_clean_printable | apply cleanExtractedText_clean]. }
  split; [|exact Hsentences].
  unfold cleanedTextOf, JsString.join. by apply StringFacts.every_concat.
Qed.

Lemma truncated_printable text :
  every is_printable text = true -> every is_printable (truncated text) = true.
Proof.
  intros Htext. unfold truncated. destruct (8000 <? strlen text)%Z; [|done].
  rewrite StringFacts.every_app. unfold substring0.
  by rewrite StringFacts.every_substring.
Qed.

Lemma finalTextOf_printable text file_id :
  every is_printable text = true -> every is_printable file_id = true ->
  every is_printable (finalTextOf text file_id) = true.
Proof.
  intros Htext Hid. unfold finalTextOf. cbn zeta.
  destruct (_ <? 50)%Z; [|by apply truncated_printable].
  unfold placeholder. by rewrite !StringFacts.every_app, Hid.
Qed.

Lemma firstn_In {A} (n : nat) (l : list A) (x : A) : In x (firstn n l) -> In x l.
Proof.
  revert n. induction l as [|y l IH]; intros [|n]; cbn; try done.
  intros [->|Hin]; [by left | right; eauto].
Qed.

Lemma extractionResponse_section_cases buffer file_id section :
  In section (r_sections (extractionResponse buffer file_id)) ->
  In section (sectionsOf (sentencesOf (cleanExtractedText (extractedText (extract buffer))))
                (cleanedTextOf buffer))
  \/ section = finalTextOf (cleanedTextOf buffer) file_id.
Proof.
  lazy beta iota zeta delta [extractionResponse r_sections cleanedTextOf].
  intros Hin. apply firstn_In in Hin. revert Hin.
  destruct (_ <? 50)%Z; [|by left].
  rewrite in_app_iff. intros [Hin|[<-|[]]]; [by left | by right].
Qed.

(** X14. Whatever text goes into the cleaning step, what leaves it holds only
    letters, digits, the underscore, blanks and the signs [.,;:!?()-'] and
    the double quote: printable ASCII, without control characters. *)
Theorem cleanExtractedText_is_clean (text : string) :
  every is_clean (cleanExtractedText text) = true /\
  every is_printable (cleanExtractedText text) = true.
Proof.
  split; [apply cleanExtractedText_clean|].
  eapply StringFacts.every_impl; [apply is_clean_printable | apply cleanExtractedText_clean].
Qed.

Lemma extractionResponse_printable (buffer : list Byte.byte) (file_id : string) :
  every is_printable file_id = true ->
  every is_printable (r_content (extractionResponse buffer file_id)) = true /\
  forall section, In section (r_sections (extractionResponse buffer file_id)) ->
                  every is_printable section = true.
Proof.
  intros Hid.
  destruct (cleanedTextOf_printable buffer) as [Htext Hsentences].
  pose proof (finalTextOf_printable _ _ Htext Hid) as Hfinal.
  split; [by rewrite extractionResponse_content|].
  intros section Hin.
  apply extractionResponse_section_cases in Hin as [Hin| ->]; [|exact Hfinal].
  revert Hin. unfold sectionsOf. destruct (500 <? _)%Z.
  - by apply packSentences_every.
  - by intros [<-|[]].
Qed.

(** X15. Whatever bytes the PDF holds, the content and the sections of a
    successful response are printable ASCII, provided the file id is.  (The
    only refusal is that of a file of no byte.) *)
Theorem response_is_printable (buffer : list Byte.byte) (file_id : string) :
  every is_printable file_id = true ->
  match download_pdf buffer file_id with
  | Failure _ _ => buffer = []
  | Success response =>
      every is_printable (r_content response) = true /\
      forall section, In section (r_sections response) ->
                      every is_printable section = true
  end.
Proof.
  intros Hid. rewrite download_pdf_reply. destruct buffer as [|byte bytes]; [done|].
  by apply extractionResponse_printable.
Qed.

Lemma response_is_printable_witness :
  exists response,
    download_pdf Scenario.bufferAB "1AbC" = Success response /\
    every is_printable (r_content response) = true.
Proof.
  pose proof (response_is_printable Scenario.bufferAB "1AbC" eq_refl) as H.
  change (download_pdf Scenario.bufferAB "1AbC")
    with (Success (extractionResponse Scenario.bufferAB "1AbC")) in H.
  cbv beta iota in H.
  exists (extractionResponse Scenario.bufferAB "1AbC").
  split; [reflexivity | exact (proj1 H)].
Defined.

(** *** A PDF without text *)

Lemma sections_of_short_text (sentences : list string) (cleanedText file_id : string) :
  (strlen cleanedText < 50)%Z ->
  firstn 5 (if (strlen (truncated cleanedText) <? 50)%Z
            then (sectionsOf sentences cleanedText ++ [finalTextOf cleanedText file_id])%list
            else sectionsOf sentences cleanedText)
  = [cleanedText; placeholder file_id].
Proof.
  intros Hshort. unfold sectionsOf, finalTextOf, truncated.
  replace (8000 <? strlen cleanedText)%Z with false by (symmetry; apply Z.ltb_ge; lia).
  replace (500 <? strlen cleanedText)%Z with false by (symmetry; apply Z.ltb_ge; lia).
  by replace (strlen cleanedText <? 50)%Z with true by (symmetry; apply Z.ltb_lt; lia).
Qed.

Lemma extractionResponse_short_sections buffer file_id :
  (strlen (cleanedTextOf buffer) < 50)%Z ->
  r_sections (extractionResponse buffer file_id) = [cleanedTextOf buffer; placeholder file_id].
Proof.
  unfold cleanedTextOf. intros Hshort.
  lazy beta iota zeta delta [extractionResponse r_sections].
  exact (sections_of_short_text _ _ file_id Hshort).
Qed.

Lemma fallbackByte_printable text char :
  every is_printable text = true -> every is_printable (fallbackByte text char) = true.
Proof.
  intros Htext. unfold fallbackByte. cbn zeta.
  destruct (_ && _) eqn:Hrange.
  - rewrite StringFacts.every_app, Htext. cbn [every andb]. rewrite andb_true_r.
    unfold is_printable, in_range, code.
    replace (nat_of_ascii (ascii_of_byte char)) with (Byte.to_nat char); [exact Hrange|].
    by destruct char.
  - destruct ((_ || _) && _); [|exact Htext].
    rewrite StringFacts.every_app, Htext. reflexivity.
Qed.

Lemma fallbackByte_length text char :
  (String.length (fallbackByte text char) <= S (String.length text))%nat.
Proof.
  unfold fallbackByte. cbn zeta.
  destruct (_ && _); [rewrite StringFacts.length_app; cbn; lia|].
  destruct (_ && _); [rewrite StringFacts.length_app; cbn; lia | lia].
Qed.

Lemma fold_fallbackByte bytes : forall text,
  every is_printable text = true ->
  every is_printable (fold_left fallbackByte bytes text) = true /\
  (String.length (fold_left fallbackByte bytes text) <= length bytes + String.length text)%nat.
Proof.
  induction bytes as [|char bytes IH]; intros text Htext; cbn [fold_left length]; [done|].
  destruct (IH (fallbackByte text char) (fallbackByte_printable text char Htext)) as [Hp Hl].
  split; [done|]. pose proof (fallbackByte_length text char). lia.
Qed.

(** X16. The text of the ASCII fallback is printable ASCII and has at most
    one character per byte scanned: fewer characters than the buffer has
    bytes, unless the buffer is empty. *)
Theorem asciiFallback_is_printable (buffer : list Byte.byte) :
  every is_printable (asciiFallback buffer) = true /\
  (String.length (asciiFallback buffer) <= length buffer - 1)%nat.
Proof.
  unfold asciiFallback.
  destruct (fold_fallbackByte (firstn (length buffer - 1) buffer) "" eq_refl) as [Hp Hl].
  split; [done|]. rewrite length_firstn in Hl. cbn in Hl. lia.
Qed.

End PdfFacts.

(** ** The client *)

Module ClientFacts.
Import JsString Regex Client.

(** *** Splitting a text that starts with words *)

Lemma exec_space_none prev c t :
  is_space c = false -> exec (plus space) prev (String c t) = None.
Proof.
  intros Hc. unfold exec, plus, space. cbn [run remaining]. cbn [iterate].
  cbn [Nat.ltb Nat.leb]. cbn [run remaining]. by rewrite Hc.
Qed.

Lemma exec_space_some prev c t :
  is_space c = true ->
  exists y, exec (plus space) prev (String c t) = Some y /\ taken y <> [].
Proof.
  intros Hc. destruct (exec (plus space) prev (String c t)) as [y|] eqn:E.
  - exists y. split; [done|]. by apply RegexFacts.exec_plus in E.
  - apply RegexFacts.exec_plus_none in E. by rewrite Hc in E.
Qed.

(** The blanks before a word are one separator. *)
Lemma exec_blank_before_word prev d t :
  is_space d = false ->
  exec (plus space) prev (String " " (String d t))
  = Some {| taken := [" "%char]; previous := Some " "%char; remaining := String d t;
            captures := [] |}.
Proof.
  intros Hd. unfold exec, plus, space. cbn [run remaining]. cbn [iterate].
  cbn [Nat.ltb Nat.leb]. cbn [run remaining].
  change (is_space " ") with true. cbn [Nat.eqb andb pred option_map].
  cbn [String.length Nat.add iterate advance remaining taken previous captures run].
  by rewrite Hd.
Qed.

(** A word is read into the gap. *)
Lemma splitting_reads_word w : forall fuel prev t gap,
  every (fun c => negb (is_space c)) w = true ->
  exists prev',
    splitting (String.length w + fuel) (plus space) prev (w +:+ String " " t) gap
    = splitting fuel (plus space) prev' (String " " t) (rev (list_ascii_of_string w) ++ gap).
Proof.
  induction w as [|c w IH]; intros fuel prev t gap Hw; [by exists prev|].
  cbn [every] in Hw. apply andb_true_iff in Hw as [Hc Hw]. apply negb_true_iff in Hc.
  destruct (IH fuel (Some c) t (c :: gap) Hw) as [prev' Hread]. exists prev'.
  rewrite StringFacts.app_cons. cbn [String.length Nat.add splitting].
  rewrite (exec_space_none prev c _ Hc), Hread.
  cbn [list_ascii_of_string rev]. by rewrite <- app_assoc.
Qed.

Lemma of_rev_rev w : of_rev (rev (list_ascii_of_string w)) = w.
Proof. unfold of_rev. by rewrite rev_involutive, string_of_list_ascii_of_string. Qed.

(** A word followed by a blank and another word is the next element. *)
Lemma splitting_leading_word (w : string) (d : ascii) (t : string) (fuel : nat) prev :
  every (fun c => negb (is_space c)) w = true -> is_space d = false ->
  splitting (String.length w + S fuel) (plus space) prev (w +:+ String " " (String d t)) []
  = w :: splitting fuel (plus space) (Some " "%char) (String d t) [].
Proof.
  intros Hw Hd.
  destruct (splitting_reads_word w (S fuel) prev (String d t) [] Hw) as [prev' ->].
  cbn [splitting]. rewrite exec_blank_before_word by done. cbn [taken]. rewrite app_nil_r.
  cbn [groups plus space map app previous remaining]. by rewrite of_rev_rev.
Qed.

(** A word followed by white space is the next element, whatever follows. *)
Lemma splitting_last_word (w : string) (t : string) (fuel : nat) prev :
  every (fun c => negb (is_space c)) w = true ->
  exists rest,
    splitting (String.length w + S fuel) (plus space) prev (w +:+ String " " t) []
    = w :: rest.
Proof.
  intros Hw.
  destruct (splitting_reads_word w (S fuel) prev t [] Hw) as [prev' ->].
  cbn [splitting].
  destruct (exec_space_some prev' " " t eq_refl) as (y & -> & Hy).
  rewrite app_nil_r. cbn [groups plus space map app]. rewrite of_rev_rev.
  destruct (taken y); [done|]. eauto.
Qed.

(** *** The placeholder and the quality check *)

Lemma test_head (p : ascii -> bool) (c : ascii) (t : string) :
  p c = true -> test (Chr p) (String c t) = true.
Proof. intros Hc. unfold test. cbn [search]. unfold exec. cbn. by rewrite Hc. Qed.

(** The first six words of the placeholder, whatever the file id. *)
Lemma split_placeholder (rest : string) :
  exists others,
    split (plus space) ("PDF document content extracted from file " +:+ rest)
    = "PDF" :: "document" :: "content" :: "extracted" :: "from" :: "file" :: others.
Proof.
  change ("PDF document content extracted from file " +:+ rest)
    with (String "P" ("DF document content extracted from file " +:+ rest)).
  unfold split.
  replace (2 * String.length (String "P" ("DF document content extracted from file " +:+ rest)) + 2)%nat
    with (String.length "PDF" + S (String.length "document" + S (String.length "content"
          + S (String.length "extracted" + S (String.length "from"
          + S (String.length "file" + S (2 * String.length rest + 43)))))))%nat
    by (cbn [String.length]; rewrite StringFacts.length_app; cbn [String.length]; lia).
  change (String "P" ("DF document content extracted from file " +:+ rest))
    with ("PDF" +:+ String " " (String "d" ("ocument content extracted from file " +:+ rest))).
  rewrite splitting_leading_word by done.
  change (String "d" ("ocument content extracted from file " +:+ rest))
    with ("document" +:+ String " " (String "c" ("ontent extracted from file " +:+ rest))).
  rewrite splitting_leading_word by done.
  change (String "c" ("ontent extracted from file " +:+ rest))
    with ("content" +:+ String " " (String "e" ("xtracted from file " +:+ rest))).
  rewrite splitting_leading_word by done.
  change (String "e" ("xtracted from file " +:+ rest))
    with ("extracted" +:+ String " " (String "f" ("rom file " +:+ rest))).
  rewrite splitting_leading_word by done.
  change (String "f" ("rom file " +:+ rest))
    with ("from" +:+ String " " (String "f" ("ile " +:+ rest))).
  rewrite splitting_leading_word by done.
  change (String "f" ("ile " +:+ rest)) with ("file" +:+ String " " rest).
  destruct (splitting_last_word "file" rest (2 * String.length rest + 43) (Some " "%char) eq_refl)
    as [others ->].
  by exists others.
Qed.

Lemma placeholder_hasMinimalContent (file_id : string) :
  hasMinimalContent (Pdf.placeholder file_id) = true.
Proof.
  unfold hasMinimalContent. rewrite !andb_true_iff. split; [split|].
  - apply Z.ltb_lt. rewrite PdfFacts.strlen_placeholder.
    pose proof (StringFacts.strlen_nonneg file_id). lia.
  - unfold Pdf.placeholder. rewrite StringFacts.app_cons. by apply test_head.
  - apply Nat.ltb_lt. unfold wordCount, Pdf.placeholder.
    destruct (split_placeholder (file_id +:+ ". The document may contain complex formatting or embedded images that require alternative processing methods for optimal text extraction.")) as [others ->].
    cbn [List.filter]. change (0 <? strlen "PDF")%Z with true.
    change (0 <? strlen "document")%Z with true. change (0 <? strlen "content")%Z with true.
    change (0 <? strlen "extracted")%Z with true. change (0 <? strlen "from")%Z with true.
    change (0 <? strlen "file")%Z with true. cbn [length]. lia.
Qed.

(** *** From the response to the store *)

Lemma addPaper_returns paper st :
  Store.addPaper paper st = (fst (Store.addPaper paper st), Store.Returned tt).
Proof. reflexivity. Qed.

(** The registration after the processing replaces the processed paper. *)
Lemma processed_then_registered sourcePaper st :
  (10 <= strlen (Store.sp_extractedText sourcePaper))%Z ->
  exists stored,
    Store.bind addSourcePaper (Rag.processPDFContent sourcePaper) st
    = (fst (Store.addPaper stored st), Store.Returned tt) /\
    Store.sp_id stored = Store.sp_id sourcePaper /\
    Store.sp_title stored = Store.sp_title sourcePaper /\
    Store.sp_extractedText stored = Store.sp_extractedText sourcePaper /\
    Store.sp_relevantSections stored
    = (if (length (Store.sp_relevantSections sourcePaper) =? 0)%nat
       then Rag.extractRelevantSections
              (Rag.preprocessTextForSearch (Store.sp_extractedText sourcePaper))
       else Store.sp_relevantSections sourcePaper).
Proof.
  intros Hlong. apply Z.ltb_ge in Hlong.
  unfold Rag.processPDFContent. rewrite Hlong. cbn zeta.
  destruct (length (Store.sp_relevantSections sourcePaper) =? 0)%nat;
    (eexists; split;
     [unfold Store.bind at 1; unfold Store.bind at 1; rewrite addPaper_returns;
      unfold Store.ret, addSourcePaper; rewrite addPaper_returns;
      rewrite StoreFacts.addPaper_overwrite by reflexivity; reflexivity
     | cbn [Store.sp_id Store.sp_title Store.sp_extractedText Store.sp_relevantSections];
       done]).
Qed.

(** An accepted response. *)
Lemma storeDownloaded_accepted pdf_id pdf_name data st :
  hasMinimalContent (Pdf.r_content data) = true ->
  exists stored,
    storeDownloaded pdf_id pdf_name data st
    = (fst (Store.addPaper stored st), Store.Returned tt) /\
    Store.sp_id stored = pdf_id /\
    Store.sp_extractedText stored = Pdf.r_content data /\
    Store.sp_relevantSections stored
    = (if (0 <? length (Pdf.r_sections data))%nat then Pdf.r_sections data
       else if (0 <? length (paragraphsOf (Pdf.r_content data)))%nat
            then paragraphsOf (Pdf.r_content data)
            else Rag.extractRelevantSections
                   (Rag.preprocessTextForSearch (Pdf.r_content data))).
Proof.
  intros Hquality. unfold storeDownloaded. rewrite Hquality. cbn [negb].
  unfold hasMinimalContent in Hquality.
  apply andb_true_iff in Hquality as [Hquality _].
  apply andb_true_iff in Hquality as [Hlong _]. apply Z.ltb_lt in Hlong.
  replace (0 <? strlen (Pdf.r_content data))%Z with true by (symmetry; apply Z.ltb_lt; lia).
  destruct (processed_then_registered (sourcePaperOf pdf_id pdf_name data) st)
    as (stored & -> & Hid & _ & Htext & Hsections);
    [cbn [sourcePaperOf Store.sp_extractedText]; lia|].
  exists stored. split; [done|]. split; [done|]. split; [done|].
  rewrite Hsections. cbn [sourcePaperOf Store.sp_relevantSections Store.sp_extractedText].
  destruct (Pdf.r_sections data) as [|section sections]; cbn [length Nat.ltb Nat.leb Nat.eqb].
  - destruct (paragraphsOf (Pdf.r_content data)); cbn [length Nat.eqb]; reflexivity.
  - reflexivity.
Qed.

(** X17. What happens to a response: a content that fails the quality check
    (more than 20 characters, a letter, more than 5 words) is refused with an
    error and the store is left alone; otherwise one paper is stored under the
    file id, and it carries the content as received, not the preprocessed
    text, with the sections of the response or, for want of any, the long
    paragraphs of the content or, for want of any, the sections cut from the
    preprocessed content. *)
Theorem storeDownloaded_effect
    (pdf_id pdf_name : string) (data : Pdf.Response) (st : Store.ResearchDataStore) :
  let content := Pdf.r_content data in
  if hasMinimalContent content then
    exists stored,
      storeDownloaded pdf_id pdf_name data st
      = (fst (Store.addPaper stored st), Store.Returned tt) /\
      Store.sp_id stored = pdf_id /\
      Store.sp_extractedText stored = content /\
      Store.sp_relevantSections stored
      = (if (0 <? length (Pdf.r_sections data))%nat then Pdf.r_sections data
         else if (0 <? length (paragraphsOf content))%nat then paragraphsOf content
         else Rag.extractRelevantSections (Rag.preprocessTextForSearch content))
  else
    exists message, storeDownloaded pdf_id pdf_name data st = (st, Store.Thrown message).
Proof.
  cbn zeta.
  destruct (hasMinimalContent (Pdf.r_content data)) eqn:Hquality.
  - by apply storeDownloaded_accepted.
  - unfold storeDownloaded. rewrite Hquality. cbn [negb].
    destruct (0 <? strlen (Pdf.r_content data))%Z; eauto.
Qed.

Lemma short_text_is_stored_with_placeholder
    (buffer : list Byte.byte) (pdf_id pdf_name : string) (st : Store.ResearchDataStore) :
  (strlen (Pdf.cleanedTextOf buffer) < 50)%Z ->
  let data := Pdf.extractionResponse buffer pdf_id in
  Pdf.r_content data = Pdf.placeholder pdf_id /\
  hasMinimalContent (Pdf.r_content data) = true /\
  exists stored,
    storeDownloaded pdf_id pdf_name data st
    = (fst (Store.addPaper stored st), Store.Returned tt) /\
    Store.sp_id stored = pdf_id /\
    Store.sp_extractedText stored = Pdf.placeholder pdf_id /\
    Store.sp_relevantSections stored = [Pdf.cleanedTextOf buffer; Pdf.placeholder pdf_id].
Proof.
  intros Hshort. cbn zeta.
  assert (Hcontent : Pdf.r_content (Pdf.extractionResponse buffer pdf_id) = Pdf.placeholder pdf_id).
  { rewrite PdfFacts.extractionResponse_content, PdfFacts.finalTextOf_cases.
    replace (8000 <? strlen (Pdf.cleanedTextOf buffer))%Z with false
      by (symmetry; apply Z.ltb_ge; lia).
    by replace (strlen (Pdf.cleanedTextOf buffer) <? 50)%Z with true
      by (symmetry; apply Z.ltb_lt; lia). }
  pose proof (PdfFacts.extractionResponse_short_sections buffer pdf_id Hshort) as Hsections.
  revert Hcontent Hsections. generalize (Pdf.extractionResponse buffer pdf_id).
  intros data Hcontent Hsections.
  pose proof (placeholder_hasMinimalContent pdf_id) as Hquality.
  rewrite <- Hcontent in Hquality.
  split; [done|]. split; [done|].
  pose proof (storeDownloaded_accepted pdf_id pdf_name data st Hquality) as H.
  destruct H as (stored & Hstored & Hid & Htext & Hsec).
  exists stored. split; [done|]. split; [done|]. split; [by rewrite Htext|].
  by rewrite Hsec, Hsections.
Qed.

(** X18. A PDF of at least one byte from which fewer than 50 characters of
    sentences are extracted is not reported as failed: the edge function
    answers with a successful response whose content is the placeholder
    sentence, the placeholder passes the quality check whatever the file id,
    and the paper is stored with the placeholder as its text and two
    sections: the short cleaned text, which may be empty, and the placeholder. *)
Theorem unreadable_pdf_is_stored_with_placeholder
    (buffer : list Byte.byte) (pdf_id pdf_name : string) (st : Store.ResearchDataStore) :
  buffer <> [] ->
  (strlen (Pdf.cleanedTextOf buffer) < 50)%Z ->
  exists data,
    Pdf.download_pdf buffer pdf_id = Pdf.Success data /\
    Pdf.r_content data = Pdf.placeholder pdf_id /\
    hasMinimalContent (Pdf.r_content data) = true /\
    exists stored,
      storeDownloaded pdf_id pdf_name data st
      = (fst (Store.addPaper stored st), Store.Returned tt) /\
      Store.sp_id stored = pdf_id /\
      Store.sp_extractedText stored = Pdf.placeholder pdf_id /\
      Store.sp_relevantSections stored
      = [Pdf.cleanedTextOf buffer; Pdf.placeholder pdf_id].
Proof.
  intros Hbytes Hshort. exists (Pdf.extractionResponse buffer pdf_id).
  split; [rewrite PdfFacts.download_pdf_reply; by destruct buffer|].
  by apply short_text_is_stored_with_placeholder.
Qed.

Lemma unreadable_pdf_is_stored_with_placeholder_witness :
  exists data stored,
    Pdf.download_pdf Scenario.bufferAB "1AbC" = Pdf.Success data /\
    storeDownloaded "1AbC" "notes.pdf" data Store.emptyStore
    = (fst (Store.addPaper stored Store.emptyStore), Store.Returned tt) /\
    Store.sp_extractedText stored = Pdf.placeholder "1AbC".
Proof.
  destruct (unreadable_pdf_is_stored_with_placeholder Scenario.bufferAB "1AbC" "notes.pdf"
              Store.emptyStore)
    as (data & Hreply & _ & _ & stored & Hstored & _ & Htext & _).
  - discriminate.
  - vm_compute. reflexivity.
  - exists data, stored. by split.
Defined.

End ClientFacts.
